(** * The org-schema cache of CumulusCI ([cumulusci/utils/org_schema.py])

    A shallow embedding of the schema cache: the buffered bulk writer
    ([BufferedSession]), the reconciliation loop ([populate_cache]), the
    read-only handle ([Schema]) and the cache lifecycle ([get_org_schema]),
    followed by the properties that the specification states about them.

    Python dictionaries are finite maps ([gmap]), exceptions are an error
    type threaded through [Result], and the SQLite database behind the
    SQLAlchemy engine is a finite map from table names to tables. *)

From Stdlib Require Import ZArith Ascii String Strings.Byte List Bool Lia.
From Stdlib Require OrderedTypeEx.
From stdpp Require Import base option list gmap strings fin_maps sorting.

Set Warnings "-register-all".
Open Scope string_scope.
Open Scope list_scope.

(** ** Python values and exceptions *)

(** The JSON-like values that a describe payload carries. *)
Inductive value : Type :=
  | VNone
  | VBool (b : bool)
  | VInt (z : Z)
  | VStr (s : string)
  | VList (l : list value)
  | VDict (d : list (string * value)).

Lemma value_eq_dec : ∀ a b : value, {a = b} + {a ≠ b}.
Proof.
  fix IH 1. intros a b. decide equality.
  - apply bool_eq_dec.
  - apply Z.eq_dec.
  - apply string_dec.
  - apply (List.list_eq_dec IH).
  - apply List.list_eq_dec. decide equality. apply string_dec.
Defined.

#[global] Instance value_eqdec : EqDecision value := value_eq_dec.

(** A row (and any Python [dict] with string keys). *)
Abbreviation Row := (gmap string value).

(** The exceptions that the module raises or lets through. *)
Inductive Exception : Type :=
  | KeyError
  | TypeError
  | IOError
  | AssertionError
  | AttributeError
  | NoResultFound
  | MultipleResultsFound
  | IntegrityError
  | OperationalError
  | DatabaseError
  | BadGzipFile
  | EOFError.

#[global] Instance Exception_eqdec : EqDecision Exception.
Proof. solve_decision. Defined.

Inductive Result (A : Type) : Type :=
  | Ok (a : A)
  | Raise (e : Exception).
Arguments Ok {A} a.
Arguments Raise {A} e.

#[global] Instance Result_ret : MRet Result := λ A a, Ok a.
#[global] Instance Result_bind : MBind Result :=
  λ A B f m, match m with Ok a => f a | Raise e => Raise e end.

#[global] Instance Result_fmap : FMap Result :=
  λ A B f m, match m with Ok a => Ok (f a) | Raise e => Raise e end.

Definition is_ok {A} (r : Result A) : bool :=
  match r with Ok _ => true | Raise _ => false end.

(** ** The database behind the engine

    A table knows its declared columns, its primary key and what the key's
    declaration says about a conflict, and holds its rows in insertion
    order.  The database maps table names to tables. *)

(** The conflict clause of a primary key: [ABORT], the default, refuses a
    row whose key is stored already; [REPLACE] deletes the stored row and
    takes the new one. *)
Inductive OnConflict : Type := conflict_abort | conflict_replace.

#[global] Instance OnConflict_eqdec : EqDecision OnConflict.
Proof. solve_decision. Defined.

Record Table : Type := mkTable {
  tcolumns : list string;
  tprimary_key : list string;
  ton_conflict : OnConflict;
  trows : list Row
}.

Abbreviation Store := (gmap string Table).

(** The key of a row under a primary key: the values of the key columns. *)
Definition row_key (pk : list string) (r : Row) : list (option value) :=
  (λ c, r !! c) <$> pk.

(** A key column without a value.  The columns of a primary key are
    declared [NOT NULL]. *)
Definition is_null (v : option value) : bool :=
  match v with
  | None | Some VNone => true
  | Some _ => false
  end.

Definition has_null (key : list (option value)) : bool := existsb is_null key.

(** The rows of a table once an [INSERT] has been accepted: without
    primary key the row is appended; with one, a stored row of the same
    key gives way to the new row, which comes last. *)
Definition store_row (pk : list string) (rows : list Row) (r : Row) : list Row :=
  match pk with
  | [] => rows ++ [r]
  | _ => filter (λ x, row_key pk x ≠ row_key pk r) rows ++ [r]
  end.

Definition store_rows (pk : list string) (rows : list Row) (new : list Row)
  : list Row :=
  foldl (store_row pk) rows new.

(** One [INSERT]: a table without primary key accepts every row.
    Otherwise a row without a value in a key column is refused, and a row
    whose key is stored already is refused under [ABORT] and replaces the
    stored row under [REPLACE]. *)
Definition insert_row (pk : list string) (on_conflict : OnConflict)
    (rows : list Row) (r : Row) : Result (list Row) :=
  match pk with
  | [] => Ok (rows ++ [r])
  | _ =>
      if has_null (row_key pk r) then Raise IntegrityError
      else
        match on_conflict with
        | conflict_abort =>
            if bool_decide (row_key pk r ∈ row_key pk <$> rows)
            then Raise IntegrityError
            else Ok (rows ++ [r])
        | conflict_replace =>
            Ok (filter (λ x, row_key pk x ≠ row_key pk r) rows ++ [r])
        end
  end.

(** [executemany]: the rows go in one after the other. *)
Fixpoint insert_rows (pk : list string) (on_conflict : OnConflict)
    (rows : list Row) (new : list Row) : Result (list Row) :=
  match new with
  | [] => Ok rows
  | r :: new' =>
      rows' ← insert_row pk on_conflict rows r;
      insert_rows pk on_conflict rows' new'
  end.

(** [session.execute(insert_statement, rows)] inside the session's open
    transaction [txn].  When a row of the batch is refused the statement
    raises; the rows of the batch that went in before it stay in the open
    transaction, which is then never committed, and are left out here.
    A row is stored as it was written: what the column types of a
    declaration make of a value is not modelled. *)
Definition execute_insert (txn : Store) (tablename : string) (new : list Row)
  : Result Store :=
  match txn !! tablename with
  | None => Raise OperationalError
  | Some t =>
      rows' ← insert_rows (tprimary_key t) (ton_conflict t) (trows t) new;
      Ok (<[tablename :=
              mkTable (tcolumns t) (tprimary_key t) (ton_conflict t) rows']> txn)
  end.

(** ** BufferedSession *)

(** [metadata.tables]: table name and column names, in dictionary order. *)
Abbreviation MetaData := (list (string * list string)).

Record BufferedSession : Type := mkBufferedSession {
  buffered_rows : gmap string (list Row);   (* a defaultdict(list) *)
  columns : gmap string Row;
  insert_statements : list string;          (* the keys, in dictionary order *)
  max_buffer_size : Z;
  session : Store                           (* the open transaction *)
}.

(** [{colname: None for colname in model.columns.keys()}] *)
Definition none_row (colnames : list string) : Row :=
  list_to_map ((λ c, (c, VNone)) <$> colnames).

(** [__init__] with [_prepare] and [__enter__]: the session opens a
    transaction on the engine's database [db]. *)
Definition BufferedSession_init (db : Store) (metadata : MetaData)
    (max_buffer_size : Z) : Result BufferedSession :=
  match metadata with
  | [] => Raise AssertionError
  | _ =>
      Ok {| buffered_rows := ∅;
            columns := foldl (λ cols tm, <[tm.1 := none_row tm.2]> cols) ∅ metadata;
            insert_statements := remove_dups (metadata.*1);
            max_buffer_size := max_buffer_size;
            session := db |}
  end.

(** The body of [flush]'s loop for one table. *)
Definition flush_table (tablename : string) (sess : BufferedSession)
  : BufferedSession * Result unit :=
  match buffered_rows sess !!! tablename with
  | [] => (sess, Ok ())
  | rows =>
      match execute_insert (session sess) tablename rows with
      | Raise e => (sess, Raise e)
      | Ok txn =>
          ({| buffered_rows := <[tablename := []]> (buffered_rows sess);
              columns := columns sess;
              insert_statements := insert_statements sess;
              max_buffer_size := max_buffer_size sess;
              session := txn |}, Ok ())
      end
  end.

Fixpoint flush_tables (tablenames : list string) (sess : BufferedSession)
  : BufferedSession * Result unit :=
  match tablenames with
  | [] => (sess, Ok ())
  | t :: rest =>
      match flush_table t sess with
      | (sess', Ok _) => flush_tables rest sess'
      | (sess', Raise e) => (sess', Raise e)
      end
  end.

Definition flush (sess : BufferedSession) : BufferedSession * Result unit :=
  flush_tables (insert_statements sess) sess.

(** The first two statements of [write_single_row]: normalise the row and
    append it to the table's buffer. *)
Definition buffer_row (sess : BufferedSession) (tablename : string) (row : Row)
  : Result BufferedSession :=
  match columns sess !! tablename with
  | None => Raise KeyError
  | Some defaults =>
      let row := row ∪ defaults in      (* {**self.columns[tablename], **row} *)
      Ok {| buffered_rows :=
              <[tablename := (buffered_rows sess !!! tablename) ++ [row]]>
                (buffered_rows sess);
            columns := columns sess;
            insert_statements := insert_statements sess;
            max_buffer_size := max_buffer_size sess;
            session := session sess |}
  end.

Definition write_single_row (sess : BufferedSession) (tablename : string)
    (row : Row) : BufferedSession * Result unit :=
  match buffer_row sess tablename row with
  | Raise e => (sess, Raise e)
  | Ok sess' =>
      if bool_decide
           (Z.of_nat (length (buffered_rows sess' !!! tablename))
              > max_buffer_size sess')%Z
      then flush sess'
      else (sess', Ok ())
  end.

(** [commit]: flush, then commit the transaction; the result is the
    database as committed. *)
Definition commit (sess : BufferedSession) : Result Store :=
  match flush sess with
  | (sess', Ok _) => Ok (session sess')
  | (_, Raise e) => Raise e
  end.

Definition BufferedSession_close (sess : BufferedSession) : Result Store :=
  commit sess.

(** [with BufferedSession(engine, metadata, max_buffer_size) as sess: body].
    [__exit__] closes the session whether or not the body raised, and an
    exception of the body is re-raised after it.  When [close] itself
    raises, the transaction was never committed and the database keeps its
    prior contents. *)
Definition with_BufferedSession {A} (db : Store) (metadata : MetaData)
    (max_buffer_size : Z)
    (body : BufferedSession → BufferedSession * Result A) : Store * Result A :=
  match BufferedSession_init db metadata max_buffer_size with
  | Raise e => (db, Raise e)
  | Ok sess =>
      let '(sess', r) := body sess in
      match BufferedSession_close sess' with
      | Ok db' => (db', r)
      | Raise e => (db, Raise e)
      end
  end.

(** A sequence of [write_single_row] calls, stopping at the first one that
    raises. *)
Fixpoint write_rows (sess : BufferedSession) (ws : list (string * Row))
  : BufferedSession * Result unit :=
  match ws with
  | [] => (sess, Ok ())
  | (t, r) :: ws' =>
      match write_single_row sess t r with
      | (sess', Ok _) => write_rows sess' ws'
      | (sess', Raise e) => (sess', Raise e)
      end
  end.

(** A computation on the buffered session that may raise: the session is
    kept as it is at the point of the exception. *)
Definition SessM (A : Type) : Type := BufferedSession → BufferedSession * Result A.

Definition sess_ret {A} (a : A) : SessM A := λ sess, (sess, Ok a).

Definition sess_bind {A B} (m : SessM A) (k : A → SessM B) : SessM B :=
  λ sess,
    match m sess with
    | (sess', Ok a) => k a sess'
    | (sess', Raise e) => (sess', Raise e)
    end.

Definition sess_raise {A} (e : Exception) : SessM A := λ sess, (sess, Raise e).

Notation "'do' x <- m ; k" := (sess_bind m (λ x, k))
  (at level 10, x name, m at level 100, k at level 200).
Notation "m ;; k" := (sess_bind m (λ _, k))
  (at level 100, k at level 200, right associativity).

(** ** The writer's pending state

    What a commit of the session would leave in the database, forgetting
    which exception a failure raises. *)

Definition succ {A} (r : Result A) : option A :=
  match r with Ok a => Some a | Raise _ => None end.

(** One batched insert of [flush], skipped for an empty buffer. *)
Definition exec_pending (o : option Store) (tablename : string) (rows : list Row)
  : option Store :=
  match rows with
  | [] => o
  | _ => s ← o; succ (execute_insert s tablename rows)
  end.

Definition pending (tablenames : list string) (bufs : gmap string (list Row))
    (o : option Store) : option Store :=
  foldl (λ o t, exec_pending o t (bufs !!! t)) o tablenames.

(** [self.columns] as [_prepare] builds it. *)
Definition columns_of (metadata : MetaData) : gmap string Row :=
  foldl (λ cols tm, <[tm.1 := none_row tm.2]> cols) ∅ metadata.

(** The invariant of a session built by [BufferedSession_init]. *)
Definition session_wf (sess : BufferedSession) : Prop :=
  NoDup (insert_statements sess) ∧
  ∀ t, is_Some (columns sess !! t) → t ∈ insert_statements sess.

(** The rows that a sequence of writes sends to a table, normalised, up to
    the first write to an undeclared table. *)
Fixpoint rows_written (cols : gmap string Row) (tablename : string)
    (ws : list (string * Row)) : list Row :=
  match ws with
  | [] => []
  | (t, r) :: ws' =>
      match cols !! t with
      | Some defaults =>
          if bool_decide (t = tablename)
          then (r ∪ defaults) :: rows_written cols tablename ws'
          else rows_written cols tablename ws'
      | None => []
      end
  end.

(** The database after a sequence of writes, computed without buffering:
    every row is inserted as it is written, the sequence ends at the first
    write to an undeclared table, and [None] stands for a failed insert. *)
Fixpoint unbuffered (cols : gmap string Row) (ws : list (string * Row))
    (o : option Store) : option Store :=
  match ws with
  | [] => o
  | (t, r) :: ws' =>
      match cols !! t with
      | None => o
      | Some defaults => unbuffered cols ws' (exec_pending o t [r ∪ defaults])
      end
  end.

(** Two states of one session: nothing but the buffers and the transaction
    differs. *)
Definition same_setup (sess sess' : BufferedSession) : Prop :=
  columns sess' = columns sess ∧
  insert_statements sess' = insert_statements sess ∧
  max_buffer_size sess' = max_buffer_size sess.

(** A block body that does nothing to the session but write rows, in the
    order of [ws_all], as far as it gets. *)
Definition writes_prefix_of {A} (body : SessM A) (ws_all : list (string * Row))
  : Prop :=
  ∀ sess sess' r, body sess = (sess', r) →
    ∃ ws res, write_rows sess ws = (sess', res) ∧ ws `prefix_of` ws_all ∧
              (is_ok r = true → ws = ws_all ∧ is_ok res = true).


(** A writer that is opened on [db], is given the rows of [ws] one by one
    and is closed. *)
Definition write_all (db : Store) (metadata : MetaData) (max_buffer_size : Z)
    (ws : list (string * Row)) : Store * Result unit :=
  with_BufferedSession db metadata max_buffer_size (λ sess, write_rows sess ws).

(** A table after more rows have gone in, in their order. *)
Definition extend_table (new : list Row) (tbl : Table) : Table :=
  mkTable (tcolumns tbl) (tprimary_key tbl) (ton_conflict tbl)
    (store_rows (tprimary_key tbl) (trows tbl) new).
(** ** The models

    The declarative models live in [cumulusci/utils/org_schema_models.py];
    the cache only uses their table name, their columns, their primary
    key and the conflict clause that the key is declared with. *)

Record Model : Type := mkModel {
  __tablename__ : string;
  model_columns : list string;
  model_primary_key : list string;
  model_on_conflict : OnConflict
}.

(** Python truthiness of a value. *)
Definition truthy (v : value) : bool :=
  match v with
  | VNone => false
  | VBool b => b
  | VInt z => negb (z =? 0)%Z
  | VStr s => negb (bool_decide (s = ""))
  | VList l => negb (bool_decide (l = []))
  | VDict d => negb (bool_decide (d = []))
  end.

(** [dict(items)]: a later item replaces an earlier one with the same key. *)
Definition dict_of_items (d : list (string * value)) : Row :=
  foldl (λ m kv, <[kv.1 := kv.2]> m) ∅ d.

(** [for item in v]: the items that iterating a value yields.  A list
    yields its elements, a string its characters, a dictionary its keys;
    the other values are not iterable. *)
Definition iter_items (v : value) : Result (list value) :=
  match v with
  | VList l => Ok l
  | VStr s => Ok ((λ c, VStr (String c EmptyString)) <$> list_ascii_of_string s)
  | VDict d => Ok ((λ kv, VStr kv.1) <$> d)
  | VNone | VBool _ | VInt _ => Raise TypeError
  end.

Definition y2k : string := "Sat, 1 Jan 2000 00:00:01 GMT".

(** Python's order on tuples of integers and on strings. *)
Fixpoint tuple_gt (a b : list Z) : bool :=
  match a, b with
  | [], _ => false
  | _ :: _, [] => true
  | x :: a', y :: b' => if (x =? y)%Z then tuple_gt a' b' else (y <? x)%Z
  end.

Definition str_gt (a b : string) : bool :=
  match String.compare a b with Gt => true | _ => false end.

(** [(parsedate(s), s)] *)
Definition Sortable : Type := option (list Z) * string.

(** [a > b] on such pairs: the first components decide unless they are
    equal; [None] and a tuple are not ordered. *)
Definition sortable_gt (a b : Sortable) : Result bool :=
  match a.1, b.1 with
  | None, None => Ok (str_gt a.2 b.2)
  | Some ta, Some tb =>
      if bool_decide (ta = tb) then Ok (str_gt a.2 b.2) else Ok (tuple_gt ta tb)
  | _, _ => Raise TypeError
  end.

(** The order of stored values in an index: [NULL], then numbers, then
    text in the order of its bytes, then the rest. *)
Definition storage_class (v : value) : Z :=
  match v with
  | VNone => 0
  | VBool _ | VInt _ => 1
  | VStr _ => 2
  | VList _ | VDict _ => 3
  end.

Definition value_leb (a b : value) : bool :=
  match a, b with
  | VStr x, VStr y => negb (str_gt x y)
  | VInt x, VInt y => (x <=? y)%Z
  | VInt x, VBool y => (x <=? Z.b2z y)%Z
  | VBool x, VInt y => (Z.b2z x <=? y)%Z
  | VBool x, VBool y => (Z.b2z x <=? Z.b2z y)%Z
  | _, _ => (storage_class a <=? storage_class b)%Z
  end.

Definition value_le : relation value := λ a b, value_leb a b.

(** The comparison of two parsed timestamps. *)
Definition key_gt (a b : list Z * string) : bool :=
  if bool_decide (a.1 = b.1) then str_gt a.2 b.2 else tuple_gt a.1 b.1.

(** The remote system as the cache sees it: the names that [describe]
    lists, and the responses that
    [CompositeParallelSalesforce.do_composite_requests] (of
    [cumulusci/utils/http/multi_request.py]) collects for the conditional
    describe requests with a baseline timestamp and a list of names. *)
Record Response : Type := mkResponse {
  httpStatusCode : Z;
  body : Row;
  Last_Modified : string
}.

Record Salesforce : Type := mkSalesforce {
  describe_names : list string;
  do_composite_requests : string → list string → list Response
}.

(** [deep_describe]: the changed entities, with their timestamps. *)
Definition deep_describe (sf : Salesforce) (last_modified_date : string)
    (objs : list string) : list (Row * string) :=
  let last_modified_date :=
    if bool_decide (last_modified_date = "") then y2k else last_modified_date in
  let responses := do_composite_requests sf last_modified_date objs in
  (λ response, (body response, Last_Modified response))
    <$> filter (λ response, httpStatusCode response = 200%Z) responses.

(** ** Schema: the handle on the cached database *)

(** What [session.commit] is bound to: the session's own method, or the
    [closed] function that [block_writing] puts in its place. *)
Inductive CommitMethod : Type := real_commit | closed.

(** The handle keeps its engine, whose database the functions below take
    as [db], and its own session, of which only the binding of [commit]
    ever changes. *)
Record Schema : Type := mkSchema {
  session_commit : CommitMethod;
  _last_modified_date : value;
  from_cache : bool
}.

Section Cache.

Variables SObject Field FileMetadata : Model.
Variable parsedate : string → option (list Z).

(** [Base.metadata.tables] *)
Definition Base_metadata : list Model := [SObject; Field; FileMetadata].

(** [Base.metadata] after [metadata.reflect()] on the database: the
    declared tables, then the tables that only the database has. *)
Definition reflect (db : Store) : MetaData :=
  let declared := (λ m, (__tablename__ m, model_columns m)) <$> Base_metadata in
  declared ++
  omap (λ nt, if bool_decide (nt.1 ∈ declared.*1) then None
              else Some (nt.1, tcolumns nt.2))
       (map_to_list db).

(** [CREATE TABLE] for a model, unless the database has the table. *)
Definition create_table (db : Store) (model : Model) : Store :=
  match db !! __tablename__ model with
  | Some _ => db
  | None =>
      <[__tablename__ model :=
          mkTable (model_columns model) (model_primary_key model)
            (model_on_conflict model) []]> db
  end.

(** [Base.metadata.create_all()]: create the declared tables that the
    database does not have yet. *)
Definition create_all (db : Store) : Store :=
  foldl create_table db Base_metadata.

Definition create_row (sess : BufferedSession) (model : Model) (valuesdict : Row)
  : BufferedSession * Result unit :=
  write_single_row sess (__tablename__ model) valuesdict.

(** The inner loop of [populate_cache] over the fields of one entity.  The
    running maximum is updated here, once per field. *)
Fixpoint populate_fields (sobj_data : Row) (last_modified : string)
    (fields : list value) (max_last_modified : Sortable) : SessM Sortable :=
  match fields with
  | [] => sess_ret max_last_modified
  | field :: fields' =>
      match sobj_data !! "name", field with
      | None, _ => sess_raise KeyError
      | Some _, (VNone | VBool _ | VInt _ | VStr _ | VList _) => sess_raise TypeError
      | Some name, VDict d =>
          let field := <["sobject" := name]> (dict_of_items d) in
          (λ sess, create_row sess Field field) ;;
          let sortable := (parsedate last_modified, last_modified) in
          match sortable_gt sortable max_last_modified with
          | Raise e => sess_raise e
          | Ok gt =>
              populate_fields sobj_data last_modified fields'
                (if gt then sortable else max_last_modified)
          end
      end
  end.

(** One iteration of the outer loop. *)
Definition populate_sobject (entry : Row * string) (max_last_modified : Sortable)
  : SessM Sortable :=
  let '(sobj_data, last_modified) := entry in
  match sobj_data !! "fields" with               (* sobj_data.pop("fields") *)
  | None => sess_raise KeyError
  | Some fields =>
      let sobj_data := <["actionOverrides" := VList []]> (delete "fields" sobj_data) in
      (λ sess, create_row sess SObject sobj_data) ;;
      match iter_items fields with
      | Ok fields => populate_fields sobj_data last_modified fields max_last_modified
      | Raise e => sess_raise e
      end
  end.

Fixpoint populate_sobjects (full_sobjs : list (Row * string))
    (max_last_modified : Sortable) : SessM Sortable :=
  match full_sobjs with
  | [] => sess_ret max_last_modified
  | entry :: rest =>
      do m <- populate_sobject entry max_last_modified;
      populate_sobjects rest m
  end.

(** The body of the [with BufferedSession(...)] block of [populate_cache]. *)
Definition populate_rows (full_sobjs : list (Row * string))
    (last_modified_date : string) : SessM unit :=
  let max_last_modified := (parsedate last_modified_date, last_modified_date) in
  do m <- populate_sobjects full_sobjs max_last_modified;
  (λ sess, create_row sess FileMetadata
             (<["name" := VStr "Last-Modified"]> (<["value" := VStr m.2]> ∅))) ;;
  (λ sess, create_row sess FileMetadata
             (<["name" := VStr "FormatVersion"]> (<["value" := VInt 1]> ∅))).

(** [populate_cache] for a schema whose engine holds the database [db].
    Of the schema it uses the engine only: the rows go through a
    [BufferedSession] of its own, with the default [max_buffer_size] of
    1000.  The closing [vacuum] leaves the contents as they are. *)
Definition populate_cache (schema : Schema) (db : Store) (sf : Salesforce)
    (last_modified_date : string) : Store * Result unit :=
  let sobj_names := describe_names sf in
  let full_sobjs := deep_describe sf last_modified_date sobj_names in
  with_BufferedSession db (reflect db) 1000
    (populate_rows full_sobjs last_modified_date).

(** ** What a reconciliation writes

    The rows and the watermark of [populate_cache] as functions of the
    fetched entities, for the statements below. *)

(** The values of the entity row: the payload without its field list and
    with [actionOverrides] emptied. *)
Definition sobject_values (sobj_data : Row) : Row :=
  <["actionOverrides" := VList []]> (delete "fields" sobj_data).

(** The field rows of one entity, as far as the fields are dictionaries. *)
Fixpoint field_writes (name : value) (fields : list value) : list (string * Row) :=
  match fields with
  | VDict d :: fields' =>
      (__tablename__ Field, <["sobject" := name]> (dict_of_items d))
        :: field_writes name fields'
  | _ => []
  end.

(** The rows that one changed entity makes [populate_cache] write. *)
Definition entity_writes (entry : Row * string) : list (string * Row) :=
  (__tablename__ SObject, sobject_values entry.1) ::
  match entry.1 !! "fields", entry.1 !! "name" with
  | Some (VList fields), Some name => field_writes name fields
  | _, _ => []
  end.

(** The sortable pair of a timestamp. *)
Definition stamp (s : string) : Sortable := (parsedate s, s).

(** The larger of two sortable pairs, as the loop keeps it. *)
Definition sortable_max (a m : Sortable) : Sortable :=
  match sortable_gt a m with
  | Ok true => a
  | _ => m
  end.

(** The running maximum after one entity: one comparison per field. *)
Definition max_after_entity (m : Sortable) (entry : Row * string) : Sortable :=
  match entry.1 !! "fields" with
  | Some (VList fields) =>
      foldl (λ m _, sortable_max (parsedate entry.2, entry.2) m) m fields
  | _ => m
  end.

(** The watermark that [populate_cache] records. *)
Definition watermark (full : list (Row * string)) (last_modified_date : string)
  : Sortable :=
  foldl max_after_entity (parsedate last_modified_date, last_modified_date) full.

Definition Last_Modified_row (w : string) : Row :=
  <["name" := VStr "Last-Modified"]> (<["value" := VStr w]> ∅).

Definition FormatVersion_row : Row :=
  <["name" := VStr "FormatVersion"]> (<["value" := VInt 1]> ∅).

(** All the rows of one reconciliation, in the order they are written. *)
Definition populate_writes (full : list (Row * string)) (last_modified_date : string)
  : list (string * Row) :=
  concat (entity_writes <$> full) ++
  [(__tablename__ FileMetadata, Last_Modified_row (watermark full last_modified_date).2);
   (__tablename__ FileMetadata, FormatVersion_row)].

(** What a part of the loop does to the session: it writes a prefix of
    [ws_all], all of it when it returns, and then returns [expected]. *)
Definition loop_writes (body : SessM Sortable) (ws_all : list (string * Row))
    (expected : Sortable) : Prop :=
  ∀ sess sess' r, body sess = (sess', r) →
    ∃ ws res, write_rows sess ws = (sess', res) ∧ ws `prefix_of` ws_all ∧
              (∀ m', r = Ok m' → ws = ws_all ∧ is_ok res = true ∧ m' = expected).

(** ** The methods of [Schema]

    The queries go through the schema's session to the database of its
    engine. *)

(** [Schema(engine, schema_path)] *)
Definition Schema_init : Schema :=
  {| session_commit := real_commit; _last_modified_date := VNone; from_cache := false |}.

(** [self.session.query(model)] *)
Definition query (model : Model) (db : Store) : Result (list Row) :=
  match db !! __tablename__ model with
  | None => Raise OperationalError
  | Some t => Ok (trows t)
  end.

Definition filter_by_name (name : string) (rows : list Row) : list Row :=
  filter (λ r : Row, r !! "name" = Some (VStr name)) rows.

(** [Query.one()] *)
Definition one (rows : list Row) : Result Row :=
  match rows with
  | [] => Raise NoResultFound
  | [r] => Ok r
  | _ :: _ :: _ => Raise MultipleResultsFound
  end.

(** An attribute of a mapped object: the column's value, [None] for NULL. *)
Definition attr (r : Row) (colname : string) : value := default VNone (r !! colname).

Definition sobjects (schema : Schema) (db : Store) : Result (list Row) :=
  query SObject db.

Definition __getitem__ (schema : Schema) (db : Store) (name : string) : Result Row :=
  match rows ← query SObject db; one (filter_by_name name rows) with
  | Raise NoResultFound => Raise KeyError
  | r => r
  end.

Definition __contains__ (schema : Schema) (db : Store) (name : string)
  : Result (list Row) :=
  filter_by_name name <$> query SObject db.

(** [query(SObject.name).all()] selects the one column.  A table whose
    primary key is that column answers from the index of the key, in the
    order of the names; any other table in the order of its rows. *)
Definition keys (schema : Schema) (db : Store) : Result (list value) :=
  match db !! __tablename__ SObject with
  | None => Raise OperationalError
  | Some t =>
      let names := (λ r, attr r "name") <$> trows t in
      Ok (if bool_decide (tprimary_key t = ["name"])
          then merge_sort value_le names else names)
  end.

Definition values (schema : Schema) (db : Store) : Result (list Row) :=
  query SObject db.

Definition items (schema : Schema) (db : Store) : Result (list (value * Row)) :=
  fmap (M := list) (λ r, (attr r "name", r)) <$> query SObject db.

Definition block_writing (schema : Schema) : Schema :=
  {| session_commit := closed;
     _last_modified_date := _last_modified_date schema;
     from_cache := from_cache schema |}.

(** [schema.session.commit()].  Nothing in this module adds to the
    schema's own session, so its real commit has nothing to write. *)
Definition Schema_session_commit (schema : Schema) : Result unit :=
  match session_commit schema with
  | real_commit => Ok ()
  | closed => Raise IOError
  end.

(** The [last_modified_date] property; it caches what it finds. *)
Definition last_modified_date (schema : Schema) (db : Store)
  : Schema * Result value :=
  if truthy (_last_modified_date schema) then
    (schema, Ok (_last_modified_date schema))
  else
    match rows ← query FileMetadata db; one (filter_by_name "Last-Modified" rows) with
    | Ok r =>
        ({| session_commit := session_commit schema;
            _last_modified_date := attr r "value";
            from_cache := from_cache schema |}, Ok (attr r "value"))
    | Raise NoResultFound => (schema, Ok (_last_modified_date schema))
    | Raise e => (schema, Raise e)
    end.

(** ** Files and the cache lifecycle *)

(** What a file holds, as far as the cache can tell: bytes that are
    neither a gzip stream nor a database, a SQLite database with its
    contents, the gzip stream of another file, or a gzip stream that stops
    before its end.  [Raw []] is the empty file. *)
Inductive File : Type :=
  | Raw (b : list Byte.byte)
  | Db (s : Store)
  | Gz (f : File)
  | TruncatedGz (f : File).

(** The two files of a refresh cycle: the persistent artifact
    [org_schema.db.gz] and the scratch database [temp_org_schema.db]. *)
Record World : Type := mkWorld {
  schema_path : option File;
  tempfile : option File
}.

(** How far [zip_database] got when it was interrupted. *)
Inductive ZipProgress : Type :=
  | source_opened       (* tempfile.open("rb") *)
  | target_opened       (* schema_path.open("wb"): the artifact is truncated *)
  | partly_written      (* some of the gzip stream has reached the file *)
  | completed.

(** The files when [zip_database(tempfile, schema_path)] stops after the
    given point.  Errors of the file system during a save are not part of
    the model: they leave the files as they are here at one of these
    points. *)
Definition zip_database_upto (p : ZipProgress) (w : World) : World * Result unit :=
  match tempfile w with
  | None => (w, Raise IOError)
  | Some db =>
      match p with
      | source_opened => (w, Ok ())
      | target_opened => (mkWorld (Some (Raw [])) (tempfile w), Ok ())
      | partly_written => (mkWorld (Some (TruncatedGz db)) (tempfile w), Ok ())
      | completed => (mkWorld (Some (Gz db)) (tempfile w), Ok ())
      end
  end.

Definition zip_database (w : World) : World * Result unit :=
  zip_database_upto completed w.

(** [unzip_database(schema_path, tempfile)]: the output file is opened,
    and so created empty, before the gzip stream is read.  An empty file
    reads as an empty stream. *)
Definition unzip_database (w : World) : World * Result unit :=
  match schema_path w with
  | None => (w, Raise IOError)
  | Some (Gz f) => (mkWorld (schema_path w) (Some f), Ok ())
  | Some (Raw []) => (mkWorld (schema_path w) (Some (Raw [])), Ok ())
  | Some (TruncatedGz _) => (mkWorld (schema_path w) (Some (Raw [])), Raise EOFError)
  | Some _ => (mkWorld (schema_path w) (Some (Raw [])), Raise BadGzipFile)
  end.

(** The database that the engine finds in a file: SQLite takes a missing
    or empty file for an empty database and refuses other bytes. *)
Definition sqlite_open (f : option File) : Result Store :=
  match f with
  | None | Some (Raw []) => Ok ∅
  | Some (Db s) => Ok s
  | Some _ => Raise DatabaseError
  end.

(** [assert schema.sobjects.first().name]: the liveness check of a loaded
    artifact. *)
Definition liveness_check (schema : Schema) (w : World) : Result unit :=
  db ← sqlite_open (tempfile w);
  rows ← sobjects schema db;
  match rows with
  | [] => Raise AttributeError
  | r :: _ => if truthy (attr r "name") then Ok () else Raise AssertionError
  end.

(** The [try] block of [get_org_schema] with its [except] clause: the
    schema loaded from the artifact, or [None] after the cleanups that
    were registered before the failure. *)
Definition load_from_cache (w : World) : World * option Schema :=
  match unzip_database w with
  | (w1, Raise _) => (w1, None)                   (* cleanups_on_failure = [] *)
  | (w1, Ok _) =>
      match liveness_check Schema_init w1 with
      | Ok _ => (w1, Some (mkSchema real_commit VNone true))   (* from_cache = True *)
      | Raise _ => (mkWorld None None, None)      (* close, unlink, unlink *)
      end
  end.

(** [schema.last_modified_date or y2k], as the string that
    [populate_cache] goes on to parse. *)
Definition baseline (schema : Schema) (db : Store) : Schema * Result string :=
  match last_modified_date schema db with
  | (schema', Raise e) => (schema', Raise e)
  | (schema', Ok v) =>
      if truthy v then
        match v with
        | VStr s => (schema', Ok s)
        | _ => (schema', Raise AttributeError)
        end
      else (schema', Ok y2k)
  end.

(** [get_org_schema] up to its [yield]: the files, and the read-only
    schema handed to the caller.  The scratch database lives in a new
    temporary directory, so it does not exist at the start, and an
    exception leaves the [with] blocks, which removes that directory. *)
Definition get_org_schema (sf : Salesforce) (force_recache : bool) (w : World)
  : World * Result Schema :=
  let w := mkWorld (if force_recache then None else schema_path w) None in
  let '(w, schema) :=
    match schema_path w with
    | Some _ => load_from_cache w
    | None => (w, None)
    end in
  let prepared : Result (Store * Schema) :=
    match schema with
    | Some schema => db ← sqlite_open (tempfile w); Ok (db, schema)
    | None => db ← sqlite_open (tempfile w); Ok (create_all db, Schema_init)
    end in
  match prepared with
  | Raise e => (mkWorld (schema_path w) None, Raise e)
  | Ok (db, schema) =>
      match baseline schema db with
      | (_, Raise e) => (mkWorld (schema_path w) None, Raise e)
      | (schema, Ok since) =>
          match populate_cache schema db sf since with
          | (_, Raise e) => (mkWorld (schema_path w) None, Raise e)
          | (db', Ok _) =>
              let schema := block_writing schema in
              match zip_database (mkWorld (schema_path w) (Some (Db db'))) with
              | (w', Raise e) => (mkWorld (schema_path w') None, Raise e)
              | (w', Ok _) => (w', Ok schema)
              end
          end
      end
  end.

(** The rest of [get_org_schema] once a fresh store is in place, for the
    statements below: the reconciliation from the epoch, the freeze and
    the save. *)
Definition rebuild (sf : Salesforce) (artifact : option File) : World * Result Schema :=
  match populate_cache Schema_init (create_all ∅) sf y2k with
  | (_, Raise e) => (mkWorld artifact None, Raise e)
  | (db', Ok _) =>
      (mkWorld (Some (Gz (Db db'))) (Some (Db db')), Ok (block_writing Schema_init))
  end.

(** The end of the caller's [with get_org_schema(...)] block: the schema
    is closed and the scratch directory removed. *)
Definition release (w : World) : World := mkWorld (schema_path w) None.

End Cache.

(** ** A concrete instance

    Modelled from the spec: the models of
    [cumulusci/utils/org_schema_models.py], which the cache imports.  The
    specification gives an entity record a unique name as its primary key,
    a field record an owning entity and a name that are unique together,
    and the cache metadata unique keys, and it wants the row of an entity
    that changed again to replace the stored row: the keys are declared
    with the [REPLACE] conflict clause.  The descriptive columns are a
    sample of what a describe call returns. *)

Definition SObject_model : Model :=
  mkModel "sobjects" ["name"; "label"; "custom"; "actionOverrides"] ["name"]
    conflict_replace.

Definition Field_model : Model :=
  mkModel "fields" ["sobject"; "name"; "label"; "type"] ["sobject"; "name"]
    conflict_replace.

Definition FileMetadata_model : Model :=
  mkModel "file_metadata" ["name"; "value"] ["name"] conflict_replace.

(** [email.utils.parsedate] on the form that an HTTP [Last-Modified] header
    has, [Sat, 1 Jan 2000 00:00:01 GMT]: the day name is optional, the
    zone is read and dropped, and the result is the nine-item time tuple
    whose last three items are fixed.  Other strings give [None] here;
    the library function reads further date forms, which the sample data
    does not use. *)

Fixpoint split_at (sep : Ascii.ascii) (s : string) : list string :=
  match s with
  | EmptyString => [EmptyString]
  | String c s' =>
      if bool_decide (c = sep) then EmptyString :: split_at sep s'
      else match split_at sep s' with
           | [] => [String c EmptyString]
           | w :: ws => String c w :: ws
           end
  end.

Fixpoint int_of_digits (s : string) (acc : Z) : option Z :=
  match s with
  | EmptyString => Some acc
  | String c s' =>
      let n := Z.of_nat (Ascii.nat_of_ascii c) in
      if bool_decide (48 ≤ n ≤ 57)%Z
      then int_of_digits s' (10 * acc + (n - 48))%Z
      else None
  end.

Definition int_of_string (s : string) : option Z :=
  match s with
  | EmptyString => None
  | _ => int_of_digits s 0
  end.

Definition monthnames : list string :=
  ["Jan"; "Feb"; "Mar"; "Apr"; "May"; "Jun";
   "Jul"; "Aug"; "Sep"; "Oct"; "Nov"; "Dec"].

Fixpoint index_of (x : string) (l : list string) (i : Z) : option Z :=
  match l with
  | [] => None
  | y :: l' => if bool_decide (x = y) then Some i else index_of x l' (i + 1)%Z
  end.

Definition ends_with_comma (s : string) : bool :=
  match last (list_ascii_of_string s) with
  | Some c => bool_decide (c = ","%char)
  | None => false
  end.

Definition parsedate_http (data : string) : option (list Z) :=
  let tokens := filter (λ w, w ≠ "") (split_at " "%char data) in
  let tokens :=
    match tokens with
    | day :: rest => if ends_with_comma day then rest else tokens
    | [] => tokens
    end in
  match tokens with
  | dd :: mm :: yy :: tm :: _tz :: _ =>
      match split_at ":"%char tm with
      | [thh; tmm; tss] =>
          mm ← index_of mm monthnames 1;
          yy ← int_of_string yy;
          dd ← int_of_string dd;
          thh ← int_of_string thh;
          tmm ← int_of_string tmm;
          tss ← int_of_string tss;
          let yy := if (yy <? 100)%Z
                    then (if (68 <? yy)%Z then yy + 1900 else yy + 2000)%Z
                    else yy in
          Some [yy; mm; dd; thh; tmm; tss; 0; 1; -1]%Z
      | _ => None
      end
  | _ => None
  end.

(** The cache with these models and this date parser. *)
Definition populate_cache_http :=
  populate_cache SObject_model Field_model FileMetadata_model parsedate_http.

Definition get_org_schema_http :=
  get_org_schema SObject_model Field_model FileMetadata_model parsedate_http.

(** A freshly initialised store. *)
Definition fresh_store : Store :=
  create_all SObject_model Field_model FileMetadata_model ∅.

(** ** Sample remote systems *)

Definition t2021 : string := "Thu, 04 Mar 2021 10:20:30 GMT".
Definition t2022 : string := "Sat, 01 Jan 2022 00:00:00 GMT".

(** An entity with two fields, whose payload carries action overrides. *)
Definition account_payload (label : string) : Row :=
  <["name" := VStr "Account"]>
  (<["label" := VStr label]>
  (<["actionOverrides" := VList [VDict [("name", VStr "New")]]]>
  (<["fields" := VList [VDict [("name", VStr "Id"); ("type", VStr "id")];
                        VDict [("name", VStr "Name"); ("type", VStr "string")]]]>
   ∅))).

(** An entity whose field list is empty. *)
Definition fieldless_payload : Row :=
  <["name" := VStr "Ping__e"]> (<["fields" := VList []]> ∅).

(** A remote system that reports [Account] changed at [t2021]. *)
Definition sf_account (label : string) : Salesforce :=
  mkSalesforce ["Account"; "Contact"]
    (λ since names,
       [mkResponse 200 (account_payload label) t2021; mkResponse 304 ∅ ""]).

(** A remote system that reports only the entity without fields changed,
    at [t2021]. *)
Definition sf_fieldless : Salesforce :=
  mkSalesforce ["Ping__e"] (λ since names, [mkResponse 200 fieldless_payload t2021]).

(** A remote system that reports nothing changed. *)
Definition sf_unchanged : Salesforce :=
  mkSalesforce ["Account"] (λ since names, [mkResponse 304 ∅ ""]).

(** The store after a first cycle against [sf_account "Old"]. *)
Definition seeded_store : Store :=
  (populate_cache_http Schema_init fresh_store (sf_account "Old") y2k).1.

(** The same tables without primary keys. *)
Definition without_keys (db : Store) : Store :=
  (λ tbl, mkTable (tcolumns tbl) [] (ton_conflict tbl) (trows tbl)) <$> db.

(** The same tables with keys that are declared without a conflict
    clause. *)
Definition with_abort (db : Store) : Store :=
  (λ tbl, mkTable (tcolumns tbl) (tprimary_key tbl) conflict_abort (trows tbl)) <$> db.

(** The metadata the writer is set up with on a fresh store, and a few
    rows for it. *)
Definition sample_metadata : MetaData :=
  reflect SObject_model Field_model FileMetadata_model fresh_store.

Definition sample_rows : list (string * Row) :=
  [("sobjects", <["name" := VStr "Account"]> ∅);
   ("fields", <["sobject" := VStr "Account"]> (<["name" := VStr "Id"]> ∅));
   ("fields", <["sobject" := VStr "Account"]> (<["name" := VStr "Name"]> ∅));
   ("sobjects", <["name" := VStr "Contact"]> ∅);
   ("fields", <["sobject" := VStr "Contact"]> (<["name" := VStr "Id"]> ∅))].

(** An artifact that is not a gzip stream. *)
Definition corrupt_artifact : File := Raw ["x"%byte; "y"%byte].

(** The writer on a fresh store, as [BufferedSession_init] sets it up. *)
Definition sample_session : BufferedSession :=
  {| buffered_rows := ∅;
     columns := columns_of sample_metadata;
     insert_statements := remove_dups sample_metadata.*1;
     max_buffer_size := 1000;
     session := fresh_store |}.

(** The entity table of a store. *)
Definition sobjects_table (db : Store) : Table :=
  default (mkTable [] [] conflict_abort []) (db !! __tablename__ SObject_model).

Definition file_metadata_table (db : Store) : Table :=
  default (mkTable [] [] conflict_abort []) (db !! __tablename__ FileMetadata_model).


(** A cache directory with a good artifact from an earlier cycle, during
    a later cycle whose scratch database is ready to be saved. *)
Definition world_before_save : World :=
  mkWorld (Some (Gz (Db seeded_store))) (Some (Db fresh_store)).

(** Whether an entity has a field. *)
Definition has_fields (entry : Row * string) : bool :=
  match entry.1 !! "fields" with
  | Some (VList (_ :: _)) => true
  | _ => false
  end.

(** A describe response as the loop of [populate_cache] expects it: the
    payload has a list of field dictionaries, a name when it has fields,
    and a timestamp that [parsedate] reads. *)
Definition well_formed_entry (parsedate : string → option (list Z))
    (entry : Row * string) : Prop :=
  (∃ fields, entry.1 !! "fields" = Some (VList fields) ∧
             Forall (λ field, ∃ d, field = VDict d) fields ∧
             (fields ≠ [] → is_Some (entry.1 !! "name"))) ∧
  is_Some (parsedate entry.2).

(** A write that the database cannot refuse: the writer knows the table,
    the database has it, and the table has no primary key, or one that
    is declared with [REPLACE] and for which the row has values. *)
Definition accepts (cols : gmap string Row) (s : Store) (w : string * Row) : bool :=
  match cols !! w.1, s !! w.1 with
  | Some defaults, Some tbl =>
      match tprimary_key tbl, ton_conflict tbl with
      | [], _ => true
      | _ :: _, conflict_replace =>
          negb (has_null (row_key (tprimary_key tbl) (w.2 ∪ defaults)))
      | _ :: _, conflict_abort => false
      end
  | _, _ => false
  end.

(** ** More sample data *)

(** The sample writer with a threshold of one row. *)
Definition small_session : BufferedSession :=
  {| buffered_rows := ∅;
     columns := columns_of sample_metadata;
     insert_statements := remove_dups sample_metadata.*1;
     max_buffer_size := 1;
     session := fresh_store |}.

(** The sample writer with the sample rows in its buffers. *)
Definition buffered_session : BufferedSession :=
  (write_rows sample_session sample_rows).1.

(** Two entity rows, the second without a name: the entity table takes
    the first only. *)
Definition unnamed_rows : list (string * Row) :=
  [("sobjects", <["name" := VStr "Account"]> ∅);
   ("sobjects", <["label" := VStr "Nameless"]> ∅)].

(** The sample writer after a flush that the entity table refused. *)
Definition refused_session : BufferedSession :=
  (flush (write_rows sample_session unnamed_rows).1).1.

(** A remote system whose answer for [Account] has no field list. *)
Definition sf_malformed : Salesforce :=
  mkSalesforce ["Account"]
    (λ since names,
       [mkResponse 200 (<["name" := VStr "Account"]> ∅) t2022]).


(** A cache directory with the artifact of a first cycle. *)
Definition cached_world : World := mkWorld (Some (Gz (Db seeded_store))) None.

(** The field table of a store. *)
Definition fields_table (db : Store) : Table :=
  default (mkTable [] [] conflict_abort []) (db !! __tablename__ Field_model).

(** * Properties

    ** The buffered writer *)

Section BufferedSessionFacts.

Implicit Types (sess : BufferedSession) (s txn : Store) (o : option Store).
Implicit Types (t : string) (rows new : list Row).

Lemma insert_rows_app pk oc rows a b :
  insert_rows pk oc rows (a ++ b)
  = rows' ← insert_rows pk oc rows a; insert_rows pk oc rows' b.
Proof.
  revert rows. induction a as [|r a IH]; intros rows; simpl; [done|].
  destruct (insert_row pk oc rows r) as [rows1|e]; simpl; [apply IH | done].
Qed.

Lemma filter_all_key pk rows (r : Row) :
  row_key pk r ∉ row_key pk <$> rows →
  filter (λ x, row_key pk x ≠ row_key pk r) rows = rows.
Proof.
  induction rows as [|x rows IH]; [done|].
  rewrite fmap_cons, not_elem_of_cons. intros [Hne Hnot].
  rewrite filter_cons, decide_True by done. by rewrite IH.
Qed.

(** An accepted row is stored. *)
Lemma insert_row_ok pk oc rows r rows' :
  insert_row pk oc rows r = Ok rows' → rows' = store_row pk rows r.
Proof.
  unfold insert_row, store_row. destruct pk as [|c pk]; [congruence|].
  destruct (has_null _); [done|]. destruct oc; [|congruence].
  case_bool_decide as Hin; [done|]. intros [= <-]. by rewrite filter_all_key.
Qed.

Lemma insert_rows_ok pk oc rows new rows' :
  insert_rows pk oc rows new = Ok rows' → rows' = store_rows pk rows new.
Proof.
  revert rows. induction new as [|r new IH]; intros rows; simpl.
  - by intros [= <-].
  - destruct (insert_row pk oc rows r) as [rows1|e] eqn:E; simpl; [|done].
    intros H. apply IH in H as ->. by apply insert_row_ok in E as ->.
Qed.

(** Without a primary key, and for rows whose keys are new, storing is
    appending. *)
Lemma store_rows_nil_key rows new : store_rows [] rows new = rows ++ new.
Proof.
  revert rows. induction new as [|r new IH]; intros rows; simpl.
  - by rewrite app_nil_r.
  - rewrite IH. by rewrite <- app_assoc.
Qed.

Lemma store_rows_app pk rows a b :
  store_rows pk rows (a ++ b) = store_rows pk (store_rows pk rows a) b.
Proof. apply foldl_app. Qed.

(** A stored row was there before or is the new one. *)
Lemma elem_of_store_row pk rows r x :
  x ∈ store_row pk rows r → x ∈ rows ∨ x = r.
Proof.
  unfold store_row. destruct pk as [|c pk].
  - intros [?|?%list_elem_of_singleton]%elem_of_app; [by left|by right].
  - intros [[? ?]%list_elem_of_filter|?%list_elem_of_singleton]%elem_of_app;
      [by left|by right].
Qed.

Lemma elem_of_store_rows pk rows new x :
  x ∈ store_rows pk rows new → x ∈ rows ∨ x ∈ new.
Proof.
  revert rows. induction new as [|r new IH]; intros rows; simpl; [auto|].
  intros [[?| ->]%elem_of_store_row|?]%IH; [by left|right; left|right; by right].
Qed.

(** The new row is stored, and a stored row stays unless the new row has
    its key. *)
Lemma store_row_new pk rows r : r ∈ store_row pk rows r.
Proof.
  unfold store_row. destruct pk; apply elem_of_app; right; by left.
Qed.

Lemma store_row_keeps pk rows r x :
  x ∈ rows → row_key pk x ≠ row_key pk r → x ∈ store_row pk rows r.
Proof.
  intros Hx Hne. unfold store_row. destruct pk as [|c pk]; apply elem_of_app; left;
    [done|]. by apply list_elem_of_filter.
Qed.

Lemma store_rows_keeps pk rows new x :
  x ∈ rows → row_key pk x ∉ row_key pk <$> new → x ∈ store_rows pk rows new.
Proof.
  revert rows. induction new as [|r new IH]; intros rows Hx; simpl; [done|].
  rewrite not_elem_of_cons. intros [Hne Hnot]. apply IH; [|done].
  by apply store_row_keeps.
Qed.

(** New rows with keys of their own are all stored. *)
Lemma store_rows_new pk rows new x :
  NoDup (row_key pk <$> new) → x ∈ new → x ∈ store_rows pk rows new.
Proof.
  revert rows. induction new as [|r new IH]; intros rows Hnd Hx; simpl.
  { by apply elem_of_nil in Hx. }
  rewrite fmap_cons in Hnd. apply NoDup_cons in Hnd as [Hnot Hnd].
  apply elem_of_cons in Hx as [->|Hx].
  - apply store_rows_keeps; [apply store_row_new|done].
  - by apply IH.
Qed.

Lemma execute_insert_app s t a b :
  execute_insert s t (a ++ b) = s' ← execute_insert s t a; execute_insert s' t b.
Proof.
  unfold execute_insert. destruct (s !! t) as [tbl|] eqn:E; [|done].
  rewrite insert_rows_app.
  destruct (insert_rows (tprimary_key tbl) (ton_conflict tbl) (trows tbl) a) as [rows1|e]; simpl; [|done].
  rewrite lookup_insert_eq. simpl.
  destruct (insert_rows (tprimary_key tbl) (ton_conflict tbl) rows1 b); simpl; [|done].
  by rewrite insert_insert_eq.
Qed.

Lemma execute_insert_comm s t t' a b :
  t ≠ t' →
  succ (s' ← execute_insert s t a; execute_insert s' t' b)
  = succ (s' ← execute_insert s t' b; execute_insert s' t a).
Proof.
  intros Hne. unfold execute_insert.
  destruct (s !! t) as [tbl|] eqn:E, (s !! t') as [tbl'|] eqn:E'; simpl.
  - destruct (insert_rows (tprimary_key tbl) (ton_conflict tbl) (trows tbl) a) as [ra|] eqn:Ea,
      (insert_rows (tprimary_key tbl') (ton_conflict tbl') (trows tbl') b) as [rb|] eqn:Eb; simpl;
      rewrite ?lookup_insert_ne, ?E, ?E' by done; simpl; rewrite ?Ea, ?Eb; simpl; try done.
    f_equal. by apply insert_insert_ne.
  - destruct (insert_rows (tprimary_key tbl) (ton_conflict tbl) (trows tbl) a); simpl; [|done].
    by rewrite lookup_insert_ne, E' by done.
  - destruct (insert_rows (tprimary_key tbl') (ton_conflict tbl') (trows tbl') b); simpl; [|done].
    by rewrite lookup_insert_ne, E by done.
  - done.
Qed.

Lemma exec_pending_None t rows : exec_pending None t rows = None.
Proof. by destruct rows. Qed.

Lemma exec_pending_nonempty o t rows :
  rows ≠ [] → exec_pending o t rows = s ← o; succ (execute_insert s t rows).
Proof. by destruct rows. Qed.

Lemma exec_pending_app o t a b :
  exec_pending o t (a ++ b) = exec_pending (exec_pending o t a) t b.
Proof.
  destruct (decide (a = [])) as [->|Ha]; [done|].
  destruct (decide (b = [])) as [->|Hb]; [by rewrite app_nil_r|].
  rewrite !exec_pending_nonempty; [|done|done|by destruct a].
  destruct o as [s|]; [|done]. simpl. rewrite execute_insert_app.
  by destruct (execute_insert s t a).
Qed.

Lemma exec_pending_comm o t t' a b :
  t ≠ t' →
  exec_pending (exec_pending o t a) t' b = exec_pending (exec_pending o t' b) t a.
Proof.
  intros Hne. destruct a as [|ra a]; [done|]. destruct b as [|rb b]; [done|].
  destruct o as [s|]; [|done].
  pose proof (execute_insert_comm s t t' (ra :: a) (rb :: b) Hne) as H.
  unfold exec_pending; cbn [mbind option_bind].
  destruct (execute_insert s t (ra :: a)) as [s1|] eqn:E1,
    (execute_insert s t' (rb :: b)) as [s2|] eqn:E2; simpl in *; done.
Qed.

Lemma pending_None names bufs : pending names bufs None = None.
Proof.
  induction names as [|t names IH]; [done|]. unfold pending in *; simpl.
  by rewrite exec_pending_None.
Qed.

Lemma pending_cons t names bufs o :
  pending (t :: names) bufs o = pending names bufs (exec_pending o t (bufs !!! t)).
Proof. done. Qed.

Lemma pending_ext names bufs bufs' o :
  (∀ t, t ∈ names → bufs !!! t = bufs' !!! t) →
  pending names bufs o = pending names bufs' o.
Proof.
  revert o. induction names as [|t names IH]; intros o H; [done|].
  rewrite !pending_cons, (H t) by left. apply IH. intros; apply H. by right.
Qed.

Lemma pending_exec_notin names bufs o t rows :
  t ∉ names →
  pending names bufs (exec_pending o t rows) = exec_pending (pending names bufs o) t rows.
Proof.
  revert o. induction names as [|t0 names IH]; intros o Hnot; [done|].
  rewrite !pending_cons. apply not_elem_of_cons in Hnot as [Hne Hnot].
  rewrite <- IH by done. f_equal. by apply exec_pending_comm.
Qed.

Lemma pending_append names bufs o t r :
  NoDup names → t ∈ names →
  pending names (<[t := (bufs !!! t) ++ [r]]> bufs) o
  = exec_pending (pending names bufs o) t [r].
Proof.
  revert o. induction names as [|t0 names IH]; intros o Hnd Hin.
  { by apply elem_of_nil in Hin. }
  apply NoDup_cons in Hnd as [Hnot Hnd]. rewrite !pending_cons.
  destruct (decide (t0 = t)) as [->|Hne].
  - rewrite lookup_total_insert_eq, exec_pending_app.
    rewrite <- pending_exec_notin by done.
    apply pending_ext. intros t' Ht'. rewrite lookup_total_insert_ne; [done|].
    intros ->. done.
  - rewrite lookup_total_insert_ne by done. apply IH; [done|].
    apply elem_of_cons in Hin as [->|]; done.
Qed.

Lemma pending_fails names bufs s t :
  t ∈ names →
  exec_pending (Some s) t (bufs !!! t) = None →
  pending names bufs (Some s) = None.
Proof.
  revert s. induction names as [|t0 names IH]; intros s Hin Hfail.
  { by apply elem_of_nil in Hin. }
  rewrite pending_cons. destruct (decide (t0 = t)) as [->|Hne].
  - rewrite Hfail. apply pending_None.
  - apply elem_of_cons in Hin as [->|Hin]; [done|].
    destruct (exec_pending (Some s) t0 (bufs !!! t0)) as [s1|] eqn:E1;
      [|apply pending_None].
    apply IH; [done|]. rewrite <- E1, exec_pending_comm, Hfail by done.
    apply exec_pending_None.
Qed.

End BufferedSessionFacts.

Section WriterFacts.

Implicit Types (sess : BufferedSession) (s txn : Store) (o : option Store).
Implicit Types (t : string) (rows new : list Row).

Lemma same_setup_wf sess sess' :
  same_setup sess sess' → session_wf sess → session_wf sess'.
Proof. intros (Hc & Hi & _). unfold session_wf. by rewrite Hc, Hi. Qed.

Lemma flush_table_ok t sess sess' :
  flush_table t sess = (sess', Ok ()) →
  same_setup sess sess' ∧
  Some (session sess') = exec_pending (Some (session sess)) t (buffered_rows sess !!! t) ∧
  ∀ t', buffered_rows sess' !!! t'
        = if decide (t' = t) then [] else buffered_rows sess !!! t'.
Proof.
  unfold flush_table.
  destruct (buffered_rows sess !!! t) as [|r rows] eqn:E.
  - intros [= <-]. split_and!; try done. intros t'. by case_decide; subst.
  - destruct (execute_insert (session sess) t (r :: rows)) as [txn|e] eqn:Ex; [|done].
    intros [= <-]. simpl. rewrite Ex. split_and!; try done. intros t'. case_decide; subst.
    + by rewrite lookup_total_insert_eq.
    + by rewrite lookup_total_insert_ne.
Qed.

Lemma flush_table_raise t sess sess' e :
  flush_table t sess = (sess', Raise e) →
  sess' = sess ∧
  exec_pending (Some (session sess)) t (buffered_rows sess !!! t) = None.
Proof.
  unfold flush_table.
  destruct (buffered_rows sess !!! t) as [|r rows] eqn:E; [done|].
  destruct (execute_insert (session sess) t (r :: rows)) as [txn|e'] eqn:Ex; [done|].
  intros [= <- _]. simpl. by rewrite Ex.
Qed.

Lemma flush_tables_ok names sess sess' :
  NoDup names →
  flush_tables names sess = (sess', Ok ()) →
  same_setup sess sess' ∧
  Some (session sess') = pending names (buffered_rows sess) (Some (session sess)) ∧
  ∀ t', buffered_rows sess' !!! t'
        = if decide (t' ∈ names) then [] else buffered_rows sess !!! t'.
Proof.
  revert sess. induction names as [|t names IH]; intros sess Hnd; simpl.
  - intros [= <-]. done.
  - apply NoDup_cons in Hnd as [Hnot Hnd].
    destruct (flush_table t sess) as [sess1 [[]|e]] eqn:E1; [|done].
    apply flush_table_ok in E1 as ((Hc1 & Hi1 & Hm1) & Hs1 & Hb1).
    intros H. apply IH in H as ((Hc & Hi & Hm) & Hs & Hb); [|done].
    split; [unfold same_setup; by rewrite Hc, Hi, Hm|]. split.
    + rewrite Hs, ?pending_cons, <- Hs1. apply pending_ext.
      intros t' Ht'. rewrite Hb1. case_decide; [by subst|done].
    + intros t'. rewrite Hb, Hb1.
      destruct (decide (t' = t)) as [->|Hne].
      * rewrite (decide_True (P := t ∈ t :: names)) by left.
        by destruct (decide (t ∈ names)).
      * destruct (decide (t' ∈ names)).
        -- by rewrite decide_True by (by right).
        -- by rewrite decide_False by (by intros [?|?]%elem_of_cons).
Qed.

Lemma flush_tables_raise names sess sess' e :
  NoDup names →
  flush_tables names sess = (sess', Raise e) →
  same_setup sess sess' ∧
  pending names (buffered_rows sess) (Some (session sess)) = None ∧
  ∃ t, t ∈ names ∧
       exec_pending (Some (session sess')) t (buffered_rows sess' !!! t) = None.
Proof.
  revert sess. induction names as [|t names IH]; intros sess Hnd; simpl; [done|].
  apply NoDup_cons in Hnd as [Hnot Hnd].
  destruct (flush_table t sess) as [sess1 [[]|e1]] eqn:E1.
  - apply flush_table_ok in E1 as ((Hc1 & Hi1 & Hm1) & Hs1 & Hb1).
    intros H. apply IH in H as ((Hc & Hi & Hm) & Hs & (t' & Ht' & Hf)); [|done].
    split; [unfold same_setup; by rewrite Hc, Hi, Hm|]. split.
    + rewrite ?pending_cons, <- Hs1, <- Hs. apply pending_ext.
      intros t2 Ht2. rewrite Hb1. case_decide; [by subst|done].
    + exists t'. split; [by right|done].
  - intros [= <- <-]. apply flush_table_raise in E1 as [-> Hf].
    split; [done|]. split.
    + rewrite ?pending_cons, Hf. apply pending_None.
    + exists t. split; [by left|done].
Qed.

Lemma pending_empty names bufs o :
  (∀ t, t ∈ names → bufs !!! t = []) → pending names bufs o = o.
Proof.
  revert o. induction names as [|t names IH]; intros o H; [done|].
  rewrite pending_cons, (H t) by left. apply IH. intros; apply H. by right.
Qed.

Lemma commit_pending sess :
  session_wf sess →
  succ (commit sess)
  = pending (insert_statements sess) (buffered_rows sess) (Some (session sess)).
Proof.
  intros [Hnd _]. unfold commit, flush.
  destruct (flush_tables (insert_statements sess) sess) as [sess' [[]|e]] eqn:E.
  - apply flush_tables_ok in E as (_ & <- & _); done.
  - apply flush_tables_raise in E as (_ & -> & _); done.
Qed.

Lemma flush_ok_commit sess sess' :
  session_wf sess →
  flush sess = (sess', Ok ()) →
  same_setup sess sess' ∧ succ (commit sess') = succ (commit sess).
Proof.
  intros Hwf E. pose proof Hwf as [Hnd _]. unfold flush in E.
  pose proof E as E0.
  apply flush_tables_ok in E as (Hsetup & Hs & Hb); [|done]. split; [done|].
  rewrite !commit_pending by eauto using same_setup_wf.
  rewrite <- Hs. destruct Hsetup as (_ & -> & _).
  rewrite pending_empty; [done|]. intros t Ht. rewrite Hb. by case_decide.
Qed.

Lemma flush_raise_commit sess sess' e :
  session_wf sess →
  flush sess = (sess', Raise e) →
  same_setup sess sess' ∧ succ (commit sess') = None ∧ succ (commit sess) = None.
Proof.
  intros Hwf E. pose proof Hwf as [Hnd _]. unfold flush in E.
  apply flush_tables_raise in E as (Hsetup & Hs & (t & Ht & Hf)); [|done].
  split; [done|].
  rewrite !commit_pending by eauto using same_setup_wf. split; [|done].
  destruct Hsetup as (_ & -> & _). by eapply pending_fails.
Qed.

Lemma buffer_row_spec sess t r sess' :
  session_wf sess →
  buffer_row sess t r = Ok sess' →
  ∃ defaults, columns sess !! t = Some defaults ∧
    same_setup sess sess' ∧
    succ (commit sess') = exec_pending (succ (commit sess)) t [r ∪ defaults].
Proof.
  intros Hwf. unfold buffer_row.
  destruct (columns sess !! t) as [d|] eqn:Ed; [|done]. intros [= <-].
  exists d. split; [done|]. split; [done|].
  rewrite !commit_pending; [|done|by eapply same_setup_wf]. simpl.
  destruct Hwf as [Hnd Hin]. apply pending_append; [done|]. apply Hin. by rewrite Ed.
Qed.

Lemma write_single_row_spec sess t r sess' res :
  session_wf sess →
  write_single_row sess t r = (sess', res) →
  same_setup sess sess' ∧
  match columns sess !! t with
  | None => sess' = sess ∧ res = Raise KeyError
  | Some defaults =>
      succ (commit sess') = exec_pending (succ (commit sess)) t [r ∪ defaults] ∧
      (is_ok res = false → succ (commit sess') = None)
  end.
Proof.
  intros Hwf. unfold write_single_row.
  destruct (buffer_row sess t r) as [sess1|e] eqn:E.
  - apply buffer_row_spec in E as (d & Hd & Hsetup & Hc); [|done]. rewrite Hd.
    pose proof (same_setup_wf _ _ Hsetup Hwf) as Hwf1.
    case_bool_decide.
    + destruct res as [[]|e]; intros Hf.
      * apply flush_ok_commit in Hf as (Hs2 & Hc2); [|done]. split.
        { destruct Hsetup as (?&?&?), Hs2 as (?&?&?). unfold same_setup. split_and!; congruence. }
        split; [congruence|done].
      * apply flush_raise_commit in Hf as (Hs2 & Hc2 & Hc1); [|done]. split.
        { destruct Hsetup as (?&?&?), Hs2 as (?&?&?). unfold same_setup. split_and!; congruence. }
        split; [congruence|done].
    + intros [= <- <-]. split; [done|]. split; [done|]. done.
  - unfold buffer_row in E. destruct (columns sess !! t); [done|].
    injection E as <-. intros [= <- <-]. done.
Qed.

Lemma unbuffered_None cols ws : unbuffered cols ws None = None.
Proof.
  induction ws as [|[t r] ws IH]; [done|]. simpl.
  by destruct (cols !! t).
Qed.

Lemma write_rows_spec sess ws sess' res :
  session_wf sess →
  write_rows sess ws = (sess', res) →
  same_setup sess sess' ∧
  succ (commit sess') = unbuffered (columns sess) ws (succ (commit sess)) ∧
  (is_ok res = true → Forall (λ w, is_Some (columns sess !! w.1)) ws).
Proof.
  revert sess. induction ws as [|[t r] ws IH]; intros sess Hwf;
    cbn [write_rows unbuffered].
  - intros [= <- <-]. done.
  - destruct (write_single_row sess t r) as [sess1 res1] eqn:E1.
    apply write_single_row_spec in E1 as (Hsetup & H1); [|done].
    pose proof (same_setup_wf _ _ Hsetup Hwf) as Hwf1.
    destruct (columns sess !! t) as [d|] eqn:Ed.
    + destruct H1 as [Hc Hfail]. destruct res1 as [[]|e].
      * intros H. apply IH in H as (Hs2 & Hc2 & Hok); [|done].
        destruct Hsetup as (Hcol&?&?), Hs2 as (?&?&?).
        split; [unfold same_setup; split_and!; congruence|].
        rewrite Hcol in Hc2, Hok. split; [by rewrite Hc2, Hc|].
        intros Hr. constructor; [by simpl; rewrite Ed|by apply Hok].
      * intros [= <- <-]. split; [done|]. split; [|done].
        rewrite <- Hc, Hfail by done. by rewrite unbuffered_None.
    + destruct H1 as [-> ->]. intros [= <- <-]. done.
Qed.

End WriterFacts.

Section WithBlockFacts.

Implicit Types (sess : BufferedSession) (s db : Store) (o : option Store).
Implicit Types (t : string) (ws : list (string * Row)).

Lemma write_rows_app sess ws1 ws2 :
  write_rows sess (ws1 ++ ws2)
  = match write_rows sess ws1 with
    | (sess1, Ok _) => write_rows sess1 ws2
    | (sess1, Raise e) => (sess1, Raise e)
    end.
Proof.
  revert sess. induction ws1 as [|[t r] ws1 IH]; intros sess; simpl; [done|].
  destruct (write_single_row sess t r) as [sess1 [[]|e]]; [apply IH|done].
Qed.

Lemma columns_of_snoc metadata tm :
  columns_of (metadata ++ [tm]) = <[tm.1 := none_row tm.2]> (columns_of metadata).
Proof. unfold columns_of. by rewrite foldl_app. Qed.

Lemma columns_of_Some metadata t :
  is_Some (columns_of metadata !! t) → t ∈ metadata.*1.
Proof.
  induction metadata as [|tm metadata IH] using rev_ind.
  { unfold columns_of; simpl. rewrite lookup_empty. by intros [? ?]. }
  rewrite columns_of_snoc, fmap_app, elem_of_app. simpl.
  destruct (decide (tm.1 = t)) as [<-|Hne].
  - intros _. right. by left.
  - rewrite lookup_insert_ne by done. intros H. left. by apply IH.
Qed.

Lemma BufferedSession_init_spec db metadata m sess :
  BufferedSession_init db metadata m = Ok sess →
  session_wf sess ∧ columns sess = columns_of metadata ∧
  max_buffer_size sess = m ∧ succ (commit sess) = Some db.
Proof.
  unfold BufferedSession_init. destruct metadata as [|tm metadata]; [done|].
  intros [= <-].
  assert (session_wf
    {| buffered_rows := ∅; columns := columns_of (tm :: metadata);
       insert_statements := remove_dups ((tm :: metadata).*1);
       max_buffer_size := m; session := db |}) as Hwf.
  { split; cbn [insert_statements columns]; [apply NoDup_remove_dups|].
    intros t Ht. apply elem_of_remove_dups. by apply columns_of_Some. }
  split; [done|]. split; [done|]. split; [done|].
  rewrite commit_pending by done. cbn [insert_statements buffered_rows session].
  apply pending_empty. intros t _. by rewrite lookup_total_empty.
Qed.

(** The database that a [with] block leaves is the one that the rows it
    wrote give without any buffering, and the database it started from
    when an insert fails. *)
Lemma with_BufferedSession_writes {A} db metadata m (body : SessM A) ws_all db' res :
  writes_prefix_of body ws_all →
  with_BufferedSession db metadata m body = (db', res) →
  ∃ ws, ws `prefix_of` ws_all ∧
    db' = default db (unbuffered (columns_of metadata) ws (Some db)) ∧
    (is_ok res = true →
       ws = ws_all ∧ Forall (λ w, is_Some (columns_of metadata !! w.1)) ws ∧
       unbuffered (columns_of metadata) ws (Some db) = Some db').
Proof.
  intros Hbody. unfold with_BufferedSession.
  destruct (BufferedSession_init db metadata m) as [sess|e] eqn:Einit.
  - apply BufferedSession_init_spec in Einit as (Hwf & Hcols & _ & Hc0).
    destruct (body sess) as [sess' r] eqn:Eb.
    apply Hbody in Eb as (ws & res' & Hw & Hpre & Hok).
    apply write_rows_spec in Hw as (Hsetup & Hc & Hdecl); [|done].
    rewrite Hc0, Hcols in Hc. rewrite Hcols in Hdecl.
    unfold BufferedSession_close.
    destruct (commit sess') as [db1|e] eqn:Ec; simpl in Hc.
    + intros [= <- <-]. exists ws. split; [done|]. rewrite <- Hc. split; [done|].
      intros Hr. destruct (Hok Hr) as [-> Hres]. auto.
    + intros [= <- <-]. exists ws. split; [done|]. rewrite <- Hc. done.
  - intros [= <- <-]. exists []. split; [apply prefix_nil|]. done.
Qed.

Lemma extend_table_nil (tbl : Table) : extend_table [] tbl = tbl.
Proof. by destruct tbl. Qed.

Lemma extend_table_extend (a b : list Row) (tbl : Table) :
  extend_table b (extend_table a tbl) = extend_table (a ++ b) tbl.
Proof. unfold extend_table. cbn [tcolumns tprimary_key ton_conflict trows]. by rewrite store_rows_app. Qed.

Lemma exec_pending_one s t r s' :
  exec_pending (Some s) t [r] = Some s' →
  ∃ tbl, s !! t = Some tbl ∧
    insert_row (tprimary_key tbl) (ton_conflict tbl) (trows tbl) r
      = Ok (store_row (tprimary_key tbl) (trows tbl) r) ∧
    s' = <[t := extend_table [r] tbl]> s.
Proof.
  unfold exec_pending, execute_insert; simpl.
  destruct (s !! t) as [tbl|]; [|done]. simpl.
  destruct (insert_row (tprimary_key tbl) (ton_conflict tbl) (trows tbl) r)
    as [rows|] eqn:E; [|done].
  simpl. intros [= <-]. pose proof (insert_row_ok _ _ _ _ _ E) as ->. eauto.
Qed.

(** Without buffering, a table ends with the rows it had and the rows
    written to it, stored in their order. *)
Lemma unbuffered_rows cols ws s s' t :
  unbuffered cols ws (Some s) = Some s' →
  s' !! t = extend_table (rows_written cols t ws) <$> s !! t.
Proof.
  revert s. induction ws as [|[t0 r] ws IH]; intros s; cbn [unbuffered rows_written].
  - intros [= <-]. destruct (s !! t) as [tbl|]; simpl; [|done].
    by rewrite extend_table_nil.
  - destruct (cols !! t0) as [d|].
    + destruct (exec_pending (Some s) t0 [r ∪ d]) as [s1|] eqn:E1;
        [|by rewrite unbuffered_None].
      apply exec_pending_one in E1 as (tbl & Ht & _ & ->).
      intros H. rewrite (IH _ H). case_bool_decide as Heq.
      * subst t0. rewrite lookup_insert_eq, Ht. simpl.
        by rewrite extend_table_extend.
      * by rewrite lookup_insert_ne.
    + intros [= <-]. destruct (s !! t) as [tbl|]; simpl; [|done].
      by rewrite extend_table_nil.
Qed.

(** Every row that went in was accepted by the table as it stood. *)
Lemma unbuffered_accepted cols ws s s' t tbl :
  unbuffered cols ws (Some s) = Some s' →
  s !! t = Some tbl →
  insert_rows (tprimary_key tbl) (ton_conflict tbl) (trows tbl) (rows_written cols t ws)
  = Ok (store_rows (tprimary_key tbl) (trows tbl) (rows_written cols t ws)).
Proof.
  revert s tbl. induction ws as [|[t0 r0] ws IH]; intros s tbl;
    cbn [unbuffered rows_written]; [done|].
  destruct (cols !! t0) as [d|]; [|done].
  destruct (exec_pending (Some s) t0 [r0 ∪ d]) as [s1|] eqn:E1;
    [|by rewrite unbuffered_None].
  apply exec_pending_one in E1 as (tbl0 & Ht0 & Hins & ->).
  intros H Ht. case_bool_decide as Heq.
  - subst t0. rewrite Ht in Ht0. injection Ht0 as <-.
    cbn [insert_rows store_rows foldl]. rewrite Hins. cbn [mbind Result_bind].
    eapply (IH _ (extend_table [r0 ∪ d] tbl)) in H; [|by rewrite lookup_insert_eq].
    exact H.
  - eapply IH in H; [done|]. by rewrite lookup_insert_ne.
Qed.

End WithBlockFacts.

Section ReconciliationFacts.

Variables SObject Field FileMetadata : Model.
Variable parsedate : string → option (list Z).

Implicit Types (sess : BufferedSession) (s db : Store) (m : Sortable).
Implicit Types (full : list (Row * string)).

Lemma populate_fields_writes sobj_data last_modified fields m name :
  sobj_data !! "name" = Some name →
  loop_writes (populate_fields Field parsedate sobj_data last_modified fields m)
    (field_writes Field name fields)
    (foldl (λ m _, sortable_max (parsedate last_modified, last_modified) m) m fields).
Proof.
  intros Hname. revert m.
  induction fields as [|field fields IH]; intros m sess sess' r;
    cbn [populate_fields field_writes foldl].
  - intros [= <- <-]. exists [], (Ok ()). split; [done|]. split; [done|].
    by intros m' [= <-].
  - rewrite Hname.
    destruct field as [| | | | |d];
      try (intros [= <- <-]; exists [], (Ok ()); split; [done|];
           split; [apply prefix_nil|done]).
    unfold sess_bind, create_row.
    set (row := <["sobject" := name]> (dict_of_items d)).
    destruct (write_single_row sess (__tablename__ Field) row)
      as [sess1 [[]|e]] eqn:E1.
    + unfold sortable_max at 2.
      destruct (sortable_gt (parsedate last_modified, last_modified) m)
        as [gt|e] eqn:Egt.
      * intros H. apply IH in H as (ws & res & Hw & Hpre & Hok).
        exists ((__tablename__ Field, row) :: ws), res. split.
        { cbn [write_rows]. by rewrite E1. }
        split; [by apply prefix_cons|].
        intros m' Hm'. destruct (Hok m' Hm') as (-> & ? & ->).
        split; [done|]. split; [done|]. by destruct gt.
      * intros [= <- <-]. exists [(__tablename__ Field, row)], (Ok ()). split.
        { cbn [write_rows]. by rewrite E1. }
        split; [|done]. by apply prefix_cons, prefix_nil.
    + intros [= <- <-]. exists [(__tablename__ Field, row)], (Raise e). split.
      { cbn [write_rows]. by rewrite E1. }
      split; [|done]. by apply prefix_cons, prefix_nil.
Qed.

Lemma populate_fields_strings sobj_data last_modified (items : list value) m sess :
  Forall (λ v, ∃ str, v = VStr str) items →
  populate_fields Field parsedate sobj_data last_modified items m sess
  = match items with
    | [] => (sess, Ok m)
    | _ :: _ =>
        (sess, Raise (match sobj_data !! "name" with
                      | None => KeyError
                      | Some _ => TypeError
                      end))
    end.
Proof.
  intros Hitems. destruct Hitems as [|v rest [str ->] _]; [done|]. cbn [populate_fields].
  by destruct (sobj_data !! "name").
Qed.

Lemma populate_sobject_writes entry m :
  loop_writes (populate_sobject SObject Field parsedate entry m)
    (entity_writes SObject Field entry) (max_after_entity parsedate m entry).
Proof.
  destruct entry as [sobj_data last_modified]. intros sess sess' r.
  unfold populate_sobject, entity_writes, max_after_entity. cbn [fst snd].
  destruct (sobj_data !! "fields") as [fields|] eqn:Ef.
  2:{ intros [= <- <-]. exists [], (Ok ()). split; [done|].
      split; [apply prefix_nil|done]. }
  unfold sess_bind, create_row. fold (sobject_values sobj_data).
  destruct (write_single_row sess (__tablename__ SObject) (sobject_values sobj_data))
    as [sess1 [[]|e]] eqn:E1.
  2:{ intros [= <- <-].
      exists [(__tablename__ SObject, sobject_values sobj_data)], (Raise e). split.
      { cbn [write_rows]. by rewrite E1. }
      split; [|done]. by apply prefix_cons, prefix_nil. }
  assert (write_rows sess [(__tablename__ SObject, sobject_values sobj_data)]
          = (sess1, Ok ())) as Hone by (cbn [write_rows]; by rewrite E1).
  assert (sobject_values sobj_data !! "name" = sobj_data !! "name") as Hname.
  { unfold sobject_values. by rewrite lookup_insert_ne, lookup_delete_ne. }
  (* a value that is iterated without being a list yields strings *)
  assert (∀ items, Forall (λ v, ∃ str, v = VStr str) items →
            populate_fields Field parsedate (sobject_values sobj_data) last_modified
              items m sess1 = (sess', r) →
            ∃ ws res,
              write_rows sess ws = (sess', res) ∧
              ws `prefix_of` [(__tablename__ SObject, sobject_values sobj_data)] ∧
              (∀ m', r = Ok m' →
                 ws = [(__tablename__ SObject, sobject_values sobj_data)] ∧
                 is_ok res = true ∧ m' = m)) as Hstrings.
  { intros items Hitems. rewrite populate_fields_strings by done.
    destruct items; intros [= <- <-];
      exists [(__tablename__ SObject, sobject_values sobj_data)], (Ok ());
      (split; [done|]); (split; [done|]); [by intros m' [= <-]|done]. }
  destruct fields as [| | |str|fs|d]; cbn [iter_items].
  1-3: intros [= <- <-];
       exists [(__tablename__ SObject, sobject_values sobj_data)], (Ok ());
       (split; [done|]); (split; [done|]); done.
  - apply Hstrings. apply Forall_fmap, Forall_forall. intros c _. simpl. eauto.
  - destruct (sobj_data !! "name") as [name|] eqn:En.
    + intros H.
      eapply (populate_fields_writes _ _ _ _ name) in H as (ws & res & Hw & Hpre & Hok);
        [|by rewrite Hname].
      exists ((__tablename__ SObject, sobject_values sobj_data) :: ws), res. split.
      { cbn [write_rows]. by rewrite E1. }
      split; [by apply prefix_cons|].
      intros m' Hm'. destruct (Hok m' Hm') as (-> & ? & ->). done.
    + destruct fs as [|f fs]; cbn [populate_fields foldl].
      * intros [= <- <-].
        exists [(__tablename__ SObject, sobject_values sobj_data)], (Ok ()).
        split; [done|]. split; [done|]. by intros m' [= <-].
      * rewrite Hname, ?En. intros [= <- <-].
        exists [(__tablename__ SObject, sobject_values sobj_data)], (Ok ()).
        split; [done|]. split; [done|]. done.
  - apply Hstrings. apply Forall_fmap, Forall_forall. intros kv _. simpl. eauto.
Qed.

Lemma populate_sobjects_writes full m :
  loop_writes (populate_sobjects SObject Field parsedate full m)
    (concat (entity_writes SObject Field <$> full)) (foldl (max_after_entity parsedate) m full).
Proof.
  revert m. induction full as [|entry full IH]; intros m sess sess' r;
    cbn [populate_sobjects fmap list_fmap concat foldl].
  - intros [= <- <-]. exists [], (Ok ()). split; [done|]. split; [done|].
    by intros m' [= <-].
  - unfold sess_bind.
    destruct (populate_sobject SObject Field parsedate entry m sess)
      as [sess1 r1] eqn:E1.
    apply populate_sobject_writes in E1 as (ws1 & res1 & Hw1 & Hpre1 & Hok1).
    destruct r1 as [m1|e].
    + destruct (Hok1 m1 eq_refl) as (-> & Hres1 & ->).
      intros H. apply IH in H as (ws & res & Hw & Hpre & Hok).
      exists (entity_writes SObject Field entry ++ ws), res. split.
      { rewrite write_rows_app, Hw1. by destruct res1 as [[]|]. }
      split; [by apply prefix_app|].
      intros m' Hm'. destruct (Hok m' Hm') as (-> & ? & ->). done.
    + intros [= <- <-]. exists ws1, res1. split; [done|].
      split; [|done]. by apply prefix_app_r.
Qed.

Lemma populate_rows_writes full last_modified_date :
  writes_prefix_of
    (populate_rows SObject Field FileMetadata parsedate full last_modified_date)
    (populate_writes SObject Field FileMetadata parsedate full last_modified_date).
Proof.
  intros sess sess' r. unfold populate_rows, populate_writes, sess_bind.
  destruct (populate_sobjects SObject Field parsedate full
              (parsedate last_modified_date, last_modified_date) sess)
    as [sess1 r1] eqn:E1.
  apply populate_sobjects_writes in E1 as (ws1 & res1 & Hw1 & Hpre1 & Hok1).
  destruct r1 as [m1|e].
  2:{ intros [= <- <-]. exists ws1, res1. split; [done|].
      split; [|done]. by apply prefix_app_r. }
  destruct (Hok1 m1 eq_refl) as (-> & Hres1 & ->). fold (watermark parsedate full last_modified_date).
  fold (Last_Modified_row (watermark parsedate full last_modified_date).2). fold FormatVersion_row.
  unfold create_row.
  set (lm := Last_Modified_row (watermark parsedate full last_modified_date).2).
  destruct (write_single_row sess1 (__tablename__ FileMetadata) lm)
    as [sess2 [[]|e]] eqn:E2.
  - destruct (write_single_row sess2 (__tablename__ FileMetadata) FormatVersion_row)
      as [sess3 r3] eqn:E3.
    intros [= <- <-].
    exists (concat (entity_writes SObject Field <$> full) ++
              [(__tablename__ FileMetadata, lm);
               (__tablename__ FileMetadata, FormatVersion_row)]), r3. split.
    { rewrite write_rows_app, Hw1. destruct res1 as [[]|]; [|done].
      cbn [write_rows]. rewrite E2, E3. by destruct r3 as [[]|]. }
    split; [done|]. intros Hr. by destruct r3.
  - intros [= <- <-].
    exists (concat (entity_writes SObject Field <$> full) ++ [(__tablename__ FileMetadata, lm)]),
      (Raise e). split.
    { rewrite write_rows_app, Hw1. destruct res1 as [[]|]; [|done].
      cbn [write_rows]. by rewrite E2. }
    split; [|done]. apply prefix_app, prefix_cons, prefix_nil.
Qed.

End ReconciliationFacts.

Section WriteAllFacts.

Implicit Types (sess : BufferedSession) (s db : Store) (o : option Store).
Implicit Types (t : string) (ws : list (string * Row)).

Lemma write_rows_raise sess ws sess' e :
  session_wf sess →
  write_rows sess ws = (sess', Raise e) →
  succ (commit sess') = None ∨ ¬ Forall (λ w, is_Some (columns sess !! w.1)) ws.
Proof.
  revert sess. induction ws as [|[t r] ws IH]; intros sess Hwf; cbn [write_rows];
    [done|].
  destruct (write_single_row sess t r) as [sess1 res1] eqn:E1.
  apply write_single_row_spec in E1 as (Hsetup & H1); [|done].
  pose proof (same_setup_wf _ _ Hsetup Hwf) as Hwf1.
  destruct (columns sess !! t) as [d|] eqn:Ed.
  - destruct H1 as [Hc Hfail]. destruct res1 as [[]|e1].
    + intros H. apply IH in H as [H|H]; [by left|right|done].
      destruct Hsetup as (Hcol & _). rewrite Hcol in H.
      intros Hall. apply H. by inversion Hall.
    + intros [= <- <-]. left. by apply Hfail.
  - intros _. right. intros Hall. inversion Hall as [|? ? Hd]; subst.
    simpl in Hd. rewrite Ed in Hd. by destruct Hd.
Qed.

Lemma rows_written_filter cols t ws :
  Forall (λ w, is_Some (cols !! w.1)) ws →
  rows_written cols t ws = (λ w, w.2 ∪ (cols !!! t)) <$> filter (λ w, w.1 = t) ws.
Proof.
  induction 1 as [|[t0 r] ws [d Hd] _ IH]; [done|]. simpl in Hd.
  cbn [rows_written]. rewrite Hd, filter_cons. simpl.
  case_bool_decide as Heq.
  - subst t0. rewrite decide_True by done. rewrite fmap_cons, IH. simpl.
    by rewrite lookup_total_alt, Hd.
  - by rewrite decide_False.
Qed.

Lemma columns_of_nil_unbuffered ws db : unbuffered (columns_of []) ws (Some db) = Some db.
Proof. destruct ws as [|[t r] ws]; [done|]. cbn [unbuffered]. unfold columns_of; simpl. by rewrite lookup_empty. Qed.

Lemma write_all_spec db metadata m ws :
  (write_all db metadata m ws).1
    = default db (unbuffered (columns_of metadata) ws (Some db)) ∧
  (is_ok (write_all db metadata m ws).2 = true ↔
     metadata ≠ [] ∧ Forall (λ w, is_Some (columns_of metadata !! w.1)) ws ∧
     is_Some (unbuffered (columns_of metadata) ws (Some db))).
Proof.
  unfold write_all, with_BufferedSession.
  destruct (BufferedSession_init db metadata m) as [sess|e] eqn:Einit.
  - assert (metadata ≠ []) as Hne by (intros ->; done).
    apply BufferedSession_init_spec in Einit as (Hwf & Hcols & _ & Hc0).
    destruct (write_rows sess ws) as [sess' r] eqn:Ew.
    pose proof Ew as Ew'.
    apply write_rows_spec in Ew as (Hsetup & Hc & Hdecl); [|done].
    rewrite Hc0, Hcols in Hc. rewrite Hcols in Hdecl.
    unfold BufferedSession_close.
    destruct (commit sess') as [db1|e] eqn:Ec; simpl in Hc; rewrite <- Hc; simpl.
    + split; [done|]. split.
      * intros Hr. split; [done|]. split; [by apply Hdecl|done].
      * intros (_ & Hall & _). destruct r as [[]|e]; [done|].
        apply write_rows_raise in Ew' as [H|H]; [|by rewrite Hcols in H|done].
        by rewrite Ec in H.
    + split; [done|]. split; [done|]. by intros (_ & _ & [? ?]).
  - unfold BufferedSession_init in Einit. destruct metadata; [|done].
    simpl. rewrite columns_of_nil_unbuffered. split; [done|].
    split; [done|]. by intros [? _].
Qed.

End WriteAllFacts.


(** ** Normalised rows *)

Lemma none_row_cons (c0 : string) (colnames : list string) :
  none_row (c0 :: colnames) = <[c0 := VNone]> (none_row colnames).
Proof. done. Qed.

Lemma none_row_lookup (colnames : list string) (c : string) :
  none_row colnames !! c = if decide (c ∈ colnames) then Some VNone else None.
Proof.
  induction colnames as [|c0 colnames IH].
  - by rewrite decide_False by apply not_elem_of_nil.
  - rewrite none_row_cons. destruct (decide (c0 = c)) as [->|Hne].
    + rewrite lookup_insert_eq. by rewrite decide_True by left.
    + rewrite lookup_insert_ne, IH by done.
      destruct (decide (c ∈ colnames)).
      * by rewrite decide_True by (by right).
      * by rewrite decide_False by (by intros [?|?]%elem_of_cons).
Qed.

Lemma columns_of_lookup (metadata : MetaData) (t : string) (colnames : list string) :
  NoDup metadata.*1 → (t, colnames) ∈ metadata →
  columns_of metadata !! t = Some (none_row colnames).
Proof.
  induction metadata as [|tm metadata IH] using rev_ind.
  { intros _ H. by apply elem_of_nil in H. }
  rewrite fmap_app, columns_of_snoc.
  intros [Hnd [Hnot _]]%NoDup_app [Hin|Hin]%elem_of_app.
  - rewrite lookup_insert_ne; [by apply IH|].
    intros <-. apply (Hnot tm.1); [|by left].
    apply list_elem_of_fmap. by exists (tm.1, colnames).
  - apply list_elem_of_singleton in Hin as <-. simpl. by rewrite lookup_insert_eq.
Qed.

(** C8.  The row that [write_single_row] puts into the buffer of a
    declared table has a value for every declared column: the value given
    where the input has one, and [None] where it has none.  The call then
    returns, or flushes when the buffer has grown past the threshold. *)
Theorem write_single_row_fills_columns
    (sess : BufferedSession) (metadata : MetaData) (t : string)
    (colnames : list string) (row : Row) :
  columns sess = columns_of metadata →
  NoDup metadata.*1 →
  (t, colnames) ∈ metadata →
  ∃ sess1 row',
    buffer_row sess t row = Ok sess1 ∧
    buffered_rows sess1 !!! t = buffered_rows sess !!! t ++ [row'] ∧
    write_single_row sess t row
      = (if bool_decide (Z.of_nat (length (buffered_rows sess1 !!! t))
                           > max_buffer_size sess)%Z
         then flush sess1 else (sess1, Ok ())) ∧
    (∀ c, c ∈ colnames → is_Some (row' !! c)) ∧
    (∀ c v, row !! c = Some v → row' !! c = Some v) ∧
    (∀ c, c ∈ colnames → row !! c = None → row' !! c = Some VNone).
Proof.
  intros Hcols Hnd Hin.
  pose proof (columns_of_lookup _ _ _ Hnd Hin) as Hd. rewrite <- Hcols in Hd.
  unfold write_single_row, buffer_row. rewrite Hd.
  eexists _, (row ∪ none_row colnames). split; [done|]. simpl.
  split; [by rewrite lookup_total_insert_eq|]. split; [done|].
  assert (∀ c, c ∈ colnames → none_row colnames !! c = Some VNone) as Hnone.
  { intros c Hc. by rewrite none_row_lookup, decide_True. }
  split_and!.
  - intros c Hc. destruct (row !! c) as [v|] eqn:E.
    + exists v. by apply lookup_union_Some_l.
    + exists VNone. rewrite lookup_union_r by done. by apply Hnone.
  - intros c v Hv. by apply lookup_union_Some_l.
  - intros c Hc Hv. rewrite lookup_union_r by done. by apply Hnone.
Qed.

(** ** Lookup by name *)

Lemma filter_by_name_elem (name : string) (rows : list Row) (r : Row) :
  r ∈ filter_by_name name rows ↔ r ∈ rows ∧ r !! "name" = Some (VStr name).
Proof. unfold filter_by_name. rewrite list_elem_of_filter. tauto. Qed.

Lemma filter_by_name_unique (name : string) (rows : list Row) :
  NoDup ((λ r : Row, r !! "name") <$> rows) →
  filter_by_name name rows = [] ∨ ∃ r, filter_by_name name rows = [r].
Proof.
  unfold filter_by_name. induction rows as [|r rows IH]; simpl; [by left|].
  intros [Hnot Hnd]%NoDup_cons. rewrite filter_cons.
  destruct (decide (r !! "name" = Some (VStr name))) as [Hr|Hr]; [|by apply IH].
  right. exists r. f_equal.
  destruct (filter (λ r0 : Row, r0 !! "name" = Some (VStr name)) rows)
    as [|r' rest] eqn:E; [done|].
  exfalso. apply Hnot.
  assert (r' ∈ filter (λ r0 : Row, r0 !! "name" = Some (VStr name)) rows) as Hin
    by (rewrite E; left).
  apply list_elem_of_filter in Hin as [Hname Hin].
  apply list_elem_of_fmap. exists r'. by rewrite Hr, Hname.
Qed.

Section LookupFacts.

Variables SObject : Model.

(** C10.  Lookup by name returns a record exactly when it is the one
    stored record of that name, and raises [KeyError] exactly when no
    stored record has that name.  In a store whose entity names are unique
    these are the only outcomes: the record of that name is returned when
    there is one, and no other exception is raised. *)
Theorem getitem_found_or_KeyError
    (schema : Schema) (db : Store) (tbl : Table) (name : string) :
  db !! __tablename__ SObject = Some tbl →
  (∀ r, __getitem__ SObject schema db name = Ok r
        ↔ filter_by_name name (trows tbl) = [r]) ∧
  (__getitem__ SObject schema db name = Raise KeyError
     ↔ ∀ r, r ∈ trows tbl → r !! "name" ≠ Some (VStr name)) ∧
  (NoDup ((λ r : Row, r !! "name") <$> trows tbl) →
     (∀ r, __getitem__ SObject schema db name = Ok r
           ↔ r ∈ trows tbl ∧ r !! "name" = Some (VStr name)) ∧
     (∀ e, __getitem__ SObject schema db name = Raise e → e = KeyError)).
Proof.
  intros Htbl. unfold __getitem__, query. rewrite Htbl. simpl.
  pose proof (filter_by_name_elem name (trows tbl)) as Helem.
  assert (filter_by_name name (trows tbl) = []
          ↔ ∀ r, r ∈ trows tbl → r !! "name" ≠ Some (VStr name)) as Hnil.
  { split.
    - intros E r Hr Hname. rewrite E in Helem.
      assert (r ∈ @nil Row) as H by (by apply Helem). by apply elem_of_nil in H.
    - intros H. destruct (filter_by_name name (trows tbl)) as [|r rest]; [done|].
      exfalso. assert (r ∈ r :: rest) as Hin by left.
      apply Helem in Hin as [Hin Hname]. by apply (H r). }
  split_and!.
  - intros r. destruct (filter_by_name name (trows tbl)) as [|r0 [|r1 rest]]; simpl;
      split; congruence.
  - rewrite <- Hnil.
    destruct (filter_by_name name (trows tbl)) as [|r0 [|r1 rest]]; simpl;
      split; congruence.
  - intros Hnd.
    destruct (filter_by_name_unique name (trows tbl) Hnd) as [E|[r0 E]];
      rewrite E in *; simpl.
    + split; [|by intros e [= <-]].
      intros r. split; [done|]. intros H. apply Helem in H. by apply elem_of_nil in H.
    + split; [|done].
      intros r. rewrite <- Helem, list_elem_of_singleton. split; congruence.
Qed.

End LookupFacts.

(** ** Reconciliation *)

Section PopulateFacts.

Variables SObject Field FileMetadata : Model.
Variable parsedate : string → option (list Z).

Implicit Types (db s : Store) (full : list (Row * string)) (t : string).

Lemma Base_metadata_elem (model : Model) :
  model ∈ Base_metadata SObject Field FileMetadata
  ↔ model = SObject ∨ model = Field ∨ model = FileMetadata.
Proof.
  unfold Base_metadata. rewrite !elem_of_cons, elem_of_nil. tauto.
Qed.

Lemma filter_none {A} (P : A → Prop) `{!∀ x, Decision (P x)} (l : list A) :
  Forall (λ x, ¬ P x) l → filter P l = [].
Proof.
  induction 1 as [|x l Hx _ IH]; [done|]. by rewrite filter_cons, decide_False.
Qed.

Lemma filter_all {A} (P : A → Prop) `{!∀ x, Decision (P x)} (l : list A) :
  Forall P l → filter P l = l.
Proof.
  induction 1 as [|x l Hx _ IH]; [done|]. by rewrite filter_cons, decide_True, IH.
Qed.

Lemma columns_of_app_notin (a b : MetaData) t :
  t ∉ b.*1 → columns_of (a ++ b) !! t = columns_of a !! t.
Proof.
  induction b as [|tm b IH] using rev_ind; intros Hnot.
  - by rewrite app_nil_r.
  - rewrite app_assoc, columns_of_snoc. rewrite fmap_app in Hnot.
    apply not_elem_of_app in Hnot as [Hb Htm].
    rewrite lookup_insert_ne; [by apply IH|].
    intros <-. apply Htm. by left.
Qed.

Lemma columns_of_app_Some (a b : MetaData) t :
  is_Some (columns_of a !! t) → is_Some (columns_of (a ++ b) !! t).
Proof.
  intros H. induction b as [|tm b IH] using rev_ind.
  - by rewrite app_nil_r.
  - rewrite app_assoc, columns_of_snoc.
    destruct (decide (tm.1 = t)) as [<-|Hne].
    + rewrite lookup_insert_eq. eauto.
    + by rewrite lookup_insert_ne.
Qed.

(** The three declared tables are known to the writer, whatever the
    database holds. *)
Lemma reflect_declared db (model : Model) :
  model ∈ Base_metadata SObject Field FileMetadata →
  is_Some (columns_of (reflect SObject Field FileMetadata db) !! __tablename__ model).
Proof.
  intros Hin. unfold reflect. apply columns_of_app_Some.
  unfold Base_metadata in *. unfold columns_of. simpl.
  destruct (decide (__tablename__ FileMetadata = __tablename__ model)) as [->|H1].
  { rewrite lookup_insert_eq. eauto. }
  rewrite lookup_insert_ne by done.
  destruct (decide (__tablename__ Field = __tablename__ model)) as [->|H2].
  { rewrite lookup_insert_eq. eauto. }
  rewrite lookup_insert_ne by done.
  destruct (decide (__tablename__ SObject = __tablename__ model)) as [->|H3].
  { rewrite lookup_insert_eq. eauto. }
  exfalso. apply Base_metadata_elem in Hin as [->|[->| ->]]; done.
Qed.

Lemma reflect_extras_notin db (model : Model) :
  model ∈ Base_metadata SObject Field FileMetadata →
  __tablename__ model ∉
    (omap (λ nt : string * Table,
             if bool_decide
                  (nt.1 ∈ ((λ m, (__tablename__ m, model_columns m))
                             <$> Base_metadata SObject Field FileMetadata).*1)
             then None else Some (nt.1, tcolumns nt.2))
          (map_to_list db)).*1.
Proof.
  intros Hin Hel. apply list_elem_of_fmap in Hel as ([t cs] & Ht & Hel).
  apply list_elem_of_omap in Hel as ([t' tbl] & _ & Hsome). simpl in *.
  case_bool_decide as Hdec; [done|]. injection Hsome as <- <-. subst t'.
  apply Hdec. rewrite !elem_of_cons.
  apply Base_metadata_elem in Hin as [->|[->| ->]]; auto.
Qed.

Lemma reflect_columns_SObject db :
  __tablename__ SObject ≠ __tablename__ Field →
  __tablename__ SObject ≠ __tablename__ FileMetadata →
  columns_of (reflect SObject Field FileMetadata db) !! __tablename__ SObject
  = Some (none_row (model_columns SObject)).
Proof.
  intros H1 H2. unfold reflect.
  rewrite columns_of_app_notin.
  2:{ apply reflect_extras_notin, Base_metadata_elem. auto. }
  unfold Base_metadata, columns_of. simpl.
  rewrite !lookup_insert_ne by done. by rewrite lookup_insert_eq.
Qed.

Lemma reflect_columns_FileMetadata db :
  columns_of (reflect SObject Field FileMetadata db) !! __tablename__ FileMetadata
  = Some (none_row (model_columns FileMetadata)).
Proof.
  unfold reflect. rewrite columns_of_app_notin.
  2:{ apply reflect_extras_notin, Base_metadata_elem. auto. }
  unfold Base_metadata, columns_of. simpl. by rewrite lookup_insert_eq.
Qed.

Lemma reflect_columns_Field db :
  __tablename__ Field ≠ __tablename__ FileMetadata →
  columns_of (reflect SObject Field FileMetadata db) !! __tablename__ Field
  = Some (none_row (model_columns Field)).
Proof.
  intros H1. unfold reflect.
  rewrite columns_of_app_notin.
  2:{ apply reflect_extras_notin, Base_metadata_elem. auto. }
  unfold Base_metadata, columns_of. simpl.
  rewrite lookup_insert_ne by done. by rewrite lookup_insert_eq.
Qed.

Lemma field_writes_tables (name : value) (fields : list value) :
  Forall (λ w, w.1 = __tablename__ Field) (field_writes Field name fields).
Proof.
  induction fields as [|[| | | | |d] fields IH]; simpl; try done.
  by constructor.
Qed.

(** Every row of a reconciliation goes to one of the three tables. *)
Lemma entity_writes_tables (entry : Row * string) :
  Forall (λ w, w.1 = __tablename__ SObject ∨ w.1 = __tablename__ Field)
    (entity_writes SObject Field entry).
Proof.
  unfold entity_writes. constructor; [by left|].
  destruct (entry.1 !! "fields") as [[| | | |fs|]|]; try done.
  destruct (entry.1 !! "name") as [name|]; [|done].
  eapply Forall_impl; [apply field_writes_tables|]. by right.
Qed.

Lemma populate_writes_tables full last_modified_date :
  Forall (λ w, ∃ model, model ∈ Base_metadata SObject Field FileMetadata ∧
                        w.1 = __tablename__ model)
    (populate_writes SObject Field FileMetadata parsedate full last_modified_date).
Proof.
  unfold populate_writes. apply Forall_app. split.
  - apply Forall_concat, Forall_fmap, Forall_forall. intros entry _. simpl.
    eapply Forall_impl; [apply entity_writes_tables|].
    intros w [->| ->]; [exists SObject|exists Field];
      (split; [apply Base_metadata_elem; auto|done]).
  - repeat constructor; exists FileMetadata;
      (split; [apply Base_metadata_elem; auto|done]).
Qed.

Lemma populate_writes_declared db full last_modified_date :
  Forall (λ w, is_Some (columns_of (reflect SObject Field FileMetadata db) !! w.1))
    (populate_writes SObject Field FileMetadata parsedate full last_modified_date).
Proof.
  eapply Forall_impl; [apply populate_writes_tables|].
  intros w (model & Hin & ->). by apply reflect_declared.
Qed.


(** The entity rows among the rows of a reconciliation. *)
Lemma populate_writes_SObject full last_modified_date :
  __tablename__ SObject ≠ __tablename__ Field →
  __tablename__ SObject ≠ __tablename__ FileMetadata →
  filter (λ w : string * Row, w.1 = __tablename__ SObject)
    (populate_writes SObject Field FileMetadata parsedate full last_modified_date)
  = (λ entry : Row * string, (__tablename__ SObject, sobject_values entry.1)) <$> full.
Proof.
  intros H1 H2. unfold populate_writes. rewrite filter_app.
  rewrite (filter_none _ [_; _]) by (repeat constructor; simpl; congruence).
  rewrite app_nil_r. induction full as [|entry full IH]; [done|].
  rewrite !fmap_cons. cbn [concat]. rewrite filter_app, IH. unfold entity_writes at 1.
  rewrite filter_cons, decide_True by done. cbn [app]. f_equal.
  rewrite filter_none; [done|].
  destruct (entry.1 !! "fields") as [[| | | |fs|]|]; try done.
  destruct (entry.1 !! "name") as [name|]; [|done].
  eapply Forall_impl; [apply field_writes_tables|]. simpl. intros w ->. congruence.
Qed.

(** The metadata rows among the rows of a reconciliation. *)
Lemma populate_writes_FileMetadata full last_modified_date :
  __tablename__ FileMetadata ≠ __tablename__ SObject →
  __tablename__ FileMetadata ≠ __tablename__ Field →
  filter (λ w : string * Row, w.1 = __tablename__ FileMetadata)
    (populate_writes SObject Field FileMetadata parsedate full last_modified_date)
  = [(__tablename__ FileMetadata,
      Last_Modified_row (watermark parsedate full last_modified_date).2);
     (__tablename__ FileMetadata, FormatVersion_row)].
Proof.
  intros H1 H2. unfold populate_writes. rewrite filter_app.
  rewrite (filter_all _ [_; _]) by (by repeat constructor).
  rewrite filter_none; [done|].
  apply Forall_concat, Forall_fmap, Forall_forall. intros entry _. simpl.
  eapply Forall_impl; [apply entity_writes_tables|]. simpl.
  intros w [->| ->]; congruence.
Qed.

(** What [populate_cache] leaves: the rows it got to write, inserted
    without buffering, or the database as it was when an insert failed;
    and it returns only when all rows went in. *)
Lemma populate_cache_spec schema db sf since db' res :
  populate_cache SObject Field FileMetadata parsedate schema db sf since = (db', res) →
  let cols := columns_of (reflect SObject Field FileMetadata db) in
  let ws_all := populate_writes SObject Field FileMetadata parsedate
                  (deep_describe sf since (describe_names sf)) since in
  ∃ ws rest, ws_all = ws ++ rest ∧
    Forall (λ w, is_Some (cols !! w.1)) ws ∧
    db' = default db (unbuffered cols ws (Some db)) ∧
    (is_ok res = true → rest = [] ∧ unbuffered cols ws (Some db) = Some db').
Proof.
  unfold populate_cache. intros H.
  eapply with_BufferedSession_writes in H as (ws & [rest Hpre] & Hdb & Hok);
    [|apply populate_rows_writes].
  exists ws, rest. split; [done|]. split.
  - pose proof (populate_writes_declared db
                  (deep_describe sf since (describe_names sf)) since) as Hall.
    rewrite Hpre in Hall. by apply Forall_app in Hall as [? _].
  - split; [done|]. intros Hr. destruct (Hok Hr) as (Heq & _ & Hs). split; [|done].
    rewrite Hpre in Heq. rewrite <- (app_nil_r ws) in Heq at 1.
    by apply app_inv_head in Heq.
Qed.

End PopulateFacts.

(** ** Tables with a primary key *)

Section KeyedTables.

Implicit Types (rows new : list Row) (r x : Row) (pk : list string).

Lemma filter_fmap {A B} (f : A → B) (P : B → Prop) (Q : A → Prop)
    `{!∀ b, Decision (P b), !∀ a, Decision (Q a)} (l : list A) :
  (∀ a, P (f a) ↔ Q a) → filter P (f <$> l) = f <$> filter Q l.
Proof.
  intros HPQ. induction l as [|a l IH]; [done|].
  rewrite fmap_cons, !filter_cons, IH.
  destruct (decide (P (f a))) as [HP|HP], (decide (Q a)) as [HQ|HQ];
    try done; exfalso; by apply HPQ in HP || apply HPQ in HQ.
Qed.

(** An accepted row of a keyed table has values in its key columns, and
    it comes in the place of the stored row of its key, if there is one. *)
Lemma insert_row_keyed pk oc rows r rows' :
  pk ≠ [] →
  insert_row pk oc rows r = Ok rows' →
  has_null (row_key pk r) = false ∧
  rows' = filter (λ x, row_key pk x ≠ row_key pk r) rows ++ [r].
Proof.
  intros Hpk H. pose proof (insert_row_ok _ _ _ _ _ H) as ->.
  unfold insert_row in H. destruct pk as [|c pk]; [done|].
  by destruct (has_null (row_key (c :: pk) r)).
Qed.

(** Under [REPLACE] every row with values in its key columns is accepted. *)
Lemma insert_row_replace pk rows r :
  has_null (row_key pk r) = false →
  insert_row pk conflict_replace rows r = Ok (store_row pk rows r).
Proof.
  intros Hnull. unfold insert_row, store_row. destruct pk as [|c pk]; [done|].
  by rewrite Hnull.
Qed.

(** The keys of a keyed table stay unique. *)
Lemma store_row_NoDup pk rows r :
  pk ≠ [] →
  NoDup (row_key pk <$> rows) → NoDup (row_key pk <$> store_row pk rows r).
Proof.
  intros Hpk Hnd. unfold store_row. destruct pk as [|c pk]; [done|].
  rewrite fmap_app. apply NoDup_app. split_and!.
  - eapply sublist_NoDup; [done|]. apply fmap_sublist, sublist_filter.
  - intros k (x & -> & [Hne _]%list_elem_of_filter)%list_elem_of_fmap Hin.
    by apply list_elem_of_singleton in Hin.
  - apply NoDup_singleton.
Qed.

Lemma store_rows_NoDup pk rows new :
  pk ≠ [] →
  NoDup (row_key pk <$> rows) → NoDup (row_key pk <$> store_rows pk rows new).
Proof.
  intros Hpk. revert rows. induction new as [|r new IH]; intros rows Hnd; [done|].
  cbn [store_rows foldl]. by apply IH, store_row_NoDup.
Qed.

(** Tables keyed by the name. *)
Lemma row_key_name x r :
  row_key ["name"] x = row_key ["name"] r ↔ x !! "name" = r !! "name".
Proof.
  unfold row_key. cbn [fmap list_fmap]. split; [by intros [=]|by intros ->].
Qed.

Lemma filter_by_name_store_row name rows r :
  filter_by_name name (store_row ["name"] rows r)
  = if decide (r !! "name" = Some (VStr name)) then [r]
    else filter_by_name name rows.
Proof.
  unfold filter_by_name, store_row. rewrite filter_app.
  rewrite (filter_cons _ r), filter_nil.
  destruct (decide (r !! "name" = Some (VStr name))) as [Hr|Hr].
  - rewrite filter_none; [done|]. apply Forall_forall.
    intros x [Hk _]%list_elem_of_filter Hx. apply Hk, row_key_name. congruence.
  - rewrite app_nil_r. apply list_filter_filter_l.
    intros x Hx Hk. apply row_key_name in Hk. congruence.
Qed.

Lemma NoDup_names_keys rows :
  NoDup ((λ r : Row, r !! "name") <$> rows) ↔ NoDup (row_key ["name"] <$> rows).
Proof.
  assert (row_key ["name"] <$> rows
          = (λ k : option value, [k]) <$> ((λ r : Row, r !! "name") <$> rows)) as ->.
  { rewrite <- list_fmap_compose. done. }
  symmetry. apply NoDup_fmap. by intros k1 k2 [=].
Qed.

Lemma store_rows_NoDup_names rows new :
  NoDup ((λ r : Row, r !! "name") <$> rows) →
  NoDup ((λ r : Row, r !! "name") <$> store_rows ["name"] rows new).
Proof.
  rewrite !NoDup_names_keys. by apply store_rows_NoDup.
Qed.

(** The rows of one name after rows have been stored: the last of the new
    rows of that name, or else what was there. *)
Lemma filter_by_name_store_rows name rows new :
  filter_by_name name (store_rows ["name"] rows new)
  = match last (filter_by_name name new) with
    | Some r => [r]
    | None => filter_by_name name rows
    end.
Proof.
  revert rows. induction new as [|r new IH]; intros rows; [done|].
  cbn [store_rows foldl]. fold (store_rows ["name"] (store_row ["name"] rows r) new).
  rewrite IH, filter_by_name_store_row.
  unfold filter_by_name at 3. rewrite filter_cons.
  fold (filter_by_name name new).
  destruct (decide (r !! "name" = Some (VStr name))); [|done].
  rewrite last_cons. by destruct (last (filter_by_name name new)).
Qed.

End KeyedTables.

Section ReconciliationProperties.

Variables SObject Field FileMetadata : Model.
Variable parsedate : string → option (list Z).

Implicit Types (db s : Store) (full : list (Row * string)) (t : string).

Lemma sobject_values_lookup (sobj_data : Row) (c : string) :
  c ≠ "actionOverrides" → c ≠ "fields" →
  sobject_values sobj_data !! c = sobj_data !! c.
Proof.
  intros H1 H2. unfold sobject_values.
  by rewrite lookup_insert_ne, lookup_delete_ne.
Qed.

Lemma sobject_values_actionOverrides (sobj_data defaults : Row) :
  (sobject_values sobj_data ∪ defaults) !! "actionOverrides" = Some (VList []).
Proof. apply lookup_union_Some_l. unfold sobject_values. by rewrite lookup_insert_eq. Qed.

(** The table of a model after [populate_cache]: the rows it had and the
    rows written to it that went in, each accepted by the table as it
    stood. *)
Lemma populate_cache_table schema db sf since db' res (model : Model) (tbl : Table) :
  model ∈ Base_metadata SObject Field FileMetadata →
  db !! __tablename__ model = Some tbl →
  populate_cache SObject Field FileMetadata parsedate schema db sf since = (db', res) →
  let cols := columns_of (reflect SObject Field FileMetadata db) in
  let ws_all := populate_writes SObject Field FileMetadata parsedate
                  (deep_describe sf since (describe_names sf)) since in
  ∃ ws rest new, ws_all = ws ++ rest ∧
    new = (λ w, w.2 ∪ (cols !!! __tablename__ model))
            <$> filter (λ w : string * Row, w.1 = __tablename__ model) ws ∧
    db' !! __tablename__ model = Some (extend_table new tbl) ∧
    insert_rows (tprimary_key tbl) (ton_conflict tbl) (trows tbl) new
      = Ok (trows (extend_table new tbl)) ∧
    (is_ok res = true → rest = []).
Proof.
  intros Hmodel Htbl H cols ws_all.
  apply populate_cache_spec in H as (ws & rest & Hall & Hdecl & Hdb & Hok).
  fold cols in Hdecl, Hdb, Hok. fold ws_all in Hall.
  destruct (unbuffered cols ws (Some db)) as [s'|] eqn:Eu; simpl in Hdb; subst db'.
  - exists ws, rest, (rows_written cols (__tablename__ model) ws).
    split; [done|]. split; [by apply rows_written_filter|]. split.
    { by rewrite (unbuffered_rows _ _ _ _ _ Eu), Htbl. }
    split; [by eapply unbuffered_accepted|].
    intros Hr; by apply Hok.
  - exists [], ws_all, []. split; [done|]. split; [done|].
    split; [by rewrite extend_table_nil|]. split; [done|].
    intros Hr. by destruct (Hok Hr).
Qed.

(** The entity rows that went in are rows of changed entities, all of
    them when [populate_cache] returns. *)
Lemma populate_cache_entity_rows schema db sf since db' res (tbl : Table) :
  __tablename__ SObject ≠ __tablename__ Field →
  __tablename__ SObject ≠ __tablename__ FileMetadata →
  db !! __tablename__ SObject = Some tbl →
  populate_cache SObject Field FileMetadata parsedate schema db sf since = (db', res) →
  let row := λ entry : Row * string,
               sobject_values entry.1 ∪ none_row (model_columns SObject) in
  ∃ done rest,
    deep_describe sf since (describe_names sf) = done ++ rest ∧
    db' !! __tablename__ SObject = Some (extend_table (row <$> done) tbl) ∧
    (is_ok res = true → rest = []).
Proof.
  intros H1 H2 Htbl H row.
  eapply (populate_cache_table _ _ _ _ _ _ SObject) in H
    as (ws & rest & new & Hall & Hnew & Hdb & _ & Hok);
    [|apply Base_metadata_elem; auto|done].
  pose proof (populate_writes_SObject SObject Field FileMetadata parsedate
                (deep_describe sf since (describe_names sf)) since H1 H2) as Hf.
  rewrite Hall, filter_app in Hf.
  rewrite lookup_total_alt, reflect_columns_SObject in Hnew by done.
  cbn [from_option id] in Hnew.
  set (full := deep_describe sf since (describe_names sf)) in *.
  set (fw := filter (λ w : string * Row, w.1 = __tablename__ SObject) ws) in *.
  exists (take (length fw) full), (drop (length fw) full).
  split; [by rewrite take_drop|].
  assert (fw = (λ entry : Row * string, (__tablename__ SObject, sobject_values entry.1))
                 <$> take (length fw) full) as Hfw.
  { rewrite fmap_take, <- Hf. by rewrite take_app_length. }
  split.
  - rewrite Hdb, Hnew. do 2 f_equal. rewrite Hfw at 1.
    by rewrite <- list_fmap_compose.
  - intros Hr. rewrite (Hok Hr), filter_nil, app_nil_r in Hf.
    apply (f_equal length) in Hf. rewrite length_fmap in Hf.
    rewrite Hf. by rewrite drop_all.
Qed.

Lemma entity_row_actionOverrides (entry : Row * string) (defaults : Row) :
  (sobject_values entry.1 ∪ defaults) !! "actionOverrides" = Some (VList []).
Proof. apply sobject_values_actionOverrides. Qed.

(** The name of an entity row is the name of the payload. *)
Lemma entity_row_name (entry : Row * string) (name : string) :
  (sobject_values entry.1 ∪ none_row (model_columns SObject)) !! "name"
    = Some (VStr name)
  ↔ entry.1 !! "name" = Some (VStr name).
Proof.
  destruct (entry.1 !! "name") as [v|] eqn:E.
  - rewrite (lookup_union_Some_l _ _ _ v); [done|].
    by rewrite sobject_values_lookup.
  - rewrite lookup_union_r by (by rewrite sobject_values_lookup).
    rewrite none_row_lookup. by case_decide.
Qed.

(** C9.  Whatever the remote payload holds under [actionOverrides], the
    entity row made of it has the empty list there and the payload's
    values in the other columns.  After [populate_cache] every row of the
    entity table was there before or is such a row of a changed entity;
    and when [populate_cache] returns, the row of every changed entity is
    in the table, provided the changed entities differ in the key of the
    table. *)
Theorem stored_actionOverrides_empty
    (schema : Schema) (db : Store) (sf : Salesforce) (since : string)
    (db' : Store) (res : Result unit) (tbl : Table) :
  __tablename__ SObject ≠ __tablename__ Field →
  __tablename__ SObject ≠ __tablename__ FileMetadata →
  db !! __tablename__ SObject = Some tbl →
  populate_cache SObject Field FileMetadata parsedate schema db sf since = (db', res) →
  let row := λ entry : Row * string,
               sobject_values entry.1 ∪ none_row (model_columns SObject) in
  let full := deep_describe sf since (describe_names sf) in
  (∀ entry,
     row entry !! "actionOverrides" = Some (VList []) ∧
     ∀ c v, c ≠ "actionOverrides" → c ≠ "fields" →
            entry.1 !! c = Some v → row entry !! c = Some v) ∧
  ∃ tbl',
    db' !! __tablename__ SObject = Some tbl' ∧
    (∀ r, r ∈ trows tbl' → r ∈ trows tbl ∨ ∃ entry, entry ∈ full ∧ r = row entry) ∧
    (res = Ok () →
     tprimary_key tbl = [] ∨ NoDup (row_key (tprimary_key tbl) <$> (row <$> full)) →
     ∀ entry, entry ∈ full →
       row entry ∈ trows tbl' ∧ row entry !! "actionOverrides" = Some (VList [])).
Proof.
  intros H1 H2 Htbl H row full. split.
  { intros entry. split; [apply sobject_values_actionOverrides|].
    intros c v Hc1 Hc2 Hv. apply lookup_union_Some_l.
    by rewrite sobject_values_lookup. }
  destruct (populate_cache_entity_rows _ _ _ _ _ _ _ H1 H2 Htbl H)
    as (done & rest & Hfull & Hdb & Hok).
  fold full in Hfull. fold row in Hdb.
  eexists. split; [exact Hdb|]. cbn [extend_table trows]. split.
  - intros r [Hr|(entry & -> & Hentry)%list_elem_of_fmap]%elem_of_store_rows;
      [by left|right].
    exists entry. split; [|done]. rewrite Hfull. apply elem_of_app. by left.
  - intros -> Hkeys entry Hentry.
    rewrite (Hok eq_refl), app_nil_r in Hfull. subst done.
    split; [|apply sobject_values_actionOverrides].
    destruct Hkeys as [Hpk|Hnd].
    + rewrite Hpk, store_rows_nil_key. apply elem_of_app. right.
      apply list_elem_of_fmap. by exists entry.
    + apply store_rows_new; [done|]. apply list_elem_of_fmap. by exists entry.
Qed.

(** C2.  The entity table keys its rows by name.  When an entity that has
    one stored row is reported changed again, the table has exactly one
    row of that name after [populate_cache], whether it returns or not;
    when it returns, that row is the row of the changed entity, the last
    one fetched under that name: the new row has replaced the stored one.
    A table whose key is declared with [REPLACE] accepts the new row
    whatever it holds, and the names in the table stay unique. *)
Theorem changed_entity_replaces_stored_row
    (schema : Schema) (db : Store) (sf : Salesforce) (since : string)
    (db' : Store) (res : Result unit) (tbl : Table)
    (name : string) (prior payload : Row) (last_modified : string) :
  __tablename__ SObject ≠ __tablename__ Field →
  __tablename__ SObject ≠ __tablename__ FileMetadata →
  db !! __tablename__ SObject = Some tbl →
  tprimary_key tbl = ["name"] →
  filter_by_name name (trows tbl) = [prior] →
  last (filter (λ entry : Row * string, entry.1 !! "name" = Some (VStr name))
          (deep_describe sf since (describe_names sf)))
    = Some (payload, last_modified) →
  populate_cache SObject Field FileMetadata parsedate schema db sf since = (db', res) →
  let new_row := sobject_values payload ∪ none_row (model_columns SObject) in
  ∃ tbl' r,
    db' !! __tablename__ SObject = Some tbl' ∧
    tprimary_key tbl' = ["name"] ∧
    filter_by_name name (trows tbl') = [r] ∧
    (res = Ok () → r = new_row) ∧
    (ton_conflict tbl = conflict_replace →
       ∀ rows, insert_row (tprimary_key tbl) (ton_conflict tbl) rows new_row
               = Ok (store_row (tprimary_key tbl) rows new_row)) ∧
    (NoDup ((λ r : Row, r !! "name") <$> trows tbl) →
     NoDup ((λ r : Row, r !! "name") <$> trows tbl')).
Proof.
  intros H1 H2 Htbl Hpk Hprior Hlast H new_row.
  destruct (populate_cache_entity_rows _ _ _ _ _ _ _ H1 H2 Htbl H)
    as (done & rest & Hfull & Hdb & Hok).
  set (row := λ entry : Row * string,
                sobject_values entry.1 ∪ none_row (model_columns SObject)) in *.
  assert (payload !! "name" = Some (VStr name)) as Hname.
  { apply last_Some_elem_of in Hlast. by apply list_elem_of_filter in Hlast as [? _]. }
  assert (filter_by_name name (row <$> done)
          = row <$> filter (λ entry : Row * string, entry.1 !! "name" = Some (VStr name))
                      done) as Hnew.
  { unfold filter_by_name. apply filter_fmap. intros entry. apply entity_row_name. }
  pose proof (filter_by_name_store_rows name (trows tbl) (row <$> done)) as Hrows.
  rewrite Hnew, fmap_last in Hrows.
  assert (∃ r, filter_by_name name (trows (extend_table (row <$> done) tbl)) = [r] ∧
               (res = Ok () → r = new_row)) as (r & Hr & Hres).
  { cbn [extend_table trows]. rewrite Hpk, Hrows.
    destruct (last (filter _ done)) as [entry|] eqn:El; cbn [fmap option_fmap option_map].
    - exists (row entry). split; [done|]. intros ->.
      rewrite (Hok eq_refl), app_nil_r in Hfull. subst done.
      rewrite Hlast in El. by injection El as <-.
    - exists prior. split; [done|]. intros ->.
      rewrite (Hok eq_refl), app_nil_r in Hfull. subst done. congruence. }
  exists (extend_table (row <$> done) tbl), r.
  split; [done|]. split; [done|]. split; [done|]. split; [done|]. split.
  - intros Hoc rows. rewrite Hpk, Hoc. apply insert_row_replace.
    unfold row_key, has_null. cbn [fmap list_fmap existsb].
    pose proof (proj2 (entity_row_name (payload, last_modified) name) Hname) as Hn.
    cbn [fst] in Hn. subst new_row. by rewrite Hn.
  - intros Hnd. cbn [extend_table trows]. rewrite Hpk.
    by apply store_rows_NoDup_names.
Qed.

Lemma Last_Modified_row_name (w : string) (defaults : Row) :
  (Last_Modified_row w ∪ defaults) !! "name" = Some (VStr "Last-Modified").
Proof. apply lookup_union_Some_l. unfold Last_Modified_row. by rewrite lookup_insert_eq. Qed.

Lemma Last_Modified_row_value (w : string) (defaults : Row) :
  (Last_Modified_row w ∪ defaults) !! "value" = Some (VStr w).
Proof.
  apply lookup_union_Some_l. unfold Last_Modified_row.
  rewrite lookup_insert_ne by done. by rewrite lookup_insert_eq.
Qed.

Lemma FormatVersion_row_name (defaults : Row) :
  (FormatVersion_row ∪ defaults) !! "name" = Some (VStr "FormatVersion").
Proof. apply lookup_union_Some_l. unfold FormatVersion_row. by rewrite lookup_insert_eq. Qed.

Lemma metadata_rows_Last_Modified (w : string) (defaults : Row) :
  filter_by_name "Last-Modified"
    [Last_Modified_row w ∪ defaults; FormatVersion_row ∪ defaults]
  = [Last_Modified_row w ∪ defaults].
Proof.
  unfold filter_by_name.
  rewrite filter_cons, decide_True by apply Last_Modified_row_name.
  rewrite filter_cons, decide_False; [done|].
  rewrite FormatVersion_row_name. intros [=].
Qed.

Lemma metadata_rows_FormatVersion (w : string) (defaults : Row) :
  filter_by_name "FormatVersion"
    [Last_Modified_row w ∪ defaults; FormatVersion_row ∪ defaults]
  = [FormatVersion_row ∪ defaults].
Proof.
  unfold filter_by_name.
  rewrite filter_cons, decide_False.
  2:{ rewrite Last_Modified_row_name. intros [=]. }
  by rewrite filter_cons, decide_True by apply FormatVersion_row_name.
Qed.

(** The metadata rows that went in, in a table keyed by name. *)
Lemma populate_cache_metadata_rows schema db sf since db' (tbl : Table) :
  __tablename__ FileMetadata ≠ __tablename__ SObject →
  __tablename__ FileMetadata ≠ __tablename__ Field →
  db !! __tablename__ FileMetadata = Some tbl →
  populate_cache SObject Field FileMetadata parsedate schema db sf since = (db', Ok ()) →
  let w := (watermark parsedate (deep_describe sf since (describe_names sf)) since).2 in
  let defaults := none_row (model_columns FileMetadata) in
  db' !! __tablename__ FileMetadata
    = Some (extend_table [Last_Modified_row w ∪ defaults; FormatVersion_row ∪ defaults] tbl) ∧
  insert_rows (tprimary_key tbl) (ton_conflict tbl) (trows tbl)
    [Last_Modified_row w ∪ defaults; FormatVersion_row ∪ defaults]
  = Ok (trows (extend_table
                 [Last_Modified_row w ∪ defaults; FormatVersion_row ∪ defaults] tbl)).
Proof.
  intros H1 H2 Htbl H w defaults.
  eapply (populate_cache_table _ _ _ _ _ _ FileMetadata) in H
    as (ws & rest & new & Hall & Hnew & Hdb & Hacc & Hok);
    [|apply Base_metadata_elem; auto|done].
  pose proof (populate_writes_FileMetadata SObject Field FileMetadata parsedate
                (deep_describe sf since (describe_names sf)) since H1 H2) as Hf.
  fold w in Hf. rewrite Hall, (Hok eq_refl), app_nil_r in Hf.
  rewrite lookup_total_alt, reflect_columns_FileMetadata, Hf in Hnew.
  cbn [from_option id fmap list_fmap snd] in Hnew. fold defaults in Hnew.
  subst new. by split.
Qed.

(** C6.  The metadata table keys its rows by name.  After a
    reconciliation that returns, on a fresh store or on one that holds
    metadata rows of earlier cycles, the table has exactly one row for
    the watermark, with the watermark of this cycle, and exactly one for
    the format version, and the watermark lookup gives this cycle's
    watermark. *)
Theorem metadata_rows_after_reconciliation
    (schema : Schema) (db : Store) (sf : Salesforce) (since : string)
    (db' : Store) (tbl : Table) :
  __tablename__ FileMetadata ≠ __tablename__ SObject →
  __tablename__ FileMetadata ≠ __tablename__ Field →
  db !! __tablename__ FileMetadata = Some tbl →
  tprimary_key tbl = ["name"] →
  populate_cache SObject Field FileMetadata parsedate schema db sf since = (db', Ok ()) →
  let w := (watermark parsedate (deep_describe sf since (describe_names sf)) since).2 in
  let defaults := none_row (model_columns FileMetadata) in
  ∃ tbl',
    db' !! __tablename__ FileMetadata = Some tbl' ∧
    filter_by_name "Last-Modified" (trows tbl') = [Last_Modified_row w ∪ defaults] ∧
    filter_by_name "FormatVersion" (trows tbl') = [FormatVersion_row ∪ defaults] ∧
    (∀ c f, last_modified_date FileMetadata (mkSchema c VNone f) db'
            = (mkSchema c (VStr w) f, Ok (VStr w))) ∧
    (NoDup ((λ r : Row, r !! "name") <$> trows tbl) →
     NoDup ((λ r : Row, r !! "name") <$> trows tbl')).
Proof.
  intros H1 H2 Htbl Hpk H w defaults.
  destruct (populate_cache_metadata_rows _ _ _ _ _ _ H1 H2 Htbl H) as [Hdb _].
  fold w defaults in Hdb.
  assert (filter_by_name "Last-Modified"
            (trows (extend_table
                      [Last_Modified_row w ∪ defaults; FormatVersion_row ∪ defaults] tbl))
          = [Last_Modified_row w ∪ defaults]) as Hlm.
  { cbn [extend_table trows]. rewrite Hpk, filter_by_name_store_rows.
    rewrite (metadata_rows_Last_Modified w defaults). reflexivity. }
  eexists. split; [exact Hdb|]. split; [exact Hlm|]. split; [|split].
  - cbn [extend_table trows]. rewrite Hpk, filter_by_name_store_rows.
    rewrite (metadata_rows_FormatVersion w defaults). reflexivity.
  - intros c f. unfold last_modified_date, query. cbn [truthy _last_modified_date].
    rewrite Hdb. cbn [mbind Result_bind]. rewrite Hlm. cbn [one].
    unfold attr. by rewrite Last_Modified_row_value.
  - intros Hnd. cbn [extend_table trows]. rewrite Hpk.
    by apply store_rows_NoDup_names.
Qed.

End ReconciliationProperties.

(** ** The order on timestamps *)

Lemma tuple_gt_irrefl (a : list Z) : tuple_gt a a = false.
Proof. induction a as [|x a IH]; [done|]. simpl. by rewrite Z.eqb_refl. Qed.

Lemma tuple_gt_trans (a b c : list Z) :
  tuple_gt a b = true → tuple_gt b c = true → tuple_gt a c = true.
Proof.
  revert b c. induction a as [|x a IH]; intros [|y b] [|z c]; simpl; try done.
  destruct (Z.eqb_spec x y) as [?|?], (Z.eqb_spec y z) as [?|?],
    (Z.eqb_spec x z) as [?|?]; subst; try congruence;
    rewrite ?Z.ltb_lt; try lia; eauto.
Qed.


Lemma str_gt_lt (a b : string) :
  str_gt a b = true ↔ OrderedTypeEx.String_as_OT.lt b a.
Proof.
  unfold str_gt. rewrite <- OrderedTypeEx.String_as_OT.cmp_lt.
  unfold OrderedTypeEx.String_as_OT.cmp.
  rewrite (String.compare_antisym a b).
  destruct (String.compare b a); simpl; split; congruence.
Qed.

Lemma str_gt_irrefl (a : string) : str_gt a a = false.
Proof.
  destruct (str_gt a a) eqn:E; [|done]. apply str_gt_lt in E.
  by apply OrderedTypeEx.String_as_OT.lt_not_eq in E.
Qed.

Lemma str_gt_trans (a b c : string) :
  str_gt a b = true → str_gt b c = true → str_gt a c = true.
Proof.
  rewrite !str_gt_lt. intros H1 H2.
  by apply (OrderedTypeEx.String_as_OT.lt_trans c b a).
Qed.


Lemma sortable_gt_parsed (a b : list Z * string) :
  sortable_gt (Some a.1, a.2) (Some b.1, b.2) = Ok (key_gt a b).
Proof. unfold sortable_gt, key_gt. simpl. by case_bool_decide. Qed.

Lemma key_gt_irrefl (a : list Z * string) : key_gt a a = false.
Proof. unfold key_gt. rewrite bool_decide_true by done. apply str_gt_irrefl. Qed.

Lemma key_gt_trans (a b c : list Z * string) :
  key_gt a b = true → key_gt b c = true → key_gt a c = true.
Proof.
  unfold key_gt. destruct a as [ta sa], b as [tb sb], c as [tc sc]. simpl.
  repeat case_bool_decide; subst; try done.
  - apply str_gt_trans.
  - intros Hab Hba. pose proof (tuple_gt_trans _ _ _ Hab Hba) as Haa.
    by rewrite tuple_gt_irrefl in Haa.
  - apply tuple_gt_trans.
Qed.


(** ** The watermark *)

Section WatermarkFacts.

Variable parsedate : string → option (list Z).

Lemma sortable_max_idem (a m : Sortable) :
  sortable_max a (sortable_max a m) = sortable_max a m.
Proof.
  unfold sortable_max at 2 3. destruct (sortable_gt a m) as [[]|e] eqn:E.
  - unfold sortable_max. by destruct (sortable_gt a a) as [[]|].
  - unfold sortable_max. by rewrite E.
  - unfold sortable_max. by rewrite E.
Qed.

Lemma foldl_sortable_max (a m : Sortable) (fields : list value) :
  fields ≠ [] → foldl (λ m _, sortable_max a m) m fields = sortable_max a m.
Proof.
  destruct fields as [|f fields]; [done|]. intros _. simpl.
  induction fields as [|f' fields IH]; [done|]. simpl. by rewrite sortable_max_idem.
Qed.

(** An entity without fields leaves the running maximum as it is,
    whatever its timestamp. *)
Lemma max_after_entity_without_fields (m : Sortable) (entry : Row * string) :
  has_fields entry = false → max_after_entity parsedate m entry = m.
Proof.
  unfold has_fields, max_after_entity.
  by destruct (entry.1 !! "fields") as [[| | | |[|f fs]|]|].
Qed.

Lemma max_after_entity_with_fields (m : Sortable) (entry : Row * string) :
  has_fields entry = true →
  max_after_entity parsedate m entry = sortable_max (parsedate entry.2, entry.2) m.
Proof.
  unfold has_fields, max_after_entity.
  destruct (entry.1 !! "fields") as [[| | | |[|f fs]|]|]; try done.
  intros _. by apply foldl_sortable_max.
Qed.

(** The watermark is the running maximum over the previous watermark and
    the timestamps of the entities that have a field. *)
Lemma watermark_over_entities_with_fields (full : list (Row * string)) (since : string) :
  watermark parsedate full since
  = foldl (λ m entry, sortable_max (parsedate entry.2, entry.2) m)
      (parsedate since, since) (filter (λ entry, has_fields entry = true) full).
Proof.
  unfold watermark. generalize (parsedate since, since).
  induction full as [|entry full IH]; intros m; [done|]. cbn [foldl].
  rewrite filter_cons. destruct (has_fields entry) eqn:E.
  - rewrite decide_True by done. cbn [foldl].
    by rewrite max_after_entity_with_fields, IH.
  - rewrite decide_False by done. by rewrite max_after_entity_without_fields, IH.
Qed.

Lemma sortable_gt_stamp (s1 s2 : string) (t1 t2 : list Z) :
  parsedate s1 = Some t1 → parsedate s2 = Some t2 →
  sortable_gt (stamp parsedate s1) (stamp parsedate s2) = Ok (key_gt (t1, s1) (t2, s2)).
Proof. intros H1 H2. unfold stamp. rewrite H1, H2. apply (sortable_gt_parsed (_, _) (_, _)). Qed.

(** Among timestamps that parse, the fold keeps one that none of them
    is later than. *)
Lemma foldl_sortable_max_greatest (seen rest : list string) (sm : string) :
  Forall (λ s, is_Some (parsedate s)) (seen ++ rest) →
  sm ∈ seen →
  (∀ s, s ∈ seen → sortable_gt (stamp parsedate s) (stamp parsedate sm) = Ok false) →
  ∃ sr, foldl (λ m s, sortable_max (stamp parsedate s) m) (stamp parsedate sm) rest = stamp parsedate sr ∧
        sr ∈ seen ++ rest ∧
        ∀ s, s ∈ seen ++ rest → sortable_gt (stamp parsedate s) (stamp parsedate sr) = Ok false.
Proof.
  revert seen sm. induction rest as [|s rest IH]; intros seen sm Hall Hin Hmax.
  { exists sm. rewrite app_nil_r. done. }
  cbn [foldl].
  assert (is_Some (parsedate s)) as [t Ht].
  { apply Forall_app in Hall as [_ Hall]. by inversion Hall. }
  assert (is_Some (parsedate sm)) as [tm Htm].
  { apply Forall_app in Hall as [Hall _].
    by apply (proj1 (Forall_forall _ _) Hall). }
  replace (seen ++ s :: rest) with ((seen ++ [s]) ++ rest) in *
    by (by rewrite <- app_assoc).
  unfold sortable_max. rewrite (sortable_gt_stamp s sm t tm) by done.
  destruct (key_gt (t, s) (tm, sm)) eqn:Egt.
  - apply IH; [done|apply elem_of_app; right; by left|].
    intros x [Hx| ->%list_elem_of_singleton]%elem_of_app.
    + assert (is_Some (parsedate x)) as [tx Htx].
      { apply Forall_app in Hall as [Hall _]. apply Forall_app in Hall as [Hall _].
        by apply (proj1 (Forall_forall _ _) Hall). }
      pose proof (Hmax x Hx) as Hxm.
      rewrite (sortable_gt_stamp x sm tx tm) in Hxm by done.
      rewrite (sortable_gt_stamp x s tx t) by done. f_equal.
      destruct (key_gt (tx, x) (t, s)) eqn:Exs; [|done].
      injection Hxm as Hxm. by rewrite (key_gt_trans _ _ _ Exs Egt) in Hxm.
    + rewrite (sortable_gt_stamp s s t t) by done. by rewrite key_gt_irrefl.
  - apply IH; [done|apply elem_of_app; by left|].
    intros x [Hx| ->%list_elem_of_singleton]%elem_of_app; [by apply Hmax|].
    rewrite (sortable_gt_stamp s sm t tm) by done. by rewrite Egt.
Qed.

Lemma watermark_stamps (full : list (Row * string)) (since : string) :
  watermark parsedate full since
  = foldl (λ m s, sortable_max (stamp parsedate s) m) (stamp parsedate since)
      ((filter (λ entry, has_fields entry = true) full).*2).
Proof.
  rewrite watermark_over_entities_with_fields. unfold stamp.
  generalize (parsedate since, since).
  induction (filter (λ entry, has_fields entry = true) full) as [|e l IH];
    intros m; [done|]. simpl. apply IH.
Qed.

(** When the previous watermark and the timestamps parse, the watermark is
    the previous watermark or the timestamp of a fetched entity that has a
    field, and neither the previous watermark nor the timestamp of any
    such entity is later. *)
Lemma watermark_is_maximum (full : list (Row * string)) (since : string) :
  is_Some (parsedate since) →
  Forall (λ entry, is_Some (parsedate entry.2)) full →
  let w := watermark parsedate full since in
  (w = stamp parsedate since ∨
   ∃ entry, entry ∈ full ∧ has_fields entry = true ∧ w = stamp parsedate entry.2) ∧
  sortable_gt (stamp parsedate since) w = Ok false ∧
  ∀ entry, entry ∈ full → has_fields entry = true →
    sortable_gt (stamp parsedate entry.2) w = Ok false.
Proof.
  intros Hsince Hfull w. subst w. rewrite watermark_stamps.
  destruct (foldl_sortable_max_greatest [since]
              ((filter (λ entry, has_fields entry = true) full).*2) since)
    as (sr & -> & Hin & Hmax).
  - constructor; [done|]. apply Forall_fmap, Forall_forall.
    intros e [_ He]%list_elem_of_filter.
    by apply (proj1 (Forall_forall _ _) Hfull).
  - by left.
  - intros s ->%list_elem_of_singleton.
    destruct Hsince as [t Ht]. rewrite (sortable_gt_stamp since since t t) by done.
    by rewrite key_gt_irrefl.
  - split_and!.
    + apply elem_of_app in Hin as [->%list_elem_of_singleton|Hin]; [by left|].
      right. apply list_elem_of_fmap in Hin as (e & -> & [He Hin]%list_elem_of_filter).
      by exists e.
    + apply Hmax. by left.
    + intros e He Hf. apply Hmax. apply elem_of_app. right.
      apply list_elem_of_fmap. exists e. split; [done|]. by apply list_elem_of_filter.
Qed.


End WatermarkFacts.

(** ** The read-only handle and the lifecycle *)

Section LifecycleProperties.

Variables SObject Field FileMetadata : Model.
Variable parsedate : string → option (list Z).


(** C3, as the code has it.  [zip_database] writes in place.  Opening the
    source leaves the artifact alone; opening the artifact for writing
    empties it, a partial write leaves a gzip stream that stops early, and
    only the completed save leaves the complete gzip stream of the
    scratch database.  An artifact left by an interrupted save is neither
    the prior one nor absent, and the next run fails to load it. *)
Theorem zip_database_writes_in_place (w : World) (db : File) (p : ZipProgress) :
  tempfile w = Some db →
  let w' := (zip_database_upto p w).1 in
  tempfile w' = tempfile w ∧
  schema_path w'
    = match p with
      | source_opened => schema_path w
      | target_opened => Some (Raw [])
      | partly_written => Some (TruncatedGz db)
      | completed => Some (Gz db)
      end ∧
  (p = target_opened ∨ p = partly_written →
     ∃ w1, load_from_cache SObject w' = (w1, None)) ∧
  (p = completed → unzip_database (mkWorld (schema_path w') None) = (w', Ok ())).
Proof.
  intros Hdb w'. subst w'. unfold zip_database_upto. rewrite Hdb.
  destruct p; cbn [fst schema_path tempfile]; (split; [done|]); (split; [done|]); split;
    try (by intros [?|?]); try done.
  - intros _. by eexists.
  - intros _. by eexists.
Qed.

Lemma create_table_rows (db : Store) (model : Model) :
  map_Forall (λ _ tbl, trows tbl = []) db →
  map_Forall (λ _ tbl, trows tbl = []) (create_table db model).
Proof.
  intros H. unfold create_table. destruct (db !! __tablename__ model) eqn:E; [done|].
  by apply map_Forall_insert_2.
Qed.

Lemma create_table_Some (db : Store) (model : Model) (t : string) :
  is_Some (db !! t) ∨ t = __tablename__ model →
  is_Some (create_table db model !! t).
Proof.
  unfold create_table. intros [H| ->].
  - destruct (db !! __tablename__ model) eqn:E; [done|].
    destruct (decide (__tablename__ model = t)) as [<-|Hne].
    + rewrite lookup_insert_eq. eauto.
    + by rewrite lookup_insert_ne.
  - destruct (db !! __tablename__ model) eqn:E; [by rewrite E|].
    rewrite lookup_insert_eq. eauto.
Qed.

(** A freshly initialised store has the three tables, and no row. *)
Lemma create_all_empty (model : Model) :
  model ∈ Base_metadata SObject Field FileMetadata →
  ∃ tbl, create_all SObject Field FileMetadata ∅ !! __tablename__ model = Some tbl ∧
         trows tbl = [].
Proof.
  intros Hin.
  assert (map_Forall (λ _ tbl, trows tbl = []) (create_all SObject Field FileMetadata ∅))
    as Hrows.
  { unfold create_all, Base_metadata. cbn [foldl].
    do 3 apply create_table_rows. apply map_Forall_empty. }
  assert (is_Some (create_all SObject Field FileMetadata ∅ !! __tablename__ model))
    as [tbl Htbl].
  { unfold create_all, Base_metadata. cbn [foldl].
    apply Base_metadata_elem in Hin as [->|[->| ->]].
    - do 2 (apply create_table_Some; left). apply create_table_Some. by right.
    - apply create_table_Some; left. apply create_table_Some. by right.
    - apply create_table_Some. by right. }
  exists tbl. split; [done|]. by apply (Hrows _ _ Htbl).
Qed.

Lemma baseline_fresh :
  baseline FileMetadata Schema_init (create_all SObject Field FileMetadata ∅)
  = (Schema_init, Ok y2k).
Proof.
  destruct (create_all_empty FileMetadata) as (tbl & Htbl & Hrows).
  { apply Base_metadata_elem. auto. }
  unfold baseline, last_modified_date, query. cbn [Schema_init _last_modified_date truthy].
  rewrite Htbl. cbn [mbind Result_bind]. rewrite Hrows. done.
Qed.

Lemma get_org_schema_fresh (sf : Salesforce) (force_recache : bool) (w w1 : World) :
  (let w0 := mkWorld (if force_recache then None else schema_path w) None in
   match schema_path w0 with
   | Some _ => load_from_cache SObject w0
   | None => (w0, None)
   end) = (w1, None) →
  sqlite_open (tempfile w1) = Ok ∅ →
  get_org_schema SObject Field FileMetadata parsedate sf force_recache w
  = rebuild SObject Field FileMetadata parsedate sf (schema_path w1).
Proof.
  intros Hload Hopen. unfold get_org_schema, rebuild. cbn zeta in Hload.
  rewrite Hload, Hopen. cbn [mbind Result_bind]. rewrite baseline_fresh.
  destruct (populate_cache _ _ _ _ _ _ _ _) as [db' [[]|e]]; [|done].
  unfold zip_database, zip_database_upto. done.
Qed.

(** What a failed load leaves behind. *)
Lemma load_from_cache_failed (stale : File) (w1 : World) :
  load_from_cache SObject (mkWorld (Some stale) None) = (w1, None) →
  (w1 = mkWorld (Some stale) (Some (Raw [])) ∧
   is_ok (unzip_database (mkWorld (Some stale) None)).2 = false) ∨
  (w1 = mkWorld None None ∧
   is_ok (unzip_database (mkWorld (Some stale) None)).2 = true).
Proof.
  unfold load_from_cache, unzip_database. cbn [schema_path].
  destruct stale as [[|b0 b]|s|f|f]; try (intros [= <-]; by left).
  - destruct (liveness_check SObject _ _); [done|]. intros [= <-]. by right.
  - destruct (liveness_check SObject _ _); [done|]. intros [= <-]. by right.
Qed.

(** C5, as the code has it.  When the artifact fails to load, the failure
    is caught and the cycle goes on as for an empty cache directory: a
    fresh empty store, the epoch as baseline, and the same outcome; when
    it returns, the artifact is the gzip stream of the rebuilt store.  A
    failure after decompression closes the schema and deletes the stale
    artifact and the scratch file first. *)
Theorem load_failure_falls_back_to_rebuild
    (sf : Salesforce) (w : World) (stale : File) (w1 : World) :
  schema_path w = Some stale →
  load_from_cache SObject (mkWorld (Some stale) None) = (w1, None) →
  ((unzip_database (mkWorld (Some stale) None)).2 = Ok () → w1 = mkWorld None None) ∧
  sqlite_open (tempfile w1) = Ok ∅ ∧
  (get_org_schema SObject Field FileMetadata parsedate sf false w).2
    = (get_org_schema SObject Field FileMetadata parsedate sf false (mkWorld None None)).2 ∧
  ∀ w' schema,
    get_org_schema SObject Field FileMetadata parsedate sf false w = (w', Ok schema) →
    get_org_schema SObject Field FileMetadata parsedate sf false (mkWorld None None)
      = (w', Ok schema) ∧
    schema = block_writing Schema_init ∧
    ∃ db', populate_cache SObject Field FileMetadata parsedate Schema_init
             (create_all SObject Field FileMetadata ∅) sf y2k = (db', Ok ()) ∧
           w' = mkWorld (Some (Gz (Db db'))) (Some (Db db')).
Proof.
  intros Hpath Hload.
  assert (sqlite_open (tempfile w1) = Ok ∅) as Hopen.
  { by destruct (load_from_cache_failed _ _ Hload) as [[-> _]|[-> _]]. }
  split.
  { intros Hz. destruct (load_from_cache_failed _ _ Hload) as [[_ H]|[-> _]]; [|done].
    by rewrite Hz in H. }
  split; [done|].
  rewrite (get_org_schema_fresh sf false w w1);
    [|by cbn [schema_path]; rewrite Hpath|done].
  rewrite (get_org_schema_fresh sf false (mkWorld None None) (mkWorld None None)) by done.
  unfold rebuild.
  destruct (populate_cache _ _ _ _ _ _ _ _) as [db' [[]|e]]; cbn [snd schema_path].
  - split; [done|]. intros w' schema [= <- <-]. split; [done|]. split; [done|]. eauto.
  - split; [done|]. intros w' schema [=].
Qed.

End LifecycleProperties.

(** * Further properties

    ** The buffered writer *)

Section WriterProperties.

Implicit Types (sess : BufferedSession) (s txn : Store) (o : option Store).
Implicit Types (t : string) (rows new : list Row) (ws : list (string * Row)).

Lemma exec_pending_rows s t0 rows s1 t :
  exec_pending (Some s) t0 rows = Some s1 →
  s1 !! t = extend_table (if decide (t = t0) then rows else []) <$> s !! t.
Proof.
  destruct rows as [|r rows].
  - intros [= <-]. destruct (decide (t = t0)), (s !! t) as [tbl|]; simpl;
      by rewrite ?extend_table_nil.
  - unfold exec_pending, execute_insert. cbn [mbind option_bind].
    destruct (s !! t0) as [tbl0|] eqn:E0; [|done]. cbn [mbind Result_bind].
    destruct (insert_rows (tprimary_key tbl0) (ton_conflict tbl0) (trows tbl0)
                (r :: rows)) as [rows'|] eqn:Ei; [|done].
    cbn [mbind Result_bind succ]. intros [= <-].
    apply insert_rows_ok in Ei as ->.
    destruct (decide (t = t0)) as [->|Hne].
    + by rewrite lookup_insert_eq, E0.
    + rewrite lookup_insert_ne by done.
      destruct (s !! t) as [tbl|]; simpl; by rewrite ?extend_table_nil.
Qed.

(** What the pending rows make of every table once they are flushed. *)
Lemma pending_rows names (bufs : gmap string (list Row)) s s' t :
  NoDup names →
  pending names bufs (Some s) = Some s' →
  s' !! t = extend_table (if decide (t ∈ names) then bufs !!! t else []) <$> s !! t.
Proof.
  revert s. induction names as [|t0 names IH]; intros s Hnd.
  - intros [= <-]. rewrite decide_False by apply not_elem_of_nil.
    destruct (s !! t) as [tbl|]; simpl; by rewrite ?extend_table_nil.
  - apply NoDup_cons in Hnd as [Hnot Hnd]. rewrite pending_cons.
    destruct (exec_pending (Some s) t0 (bufs !!! t0)) as [s1|] eqn:E1;
      [|by rewrite pending_None].
    intros H. rewrite (IH _ Hnd H), (exec_pending_rows _ _ _ _ t E1).
    destruct (s !! t) as [tbl|]; simpl; [|done]. f_equal.
    rewrite extend_table_extend. f_equal.
    destruct (decide (t = t0)) as [->|Hne].
    + rewrite (decide_False (P := t0 ∈ names)) by done.
      rewrite (decide_True (P := t0 ∈ t0 :: names)) by left. by rewrite app_nil_r.
    + destruct (decide (t ∈ names)).
      * by rewrite decide_True by (by right).
      * by rewrite decide_False by (by intros [?|?]%elem_of_cons).
Qed.

Lemma flush_tables_empty names sess :
  (∀ t, t ∈ names → buffered_rows sess !!! t = []) →
  flush_tables names sess = (sess, Ok ()).
Proof.
  induction names as [|t names IH]; intros H; [done|]. cbn [flush_tables].
  unfold flush_table. rewrite (H t) by left. apply IH. intros; apply H. by right.
Qed.

(** X1.  [flush] sends every buffered row to its table, in the order it
    was written, and leaves the buffers of all declared tables empty: a
    second [flush] changes nothing, and a [commit] right after it commits
    the transaction as it stands. *)
Theorem flush_empties_the_buffers (sess sess' : BufferedSession) :
  session_wf sess →
  flush sess = (sess', Ok ()) →
  (∀ t, t ∈ insert_statements sess → buffered_rows sess' !!! t = []) ∧
  (∀ t, t ∈ insert_statements sess →
        session sess' !! t = extend_table (buffered_rows sess !!! t) <$> session sess !! t) ∧
  (∀ t, t ∉ insert_statements sess →
        session sess' !! t = session sess !! t ∧
        buffered_rows sess' !!! t = buffered_rows sess !!! t) ∧
  flush sess' = (sess', Ok ()) ∧
  commit sess' = Ok (session sess').
Proof.
  intros Hwf Hf. pose proof Hwf as [Hnd _]. unfold flush in Hf.
  pose proof (flush_tables_ok _ _ _ Hnd Hf) as ((_ & Hi & _) & Hs & Hb).
  symmetry in Hs.
  assert (∀ t, t ∈ insert_statements sess → buffered_rows sess' !!! t = []) as Hempty.
  { intros t Ht. rewrite Hb. by rewrite decide_True. }
  assert (flush sess' = (sess', Ok ())) as Hagain.
  { unfold flush. rewrite Hi. by apply flush_tables_empty. }
  split; [done|]. split_and!.
  - intros t Ht. rewrite (pending_rows _ _ _ _ t Hnd Hs). by rewrite decide_True.
  - intros t Ht. split.
    + rewrite (pending_rows _ _ _ _ t Hnd Hs), decide_False by done.
      destruct (session sess !! t); simpl; by rewrite ?extend_table_nil.
    + rewrite Hb. by rewrite decide_False.
  - done.
  - unfold commit. by rewrite Hagain.
Qed.

Lemma flush_tables_buffers_notin names sess sess' (res : Result unit) t :
  flush_tables names sess = (sess', res) →
  t ∉ names →
  buffered_rows sess' !!! t = buffered_rows sess !!! t.
Proof.
  revert sess. induction names as [|t0 names IH]; intros sess; cbn [flush_tables].
  - by intros [= <-].
  - intros H [Hne Hnot]%not_elem_of_cons.
    destruct (flush_table t0 sess) as [sessa [[]|ea]] eqn:Ea.
    + apply flush_table_ok in Ea as (_ & _ & Hb).
      rewrite (IH _ H Hnot), Hb. by rewrite decide_False.
    + injection H as <- _. by apply flush_table_raise in Ea as [-> _].
Qed.

(** A flush that failed fails in the same way when it is tried again. *)
Lemma flush_tables_raise_again names sess sess1 e :
  NoDup names →
  flush_tables names sess = (sess1, Raise e) →
  flush_tables names sess1 = (sess1, Raise e).
Proof.
  revert sess. induction names as [|t names IH]; intros sess Hnd;
    cbn [flush_tables]; [done|].
  apply NoDup_cons in Hnd as [Hnot Hnd].
  destruct (flush_table t sess) as [sessa [[]|ea]] eqn:Ea.
  - intros H. pose proof (flush_table_ok _ _ _ Ea) as (_ & _ & Hb).
    assert (buffered_rows sess1 !!! t = []) as Hempty.
    { rewrite (flush_tables_buffers_notin _ _ _ _ _ H Hnot), Hb.
      by rewrite decide_True. }
    unfold flush_table at 1. rewrite Hempty. by apply (IH sessa).
  - intros [= <- <-]. pose proof (flush_table_raise _ _ _ _ Ea) as [-> _].
    by rewrite Ea.
Qed.

(** X2.  Once an insert has failed, the session never commits: the rows
    that were refused stay in their buffer, so a further [flush] fails in
    the same way, and after any further writes [commit] and [close] raise
    again. *)
Theorem failed_flush_is_never_committed
    (sess sess1 sess2 : BufferedSession) (e : Exception)
    (ws : list (string * Row)) (res : Result unit) :
  session_wf sess →
  flush sess = (sess1, Raise e) →
  write_rows sess1 ws = (sess2, res) →
  flush sess1 = (sess1, Raise e) ∧
  (∃ e', commit sess2 = Raise e') ∧
  (∃ e', BufferedSession_close sess2 = Raise e').
Proof.
  intros Hwf Hf Hw. pose proof Hwf as [Hnd _].
  pose proof Hf as Hf'.
  apply flush_raise_commit in Hf as (Hsetup & Hc1 & _); [|done].
  pose proof (same_setup_wf _ _ Hsetup Hwf) as Hwf1.
  apply write_rows_spec in Hw as (_ & Hc2 & _); [|done].
  rewrite Hc1, unbuffered_None in Hc2.
  assert (∃ e', commit sess2 = Raise e') as Hcommit.
  { destruct (commit sess2); [done|eauto]. }
  split; [|by split].
  unfold flush in *. destruct Hsetup as (_ & -> & _).
  by apply (flush_tables_raise_again _ sess).
Qed.

(** X3.  A buffer never outgrows the threshold: when every buffer holds
    at most [max_buffer_size] rows (none, for a negative threshold), it
    still does after any sequence of writes that returns. *)
Theorem buffers_stay_within_threshold
    (sess sess' : BufferedSession) (ws : list (string * Row)) :
  session_wf sess →
  (∀ t, (Z.of_nat (length (buffered_rows sess !!! t)) ≤ Z.max 0 (max_buffer_size sess))%Z) →
  write_rows sess ws = (sess', Ok ()) →
  max_buffer_size sess' = max_buffer_size sess ∧
  ∀ t, (Z.of_nat (length (buffered_rows sess' !!! t)) ≤ Z.max 0 (max_buffer_size sess))%Z.
Proof.
  revert sess. induction ws as [|[t r] ws IH]; intros sess Hwf Hbound;
    cbn [write_rows].
  { by intros [= <-]. }
  destruct (write_single_row sess t r) as [sess1 [[]|e]] eqn:E1; [|done].
  pose proof (write_single_row_spec _ _ _ _ _ Hwf E1) as (Hsetup & _).
  pose proof (same_setup_wf _ _ Hsetup Hwf) as Hwf1.
  destruct Hsetup as (_ & _ & Hmax).
  assert (∀ t', (Z.of_nat (length (buffered_rows sess1 !!! t'))
                   ≤ Z.max 0 (max_buffer_size sess))%Z) as Hbound1.
  { unfold write_single_row, buffer_row in E1.
    destruct (columns sess !! t) as [d|] eqn:Ed; [|done].
    cbn [buffered_rows max_buffer_size] in E1.
    rewrite lookup_total_insert_eq in E1. case_bool_decide as Hfull.
    - pose proof Hwf as [Hnd Hin]. unfold flush in E1. cbn [insert_statements] in E1.
      apply flush_tables_ok in E1 as (_ & _ & Hb); [|done].
      intros t'. rewrite Hb. cbn [buffered_rows]. case_decide as Hdec; [simpl; lia|].
      rewrite lookup_total_insert_ne; [apply Hbound|].
      intros <-. apply Hdec, Hin. by rewrite Ed.
    - injection E1 as <-. intros t'. cbn [buffered_rows].
      destruct (decide (t = t')) as [<-|Hne].
      + rewrite lookup_total_insert_eq. lia.
      + rewrite lookup_total_insert_ne by done. apply Hbound. }
  intros H. rewrite <- Hmax in Hbound1.
  destruct (IH sess1 Hwf1 Hbound1 H) as [Hm Hb]. rewrite Hmax in Hm, Hb. done.
Qed.

Lemma unbuffered_app cols ws1 ws2 o :
  Forall (λ w, is_Some (cols !! w.1)) ws1 →
  unbuffered cols (ws1 ++ ws2) o = unbuffered cols ws2 (unbuffered cols ws1 o).
Proof.
  intros H. revert o. induction H as [|[t r] ws1 [d Hd] _ IH]; intros o; [done|].
  simpl in Hd. cbn [app unbuffered]. rewrite Hd. apply IH.
Qed.

(** X4.  An exception inside the [with] block does not undo the block:
    [__exit__] closes the session, and with it commits, before the
    exception goes on.  A write to a table that the writer does not know
    raises [KeyError], the rows written before it are committed and the
    rows after it are never written. *)
Theorem with_block_commits_before_exception
    (db db1 : Store) (metadata : MetaData) (m : Z)
    (ws1 ws2 : list (string * Row)) (t : string) (r : Row) :
  metadata ≠ [] →
  columns_of metadata !! t = None →
  Forall (λ w, is_Some (columns_of metadata !! w.1)) ws1 →
  unbuffered (columns_of metadata) ws1 (Some db) = Some db1 →
  write_all db metadata m (ws1 ++ (t, r) :: ws2) = (db1, Raise KeyError) ∧
  write_all db metadata m ws1 = (db1, Ok ()).
Proof.
  intros Hne Ht Hdecl Hun. unfold write_all, with_BufferedSession.
  destruct (BufferedSession_init db metadata m) as [sess|e] eqn:Einit.
  2:{ unfold BufferedSession_init in Einit. by destruct metadata. }
  apply BufferedSession_init_spec in Einit as (Hwf & Hcols & _ & Hc0).
  rewrite write_rows_app.
  destruct (write_rows sess ws1) as [sess1 res1] eqn:E1.
  pose proof (write_rows_spec _ _ _ _ Hwf E1) as (Hsetup & Hc1 & _).
  rewrite Hc0, Hcols, Hun in Hc1.
  assert (res1 = Ok ()) as ->.
  { destruct res1 as [[]|e]; [done|].
    apply write_rows_raise in E1 as [H|H]; [|by rewrite Hcols in H|done].
    by rewrite H in Hc1. }
  unfold BufferedSession_close.
  destruct (commit sess1) as [db'|] eqn:Ec; [|done]. injection Hc1 as ->.
  split; [|done]. cbn [write_rows]. unfold write_single_row, buffer_row.
  destruct Hsetup as (-> & _). rewrite Hcols, Ht. by rewrite Ec.
Qed.

(** X5.  The threshold of [write_single_row]: while the buffer of the
    table holds fewer than [max_buffer_size] rows, a write only appends
    the normalised row to that buffer and leaves the transaction alone;
    from there on the write flushes, and a flush that returns has emptied
    the buffers of all the tables, not only of the one written to. *)
Theorem write_single_row_flushes_at_threshold
    (sess sess' : BufferedSession) (t : string) (r defaults : Row)
    (res : Result unit) :
  session_wf sess →
  columns sess !! t = Some defaults →
  write_single_row sess t r = (sess', res) →
  if bool_decide (Z.of_nat (length (buffered_rows sess !!! t)) < max_buffer_size sess)%Z
  then res = Ok () ∧ session sess' = session sess ∧
       buffered_rows sess'
         = <[t := buffered_rows sess !!! t ++ [r ∪ defaults]]> (buffered_rows sess)
  else res = Ok () →
       (∀ t', t' ∈ insert_statements sess → buffered_rows sess' !!! t' = []) ∧
       Some (session sess')
         = pending (insert_statements sess)
             (<[t := buffered_rows sess !!! t ++ [r ∪ defaults]]> (buffered_rows sess))
             (Some (session sess)).
Proof.
  intros Hwf Hd. unfold write_single_row, buffer_row. rewrite Hd.
  cbn [buffered_rows max_buffer_size]. rewrite lookup_total_insert_eq.
  rewrite length_app. cbn [length].
  case_bool_decide as Hfull; case_bool_decide as Hbelow; try lia.
  - intros Hf ->. unfold flush in Hf. cbn [insert_statements] in Hf.
    destruct Hwf as [Hnd _].
    apply flush_tables_ok in Hf as (_ & Hs & Hb); [|done].
    cbn [buffered_rows session] in Hs, Hb. split; [|done].
    intros t' Ht'. rewrite Hb. by rewrite decide_True.
  - by intros [= <- <-].
Qed.

(** X6.  The constructor with [_prepare]: without tables it raises
    [AssertionError]; otherwise the session starts with empty buffers on
    the engine's database, knows exactly the tables of the metadata, and
    closing it without a write commits the database as it was. *)
Theorem BufferedSession_init_prepares (db : Store) (metadata : MetaData) (m : Z) :
  match BufferedSession_init db metadata m with
  | Raise e => metadata = [] ∧ e = AssertionError
  | Ok sess =>
      metadata ≠ [] ∧ buffered_rows sess = ∅ ∧ session sess = db ∧
      max_buffer_size sess = m ∧ NoDup (insert_statements sess) ∧
      (∀ t, t ∈ insert_statements sess ↔ t ∈ metadata.*1) ∧
      (∀ t, is_Some (columns sess !! t) ↔ t ∈ metadata.*1) ∧
      BufferedSession_close sess = Ok db ∧
      write_all db metadata m [] = (db, Ok ())
  end.
Proof.
  destruct metadata as [|tm metadata]; [done|].
  set (md := tm :: metadata). unfold write_all, with_BufferedSession.
  assert (BufferedSession_init db md m
          = Ok (mkBufferedSession ∅ (columns_of md) (remove_dups md.*1) m db)) as ->
    by done.
  cbn [buffered_rows session max_buffer_size insert_statements columns write_rows].
  assert (BufferedSession_close (mkBufferedSession ∅ (columns_of md) (remove_dups md.*1) m db)
          = Ok db) as Hclose.
  { unfold BufferedSession_close, commit, flush. cbn [insert_statements].
    rewrite flush_tables_empty; [done|]. intros t _. cbn [buffered_rows].
    by rewrite lookup_total_empty. }
  rewrite Hclose. split_and!; try done.
  - apply NoDup_remove_dups.
  - intros t. apply elem_of_remove_dups.
  - intros t. split; [apply columns_of_Some|].
    intros Ht. clearbody md. clear Hclose. revert Ht.
    induction md as [|tm' md' IH] using rev_ind; [by intros ?%elem_of_nil|].
    rewrite fmap_app, columns_of_snoc. cbn [fmap list_fmap].
    intros [Ht|Ht%list_elem_of_singleton]%elem_of_app.
    + destruct (decide (tm'.1 = t)) as [<-|Hne].
      * rewrite lookup_insert_eq. eauto.
      * rewrite lookup_insert_ne by done. by apply IH.
    + subst t. rewrite lookup_insert_eq. eauto.
Qed.

End WriterProperties.

(** ** The queries of [Schema] *)

Section SchemaProperties.

Variables SObject FileMetadata : Model.

Lemma attr_name (r : Row) (name : string) :
  attr r "name" = VStr name ↔ r !! "name" = Some (VStr name).
Proof.
  unfold attr. destruct (r !! "name") as [v|]; simpl; split; congruence.
Qed.

(** X7.  [__contains__] and [__getitem__] run the same query, so they
    agree: the membership test gives an empty list exactly when the lookup
    raises [KeyError], one row exactly when the lookup returns that row,
    and more than one when the lookup raises [MultipleResultsFound];
    without the table both raise [OperationalError]. *)
Theorem contains_agrees_with_getitem (schema : Schema) (db : Store) (name : string) :
  match __contains__ SObject schema db name with
  | Raise e =>
      e = OperationalError ∧ db !! __tablename__ SObject = None ∧
      __getitem__ SObject schema db name = Raise OperationalError
  | Ok [] => __getitem__ SObject schema db name = Raise KeyError
  | Ok [r] => __getitem__ SObject schema db name = Ok r
  | Ok (_ :: _ :: _) => __getitem__ SObject schema db name = Raise MultipleResultsFound
  end.
Proof.
  unfold __contains__, __getitem__, query.
  destruct (db !! __tablename__ SObject) as [tbl|]; cbn [fmap Result_fmap mbind Result_bind];
    [|done].
  by destruct (filter_by_name name (trows tbl)) as [|r [|r' rows]].
Qed.

Lemma value_le_total : Total value_le.
Proof.
  intros a b. unfold value_le, value_leb.
  destruct a as [|x|x|x|x|x], b as [|y|y|y|y|y]; cbn [storage_class];
    try (by left); try (by right);
    try (destruct (Z.leb_spec (Z.b2z x) (Z.b2z y)), (Z.leb_spec (Z.b2z y) (Z.b2z x));
         by (left + right + lia));
    try (destruct (Z.leb_spec (Z.b2z x) y), (Z.leb_spec y (Z.b2z x));
         by (left + right + lia));
    try (destruct (Z.leb_spec x (Z.b2z y)), (Z.leb_spec (Z.b2z y) x);
         by (left + right + lia));
    try (destruct (Z.leb_spec x y), (Z.leb_spec y x); by (left + right + lia)).
  destruct (str_gt x y) eqn:Exy; [|by left].
  destruct (str_gt y x) eqn:Eyx; [|by right].
  pose proof (str_gt_trans _ _ _ Exy Eyx) as H. by rewrite str_gt_irrefl in H.
Qed.

(** X8.  [keys], [values] and [items] read the same table.  The items
    are the values, in their order, each with its name.  The keys are the
    names of the values up to their order: a table keyed by the name
    gives them in the order of the names, any other table in the order of
    the values.  A name is among the keys exactly when the membership
    test finds a row. *)
Theorem keys_values_items_agree (schema : Schema) (db : Store) :
  match values SObject schema db with
  | Raise e => keys SObject schema db = Raise e ∧ items SObject schema db = Raise e
  | Ok vs =>
      items SObject schema db = Ok ((λ r, (attr r "name", r)) <$> vs) ∧
      ∃ ks, keys SObject schema db = Ok ks ∧
        ks ≡ₚ (λ r, attr r "name") <$> vs ∧
        (∀ name, VStr name ∈ ks
                 ↔ ∃ r rows, __contains__ SObject schema db name = Ok (r :: rows)) ∧
        (∀ tbl, db !! __tablename__ SObject = Some tbl →
                if bool_decide (tprimary_key tbl = ["name"])
                then Sorted value_le ks
                else ks = (λ r, attr r "name") <$> vs)
  end.
Proof.
  unfold values, keys, items, __contains__, query.
  destruct (db !! __tablename__ SObject) as [tbl|]; cbn [fmap Result_fmap]; [|done].
  split; [done|]. eexists. split; [done|].
  assert ((if bool_decide (tprimary_key tbl = ["name"])
           then merge_sort value_le ((λ r, attr r "name") <$> trows tbl)
           else (λ r, attr r "name") <$> trows tbl)
          ≡ₚ (λ r, attr r "name") <$> trows tbl) as Hperm.
  { case_bool_decide; [apply merge_sort_Permutation|done]. }
  split; [exact Hperm|]. split.
  - intros name. rewrite Hperm. split.
    + intros (r & Hr & Hin)%list_elem_of_fmap. symmetry in Hr. apply attr_name in Hr.
      assert (r ∈ filter_by_name name (trows tbl)) as Hf
        by by apply filter_by_name_elem.
      destruct (filter_by_name name (trows tbl)) as [|r0 rows0];
        [by apply elem_of_nil in Hf|eauto].
    + intros (r & rows & [= Hf]).
      assert (r ∈ filter_by_name name (trows tbl)) as Hin by (rewrite Hf; left).
      apply filter_by_name_elem in Hin as [Hin Hn].
      apply list_elem_of_fmap. exists r. split; [|done]. symmetry. by apply attr_name.
  - intros tbl0 [= <-]. case_bool_decide; [|done].
    pose proof value_le_total as Htotal. apply (Sorted_merge_sort value_le).
Qed.

(** X9.  The [last_modified_date] property caches what it finds: once it
    has returned a true value, the handle returns that value from then on
    without looking at the database, whatever the database holds by
    then. *)
Theorem last_modified_date_is_cached
    (schema schema' : Schema) (db : Store) (v : value) :
  last_modified_date FileMetadata schema db = (schema', Ok v) →
  truthy v = true →
  _last_modified_date schema' = v ∧
  session_commit schema' = session_commit schema ∧
  from_cache schema' = from_cache schema ∧
  ∀ db2, last_modified_date FileMetadata schema' db2 = (schema', Ok v).
Proof.
  unfold last_modified_date at 1.
  destruct (truthy (_last_modified_date schema)) eqn:Et.
  - intros [= <- <-] _. split_and!; try done.
    intros db2. unfold last_modified_date. by rewrite Et.
  - destruct (rows ← query FileMetadata db; one (filter_by_name "Last-Modified" rows))
      as [r|e] eqn:Eq.
    + intros [= <- <-] Hv. split_and!; try done.
      intros db2. unfold last_modified_date. cbn [_last_modified_date]. by rewrite Hv.
    + destruct e; try done. intros [= <- <-] Hv. congruence.
Qed.

End SchemaProperties.

(** ** The reconciliation on well-formed responses *)

Section ReconciliationRows.

Variables SObject Field FileMetadata : Model.
Variable parsedate : string → option (list Z).

Implicit Types (db s : Store) (full : list (Row * string)) (t : string).
Implicit Types (sess : BufferedSession) (m : Sortable).

Lemma sortable_max_parsed (a m : Sortable) :
  is_Some a.1 → is_Some m.1 → is_Some (sortable_max a m).1.
Proof.
  intros Ha Hm. unfold sortable_max.
  by destruct (sortable_gt a m) as [[]|].
Qed.

Lemma sortable_gt_parsed_ok (a m : Sortable) :
  is_Some a.1 → is_Some m.1 →
  sortable_gt a m = Ok (match sortable_gt a m with Ok b => b | Raise _ => false end).
Proof.
  intros [ta Ha] [tm Hm]. unfold sortable_gt. rewrite Ha, Hm. by case_bool_decide.
Qed.

Lemma foldl_sortable_max_parsed (a m : Sortable) (fields : list value) :
  is_Some a.1 → is_Some m.1 →
  is_Some (foldl (λ m _, sortable_max a m) m fields).1.
Proof.
  intros Ha. revert m. induction fields as [|f fields IH]; intros m Hm; [done|].
  cbn [foldl]. by apply IH, sortable_max_parsed.
Qed.

(** The inner loop on a list of field dictionaries is a sequence of
    writes. *)
Lemma populate_fields_write_rows sobj_data last_modified fields m name sess :
  sobj_data !! "name" = Some name →
  Forall (λ field, ∃ d, field = VDict d) fields →
  is_Some (parsedate last_modified) → is_Some m.1 →
  populate_fields Field parsedate sobj_data last_modified fields m sess
  = match write_rows sess (field_writes Field name fields) with
    | (sess', Ok _) =>
        (sess', Ok (foldl (λ m _, sortable_max (parsedate last_modified, last_modified) m)
                      m fields))
    | (sess', Raise e) => (sess', Raise e)
    end.
Proof.
  intros Hname Hfields Hlm. revert m sess.
  induction Hfields as [|field fields [d ->] _ IH]; intros m sess Hm; [done|].
  cbn [populate_fields field_writes write_rows foldl]. rewrite Hname.
  unfold sess_bind, create_row.
  destruct (write_single_row sess (__tablename__ Field)
              (<["sobject" := name]> (dict_of_items d))) as [sess1 [[]|e]]; [|done].
  rewrite (sortable_gt_parsed_ok (parsedate last_modified, last_modified) m) by done.
  rewrite IH.
  - unfold sortable_max.
    by destruct (sortable_gt (parsedate last_modified, last_modified) m) as [[]|].
  - destruct (sortable_gt (parsedate last_modified, last_modified) m) as [[]|]; done.
Qed.

Lemma well_formed_entry_max (entry : Row * string) m :
  well_formed_entry parsedate entry → is_Some m.1 →
  is_Some (max_after_entity parsedate m entry).1.
Proof.
  intros [(fields & Hf & _ & _) Hlm] Hm. unfold max_after_entity. rewrite Hf.
  by apply foldl_sortable_max_parsed.
Qed.

Lemma populate_sobject_write_rows (entry : Row * string) m sess :
  well_formed_entry parsedate entry → is_Some m.1 →
  populate_sobject SObject Field parsedate entry m sess
  = match write_rows sess (entity_writes SObject Field entry) with
    | (sess', Ok _) => (sess', Ok (max_after_entity parsedate m entry))
    | (sess', Raise e) => (sess', Raise e)
    end.
Proof.
  destruct entry as [sobj_data last_modified].
  intros [(fields & Hf & Hd & Hn) Hlm] Hm. simpl in Hf, Hd, Hn, Hlm.
  unfold populate_sobject, entity_writes, max_after_entity. cbn [fst snd].
  rewrite Hf. cbn [write_rows iter_items]. unfold sess_bind, create_row, sobject_values.
  destruct (write_single_row sess (__tablename__ SObject)
              (<["actionOverrides" := VList []]> (delete "fields" sobj_data)))
    as [sess1 [[]|e]]; [|done].
  destruct fields as [|field fields]; [by destruct (sobj_data !! "name")|].
  destruct Hn as [name Hname]; [done|]. rewrite Hname.
  apply populate_fields_write_rows; try done.
  by rewrite lookup_insert_ne, lookup_delete_ne.
Qed.

Lemma populate_sobjects_write_rows full m sess :
  Forall (well_formed_entry parsedate) full → is_Some m.1 →
  populate_sobjects SObject Field parsedate full m sess
  = match write_rows sess (concat (entity_writes SObject Field <$> full)) with
    | (sess', Ok _) => (sess', Ok (foldl (max_after_entity parsedate) m full))
    | (sess', Raise e) => (sess', Raise e)
    end.
Proof.
  intros Hfull. revert m sess.
  induction Hfull as [|entry full Hentry _ IH]; intros m sess Hm; [done|].
  cbn [populate_sobjects fmap list_fmap concat foldl]. unfold sess_bind.
  rewrite populate_sobject_write_rows, write_rows_app by done.
  destruct (write_rows sess (entity_writes SObject Field entry)) as [sess1 [[]|e]];
    [|done].
  by apply IH, well_formed_entry_max.
Qed.

Lemma populate_rows_write_rows full last_modified_date sess :
  Forall (well_formed_entry parsedate) full → is_Some (parsedate last_modified_date) →
  populate_rows SObject Field FileMetadata parsedate full last_modified_date sess
  = write_rows sess
      (populate_writes SObject Field FileMetadata parsedate full last_modified_date).
Proof.
  intros Hfull Hsince. unfold populate_rows, populate_writes, sess_bind.
  rewrite populate_sobjects_write_rows, write_rows_app by done.
  destruct (write_rows sess (concat (entity_writes SObject Field <$> full)))
    as [sess1 [[]|e]]; [|done].
  cbn [write_rows]. unfold create_row, watermark, Last_Modified_row, FormatVersion_row.
  destruct (write_single_row sess1 (__tablename__ FileMetadata) _) as [sess2 [[]|e]];
    [|done].
  by destruct (write_single_row sess2 (__tablename__ FileMetadata) _) as [sess3 [[]|e]].
Qed.

Lemma reflect_nonempty db : reflect SObject Field FileMetadata db ≠ [].
Proof. done. Qed.

Lemma populate_cache_write_all schema db sf since :
  is_Some (parsedate since) →
  Forall (well_formed_entry parsedate) (deep_describe sf since (describe_names sf)) →
  populate_cache SObject Field FileMetadata parsedate schema db sf since
  = write_all db (reflect SObject Field FileMetadata db) 1000
      (populate_writes SObject Field FileMetadata parsedate
         (deep_describe sf since (describe_names sf)) since).
Proof.
  intros Hsince Hfull.
  unfold populate_cache, write_all, with_BufferedSession.
  destruct (BufferedSession_init db (reflect SObject Field FileMetadata db) 1000)
    as [sess|e]; [|done].
  by rewrite populate_rows_write_rows.
Qed.

(** X11.  On well-formed responses a reconciliation is one sequence of
    buffered writes: the entity row of every changed entity followed by
    its field rows, then the watermark row and the format version row.
    It returns exactly when every one of these inserts is accepted. *)
Theorem populate_cache_writes_rows
    (schema : Schema) (db : Store) (sf : Salesforce) (since : string) :
  is_Some (parsedate since) →
  Forall (well_formed_entry parsedate) (deep_describe sf since (describe_names sf)) →
  let ws := populate_writes SObject Field FileMetadata parsedate
              (deep_describe sf since (describe_names sf)) since in
  populate_cache SObject Field FileMetadata parsedate schema db sf since
    = write_all db (reflect SObject Field FileMetadata db) 1000 ws ∧
  (is_ok (populate_cache SObject Field FileMetadata parsedate schema db sf since).2 = true
   ↔ is_Some (unbuffered (columns_of (reflect SObject Field FileMetadata db)) ws (Some db))).
Proof.
  intros Hsince Hfull ws.
  pose proof (populate_cache_write_all schema db sf since Hsince Hfull) as Heq.
  fold ws in Heq.
  split; [done|]. rewrite Heq.
  destruct (write_all_spec db (reflect SObject Field FileMetadata db) 1000 ws)
    as [_ Hiff].
  rewrite Hiff. split; [by intros (_ & _ & ?)|]. intros Hs.
  split; [apply reflect_nonempty|]. split; [|done].
  apply populate_writes_declared.
Qed.

(** Rows that cannot be refused all go in. *)
Lemma unbuffered_accepts cols ws s :
  forallb (accepts cols s) ws = true →
  is_Some (unbuffered cols ws (Some s)).
Proof.
  revert s. induction ws as [|[t r] ws IH]; intros s; cbn [forallb unbuffered];
    [by eauto|].
  intros [Hw Hws]%andb_prop. unfold accepts in Hw. cbn [fst snd] in Hw.
  destruct (cols !! t) as [d|] eqn:Hd; [|done].
  destruct (s !! t) as [tbl|] eqn:Ht; [|done].
  assert (insert_row (tprimary_key tbl) (ton_conflict tbl) (trows tbl) (r ∪ d)
          = Ok (store_row (tprimary_key tbl) (trows tbl) (r ∪ d))) as Hins.
  { destruct (tprimary_key tbl) as [|c pk] eqn:Hpk; [done|].
    destruct (ton_conflict tbl); [done|].
    apply insert_row_replace. by apply negb_true_iff in Hw. }
  unfold exec_pending, execute_insert. cbn [mbind option_bind].
  rewrite Ht. cbn [mbind Result_bind insert_rows]. rewrite Hins.
  cbn [mbind Result_bind succ]. apply IH.
  clear IH Hins Hw. induction ws as [|[t' r'] ws IHws]; [done|].
  cbn [forallb] in *. apply andb_prop in Hws as [Hw' Hws].
  apply andb_true_intro. split; [|by apply IHws].
  unfold accepts in *. cbn [fst snd] in *.
  destruct (cols !! t') as [d'|]; [|done].
  destruct (decide (t = t')) as [<-|Hne].
  - rewrite lookup_insert_eq. rewrite Ht in Hw'.
    cbn [tprimary_key ton_conflict]. exact Hw'.
  - by rewrite lookup_insert_ne.
Qed.

(** X22.  On well-formed responses [populate_cache] returns whenever
    none of its writes can be refused: every table it writes to has no
    primary key, or a key that is declared with [REPLACE] and for which
    the row has values.  A refresh of a store that holds the rows of an
    earlier cycle then returns as well, whatever those rows are. *)
Theorem populate_cache_returns_when_rows_replace
    (schema : Schema) (db : Store) (sf : Salesforce) (since : string) :
  is_Some (parsedate since) →
  Forall (well_formed_entry parsedate) (deep_describe sf since (describe_names sf)) →
  forallb (accepts (columns_of (reflect SObject Field FileMetadata db)) db)
    (populate_writes SObject Field FileMetadata parsedate
       (deep_describe sf since (describe_names sf)) since) = true →
  ∃ db', populate_cache SObject Field FileMetadata parsedate schema db sf since
         = (db', Ok ()).
Proof.
  intros Hsince Hfull Hacc.
  rewrite (populate_cache_write_all schema db sf since Hsince Hfull).
  destruct (write_all_spec db (reflect SObject Field FileMetadata db) 1000
              (populate_writes SObject Field FileMetadata parsedate
                 (deep_describe sf since (describe_names sf)) since)) as [_ Hiff].
  destruct (write_all db (reflect SObject Field FileMetadata db) 1000 _)
    as [db' [[]|e]]; [by exists db'|].
  cbn [snd is_ok] in Hiff. exfalso.
  assert (false = true) as Hf; [|done]. apply Hiff.
  split; [apply reflect_nonempty|]. split; [apply populate_writes_declared|].
  by apply unbuffered_accepts.
Qed.

End ReconciliationRows.

(** ** What a reconciliation stores *)

Section StoredRows.

Variables SObject Field FileMetadata : Model.
Variable parsedate : string → option (list Z).

Hypothesis SObject_Field : __tablename__ SObject ≠ __tablename__ Field.
Hypothesis SObject_FileMetadata : __tablename__ SObject ≠ __tablename__ FileMetadata.
Hypothesis Field_FileMetadata : __tablename__ Field ≠ __tablename__ FileMetadata.

Implicit Types (db s : Store) (full : list (Row * string)) (t : string).

(** Every table after [populate_cache]: the rows it had and the rows
    written to it that went in, stored in their order. *)
Lemma populate_cache_lookup schema db sf since db' res :
  populate_cache SObject Field FileMetadata parsedate schema db sf since = (db', res) →
  let cols := columns_of (reflect SObject Field FileMetadata db) in
  let ws_all := populate_writes SObject Field FileMetadata parsedate
                  (deep_describe sf since (describe_names sf)) since in
  ∃ ws rest, ws_all = ws ++ rest ∧
    (∀ t, db' !! t
          = extend_table ((λ w, w.2 ∪ (cols !!! t)) <$> filter (λ w, w.1 = t) ws)
            <$> db !! t) ∧
    (is_ok res = true → rest = []).
Proof.
  intros H cols ws_all.
  apply populate_cache_spec in H as (ws & rest & Hall & Hdecl & Hdb & Hok).
  fold cols in Hdecl, Hdb, Hok. fold ws_all in Hall.
  destruct (unbuffered cols ws (Some db)) as [s'|] eqn:Eu; simpl in Hdb; subst db'.
  - exists ws, rest. split; [done|]. split; [|intros Hr; by apply Hok].
    intros t. rewrite (unbuffered_rows _ _ _ _ t Eu).
    by rewrite rows_written_filter.
  - exists [], ws_all. split; [done|]. split; [|intros Hr; by destruct (Hok Hr)].
    intros t. rewrite filter_nil. cbn [fmap list_fmap].
    destruct (db !! t) as [tbl|]; simpl; by rewrite ?extend_table_nil.
Qed.

Lemma elem_of_concat {A} (x : A) (ls : list (list A)) :
  x ∈ concat ls ↔ ∃ l, x ∈ l ∧ l ∈ ls.
Proof.
  induction ls as [|l0 ls IH]; cbn [concat].
  - split; [by intros ?%elem_of_nil|]. by intros (l & _ & ?%elem_of_nil).
  - rewrite elem_of_app, IH. split.
    + intros [H|(l & Hx & Hl)]; [exists l0; split; [done|left]|].
      exists l. split; [done|by right].
    + intros (l & Hx & [->|Hl]%elem_of_cons); [by left|right; eauto].
Qed.

(** A field row was made of a field that one of the changed entities
    lists, and carries that entity's name. *)
Lemma field_writes_elem (name : value) (fields : list value) (w : string * Row) :
  w ∈ field_writes Field name fields →
  ∃ d, VDict d ∈ fields ∧ w = (__tablename__ Field, <["sobject" := name]> (dict_of_items d)).
Proof.
  induction fields as [|[| | | | |d] fields IH]; cbn [field_writes];
    try by intros ?%elem_of_nil.
  intros [->|Hin]%elem_of_cons.
  - exists d. split; [left|done].
  - destruct (IH Hin) as (d' & Hd' & ->). exists d'. split; [by right|done].
Qed.

Lemma field_writes_all (name : value) (fields : list value) (d : list (string * value)) :
  Forall (λ field, ∃ d, field = VDict d) fields →
  VDict d ∈ fields →
  (__tablename__ Field, <["sobject" := name]> (dict_of_items d))
    ∈ field_writes Field name fields.
Proof.
  induction 1 as [|field fields [d0 ->] _ IH]; [by intros ?%elem_of_nil|].
  cbn [field_writes]. intros [[= ->]|Hin]%elem_of_cons; [left|right; by apply IH].
Qed.

Lemma populate_writes_Field full since (w : string * Row) :
  w ∈ populate_writes SObject Field FileMetadata parsedate full since →
  w.1 = __tablename__ Field →
  ∃ entry fields name d,
    entry ∈ full ∧ entry.1 !! "fields" = Some (VList fields) ∧ VDict d ∈ fields ∧
    entry.1 !! "name" = Some name ∧
    w = (__tablename__ Field, <["sobject" := name]> (dict_of_items d)).
Proof.
  unfold populate_writes. intros [Hin|Hin]%elem_of_app Hw.
  - apply elem_of_concat in Hin as (ws & Hin & (entry & -> & Hentry)%list_elem_of_fmap).
    unfold entity_writes in Hin. apply elem_of_cons in Hin as [->|Hin].
    { simpl in Hw. congruence. }
    destruct (entry.1 !! "fields") as [[| | | |fields|]|] eqn:Ef;
      try by apply elem_of_nil in Hin.
    destruct (entry.1 !! "name") as [name|] eqn:En; [|by apply elem_of_nil in Hin].
    apply field_writes_elem in Hin as (d & Hd & ->).
    by exists entry, fields, name, d.
  - exfalso. apply elem_of_cons in Hin as [->|Hin]; [simpl in Hw; congruence|].
    apply list_elem_of_singleton in Hin as ->. simpl in Hw. congruence.
Qed.

Lemma populate_writes_Field_all full since (entry : Row * string)
    (fields : list value) (name : value) (d : list (string * value)) :
  entry ∈ full → entry.1 !! "fields" = Some (VList fields) →
  Forall (λ field, ∃ d, field = VDict d) fields →
  VDict d ∈ fields → entry.1 !! "name" = Some name →
  (__tablename__ Field, <["sobject" := name]> (dict_of_items d))
    ∈ populate_writes SObject Field FileMetadata parsedate full since.
Proof.
  intros Hentry Hf Hdicts Hd Hn. unfold populate_writes.
  apply elem_of_app. left. apply elem_of_concat.
  exists (entity_writes SObject Field entry). split.
  - unfold entity_writes. rewrite Hf, Hn. right. by apply field_writes_all.
  - apply list_elem_of_fmap. by exists entry.
Qed.

(** X12.  Every row of the field table after [populate_cache] was there
    before or was made of a field that a changed entity lists, and it
    carries that entity's name in its [sobject] column.  When
    [populate_cache] returns, the row of every field of a changed entity
    is in the table, provided the field rows differ in the key of the
    table. *)
Theorem field_rows_name_their_entity
    (schema : Schema) (db : Store) (sf : Salesforce) (since : string)
    (db' : Store) (res : Result unit) (tbl : Table) :
  db !! __tablename__ Field = Some tbl →
  populate_cache SObject Field FileMetadata parsedate schema db sf since = (db', res) →
  let full := deep_describe sf since (describe_names sf) in
  let field_row := λ (name : value) (d : list (string * value)),
                     <["sobject" := name]> (dict_of_items d)
                       ∪ none_row (model_columns Field) in
  let written :=
    (λ w : string * Row, w.2 ∪ none_row (model_columns Field))
      <$> filter (λ w : string * Row, w.1 = __tablename__ Field)
            (populate_writes SObject Field FileMetadata parsedate full since) in
  (∀ name d, field_row name d !! "sobject" = Some name) ∧
  ∃ tbl',
    db' !! __tablename__ Field = Some tbl' ∧
    (∀ r, r ∈ trows tbl' →
       r ∈ trows tbl ∨
       ∃ entry fields name d,
         entry ∈ full ∧ entry.1 !! "fields" = Some (VList fields) ∧
         VDict d ∈ fields ∧ entry.1 !! "name" = Some name ∧ r = field_row name d) ∧
    (res = Ok () →
     tprimary_key tbl = [] ∨ NoDup (row_key (tprimary_key tbl) <$> written) →
     ∀ entry fields name d,
       entry ∈ full → entry.1 !! "fields" = Some (VList fields) →
       Forall (λ field, ∃ d, field = VDict d) fields →
       VDict d ∈ fields → entry.1 !! "name" = Some name →
       field_row name d ∈ trows tbl').
Proof.
  intros Htbl H full field_row written. split.
  { intros name d. apply lookup_union_Some_l. by rewrite lookup_insert_eq. }
  apply populate_cache_lookup in H as (ws & rest & Hall & Hdb & Hok).
  fold full in Hall. specialize (Hdb (__tablename__ Field)).
  rewrite lookup_total_alt, reflect_columns_Field, Htbl in Hdb by done.
  cbn [from_option id fmap option_fmap option_map] in Hdb.
  eexists. split; [exact Hdb|]. cbn [extend_table trows]. split.
  - intros r [Hr|(w & -> & Hw)%list_elem_of_fmap]%elem_of_store_rows; [by left|right].
    apply list_elem_of_filter in Hw as [Hw1 Hw].
    destruct (populate_writes_Field full since w)
      as (entry & fields & name & d & Hentry & Hf & Hd & Hn & ->);
      [rewrite Hall; apply elem_of_app; by left|done|].
    by exists entry, fields, name, d.
  - intros -> Hkeys entry fields name d Hentry Hf Hdicts Hd Hn.
    rewrite (Hok eq_refl), app_nil_r in Hall. subst ws. fold written.
    assert (field_row name d ∈ written) as Hin.
    { apply list_elem_of_fmap.
      exists (__tablename__ Field, <["sobject" := name]> (dict_of_items d)).
      split; [done|]. apply list_elem_of_filter. split; [done|].
      by eapply populate_writes_Field_all. }
    destruct Hkeys as [Hpk|Hnd].
    + rewrite Hpk, store_rows_nil_key. apply elem_of_app. by right.
    + by apply store_rows_new.
Qed.

(** X13.  When no describe request is answered with status 200, nothing
    is taken for changed: the entity table and the field table stay as
    they are, and the reconciliation only writes the watermark row, with
    the baseline it was given, and the format version row.  In a metadata
    table keyed by name they take the place of the rows of earlier
    cycles, and the watermark lookup gives the baseline again. *)
Theorem unchanged_remote_writes_only_metadata
    (schema : Schema) (db : Store) (sf : Salesforce) (since : string)
    (db' : Store) (res : Result unit) :
  Forall (λ response, httpStatusCode response ≠ 200%Z)
    (do_composite_requests sf (if bool_decide (since = "") then y2k else since)
       (describe_names sf)) →
  populate_cache SObject Field FileMetadata parsedate schema db sf since = (db', res) →
  let defaults := none_row (model_columns FileMetadata) in
  db' !! __tablename__ SObject = db !! __tablename__ SObject ∧
  db' !! __tablename__ Field = db !! __tablename__ Field ∧
  ∃ new,
    db' !! __tablename__ FileMetadata
      = extend_table new <$> db !! __tablename__ FileMetadata ∧
    new `prefix_of` [Last_Modified_row since ∪ defaults; FormatVersion_row ∪ defaults] ∧
    (res = Ok () →
       new = [Last_Modified_row since ∪ defaults; FormatVersion_row ∪ defaults] ∧
       ∀ tbl, db !! __tablename__ FileMetadata = Some tbl →
              tprimary_key tbl = ["name"] →
         ∃ tbl', db' !! __tablename__ FileMetadata = Some tbl' ∧
           filter_by_name "Last-Modified" (trows tbl')
             = [Last_Modified_row since ∪ defaults] ∧
           filter_by_name "FormatVersion" (trows tbl') = [FormatVersion_row ∪ defaults] ∧
           ∀ c f, last_modified_date FileMetadata (mkSchema c VNone f) db'
                  = (mkSchema c (VStr since) f, Ok (VStr since))).
Proof.
  intros Hnone H defaults.
  assert (deep_describe sf since (describe_names sf) = []) as Hfull.
  { unfold deep_describe. by rewrite filter_none. }
  apply populate_cache_lookup in H as (ws & rest & Hall & Hdb & Hok).
  rewrite Hfull in Hall. unfold populate_writes, watermark in Hall.
  cbn [fmap list_fmap concat app foldl snd] in Hall.
  assert (Forall (λ w : string * Row, w.1 = __tablename__ FileMetadata) ws) as Hws.
  { assert (Forall (λ w : string * Row, w.1 = __tablename__ FileMetadata) (ws ++ rest))
      as Hf by (rewrite <- Hall; by repeat constructor).
    by apply Forall_app in Hf as [? _]. }
  split_and!.
  - rewrite Hdb, filter_none.
    + destruct (db !! __tablename__ SObject); simpl; by rewrite ?extend_table_nil.
    + eapply Forall_impl; [done|]. simpl. intros w ->. congruence.
  - rewrite Hdb, filter_none.
    + destruct (db !! __tablename__ Field); simpl; by rewrite ?extend_table_nil.
    + eapply Forall_impl; [done|]. simpl. intros w ->. congruence.
  - specialize (Hdb (__tablename__ FileMetadata)).
    rewrite filter_all in Hdb by done.
    rewrite lookup_total_alt, reflect_columns_FileMetadata in Hdb.
    cbn [from_option id] in Hdb. fold defaults in Hdb.
    eexists. split; [exact Hdb|]. split.
    + exists ((λ w, w.2 ∪ defaults) <$> rest).
      rewrite <- fmap_app, <- Hall. done.
    + intros ->. rewrite (Hok eq_refl), app_nil_r in Hall. subst ws.
      cbn [fmap list_fmap snd] in Hdb |- *. split; [done|].
      intros tbl Htbl Hpk. rewrite Htbl in Hdb.
      cbn [fmap option_fmap option_map] in Hdb.
      assert (filter_by_name "Last-Modified"
                (trows (extend_table
                   [Last_Modified_row since ∪ defaults; FormatVersion_row ∪ defaults]
                   tbl))
              = [Last_Modified_row since ∪ defaults]) as Hlm.
      { cbn [extend_table trows]. rewrite Hpk, filter_by_name_store_rows.
        rewrite (metadata_rows_Last_Modified since defaults). reflexivity. }
      eexists. split; [exact Hdb|]. split; [exact Hlm|]. split.
      * cbn [extend_table trows]. rewrite Hpk, filter_by_name_store_rows.
        rewrite (metadata_rows_FormatVersion since defaults). reflexivity.
      * intros c f. unfold last_modified_date, query. cbn [truthy _last_modified_date].
        rewrite Hdb. cbn [mbind Result_bind]. rewrite Hlm. cbn [one].
        unfold attr. by rewrite Last_Modified_row_value.
Qed.

Lemma FormatVersion_row_value (defaults : Row) :
  (FormatVersion_row ∪ defaults) !! "value" = Some (VInt 1).
Proof.
  apply lookup_union_Some_l. unfold FormatVersion_row.
  rewrite lookup_insert_ne by done. by rewrite lookup_insert_eq.
Qed.

(** The two metadata rows never share a key: a key column other than
    the name and the value is empty in both. *)
Lemma metadata_keys_differ (c : string) (pk colnames : list string) (w : string) :
  has_null (row_key (c :: pk) (Last_Modified_row w ∪ none_row colnames)) = false →
  row_key (c :: pk) (Last_Modified_row w ∪ none_row colnames)
  ≠ row_key (c :: pk) (FormatVersion_row ∪ none_row colnames).
Proof.
  unfold row_key, has_null. cbn [fmap list_fmap existsb].
  intros Hn Heq. apply orb_false_elim in Hn as [Hnull _].
  apply (f_equal head) in Heq. cbn [head] in Heq.
  apply (inj Some) in Heq. rename Heq into Hc.
  destruct (decide (c = "name")) as [->|Hname].
  { rewrite Last_Modified_row_name, FormatVersion_row_name in Hc. discriminate Hc. }
  destruct (decide (c = "value")) as [->|Hvalue].
  { rewrite Last_Modified_row_value, FormatVersion_row_value in Hc. discriminate Hc. }
  rewrite lookup_union_r in Hnull.
  - clear Hc. rewrite none_row_lookup in Hnull.
    destruct (decide (c ∈ colnames)); discriminate Hnull.
  - unfold Last_Modified_row. rewrite !lookup_insert_ne by congruence.
    apply lookup_empty.
Qed.

Lemma filter_by_name_filter_nil name (Q : Row → Prop) `{!∀ x, Decision (Q x)}
    (rows : list Row) :
  filter_by_name name rows = [] → filter_by_name name (filter Q rows) = [].
Proof.
  unfold filter_by_name. intros Hnil. rewrite list_filter_filter.
  apply filter_none, Forall_forall. intros x Hx [Hn _].
  assert (x ∈ filter (λ r : Row, r !! "name" = Some (VStr name)) rows) as Hin
    by by apply list_elem_of_filter.
  rewrite Hnil in Hin. by apply elem_of_nil in Hin.
Qed.

Lemma filter_by_name_app name (a b : list Row) :
  filter_by_name name (a ++ b) = filter_by_name name a ++ filter_by_name name b.
Proof. apply filter_app. Qed.

(** The watermark row among the rows of a table that took the two
    metadata rows and had no watermark row before. *)
Lemma metadata_rows_stored pk oc rows rows' (colnames : list string) (w : string) :
  filter_by_name "Last-Modified" rows = [] →
  insert_rows pk oc rows
    [Last_Modified_row w ∪ none_row colnames; FormatVersion_row ∪ none_row colnames]
  = Ok rows' →
  filter_by_name "Last-Modified" rows' = [Last_Modified_row w ∪ none_row colnames].
Proof.
  intros Hnone. cbn [insert_rows].
  destruct (insert_row pk oc rows _) as [rows1|] eqn:E1; [|done].
  cbn [mbind Result_bind].
  destruct (insert_row pk oc rows1 _) as [rows2|] eqn:E2; [|done].
  cbn [mbind Result_bind]. intros [= <-].
  destruct pk as [|c pk].
  - apply insert_row_ok in E1 as ->. apply insert_row_ok in E2 as ->.
    unfold store_row. rewrite <- app_assoc. cbn [app].
    rewrite filter_by_name_app, Hnone.
    apply (metadata_rows_Last_Modified w (none_row colnames)).
  - apply insert_row_keyed in E1 as [Hn1 ->]; [|done].
    apply insert_row_keyed in E2 as [_ ->]; [|done].
    pose proof (metadata_keys_differ c pk colnames w Hn1) as Hne.
    rewrite filter_app, (filter_cons _ (Last_Modified_row w ∪ none_row colnames)),
      filter_nil, decide_True by done.
    rewrite <- app_assoc. cbn [app].
    rewrite filter_by_name_app.
    rewrite filter_by_name_filter_nil;
      [|apply filter_by_name_filter_nil; exact Hnone].
    apply (metadata_rows_Last_Modified w (none_row colnames)).
Qed.

(** The watermark lookup after a reconciliation that returned, on a
    database that held no watermark row before. *)
Lemma populate_cache_watermark_row schema db sf since db' (tbl : Table) c f :
  db !! __tablename__ FileMetadata = Some tbl →
  filter_by_name "Last-Modified" (trows tbl) = [] →
  populate_cache SObject Field FileMetadata parsedate schema db sf since = (db', Ok ()) →
  let w := (watermark parsedate (deep_describe sf since (describe_names sf)) since).2 in
  last_modified_date FileMetadata (mkSchema c VNone f) db'
  = (mkSchema c (VStr w) f, Ok (VStr w)).
Proof.
  intros Htbl Hnone H w.
  destruct (populate_cache_metadata_rows SObject Field FileMetadata parsedate
              _ _ _ _ _ _ (not_eq_sym SObject_FileMetadata)
              (not_eq_sym Field_FileMetadata) Htbl H) as [Hdb Hacc].
  fold w in Hdb, Hacc.
  apply metadata_rows_stored in Hacc; [|done].
  unfold last_modified_date, query. cbn [truthy _last_modified_date].
  rewrite Hdb. cbn [mbind Result_bind]. rewrite Hacc. cbn [one].
  unfold attr. by rewrite Last_Modified_row_value.
Qed.

(** X14.  The watermark that a reconciliation records, on well-formed
    timestamps: it is the baseline or the timestamp of a changed entity
    that has fields, and neither the baseline nor the timestamp of any
    changed entity with fields is later than it. *)
Theorem recorded_watermark_is_latest
    (schema : Schema) (db : Store) (sf : Salesforce) (since : string)
    (db' : Store) (tbl : Table) :
  db !! __tablename__ FileMetadata = Some tbl →
  filter_by_name "Last-Modified" (trows tbl) = [] →
  is_Some (parsedate since) →
  Forall (λ entry, is_Some (parsedate entry.2)) (deep_describe sf since (describe_names sf)) →
  populate_cache SObject Field FileMetadata parsedate schema db sf since = (db', Ok ()) →
  ∃ w,
    (last_modified_date FileMetadata Schema_init db').2 = Ok (VStr w) ∧
    (w = since ∨
     ∃ entry, entry ∈ deep_describe sf since (describe_names sf) ∧
              has_fields entry = true ∧ w = entry.2) ∧
    sortable_gt (stamp parsedate since) (stamp parsedate w) = Ok false ∧
    ∀ entry, entry ∈ deep_describe sf since (describe_names sf) →
      has_fields entry = true →
      sortable_gt (stamp parsedate entry.2) (stamp parsedate w) = Ok false.
Proof.
  intros Htbl Hnone Hsince Hfull H.
  pose proof (populate_cache_watermark_row _ _ _ _ _ _ real_commit false Htbl Hnone H)
    as Hlm. cbn zeta in Hlm.
  destruct (watermark_is_maximum parsedate _ since Hsince Hfull) as (Hw & Hs & Hmax).
  set (wm := watermark parsedate (deep_describe sf since (describe_names sf)) since) in *.
  assert (wm = stamp parsedate wm.2) as Hwm.
  { destruct Hw as [->|(entry & _ & _ & ->)]; done. }
  exists wm.2. split; [unfold Schema_init; by rewrite Hlm|]. split.
  - destruct Hw as [->|(entry & Hin & Hf & ->)]; [by left|right; eauto].
  - rewrite <- Hwm. done.
Qed.


End StoredRows.

(** ** The refresh cycle *)

Section RefreshCycle.

Variables SObject Field FileMetadata : Model.
Variable parsedate : string → option (list Z).

Implicit Types (w : World) (s db : Store) (schema : Schema).

(** An artifact that holds a database whose first entity row has a name
    is loaded. *)
Lemma load_from_cache_Gz_Db w s (tbl : Table) (r : Row) (rest : list Row) :
  schema_path w = Some (Gz (Db s)) →
  s !! __tablename__ SObject = Some tbl →
  trows tbl = r :: rest →
  truthy (attr r "name") = true →
  load_from_cache SObject w
  = (mkWorld (schema_path w) (Some (Db s)), Some (mkSchema real_commit VNone true)).
Proof.
  intros Hp Hs Hrows Hname. unfold load_from_cache, unzip_database. rewrite Hp.
  unfold liveness_check, sobjects, query. cbn [tempfile sqlite_open mbind Result_bind].
  rewrite Hs. cbn [mbind Result_bind]. by rewrite Hrows, Hname.
Qed.

(** Nothing else is. *)
Lemma load_from_cache_Some w w1 schema :
  load_from_cache SObject w = (w1, Some schema) →
  ∃ s tbl r rest,
    schema_path w = Some (Gz (Db s)) ∧
    s !! __tablename__ SObject = Some tbl ∧
    trows tbl = r :: rest ∧
    truthy (attr r "name") = true.
Proof.
  unfold load_from_cache, unzip_database.
  destruct (schema_path w) as [[[|b0 b]|s|f|f]|]; try done.
  unfold liveness_check, sobjects, query. cbn [tempfile].
  destruct f as [b|s|f|f]; cbn [sqlite_open mbind Result_bind]; try done.
  - destruct b; cbn [mbind Result_bind]; [|done]. by rewrite lookup_empty.
  - destruct (s !! __tablename__ SObject) as [tbl|] eqn:Hs; cbn [mbind Result_bind];
      [|done].
    destruct (trows tbl) as [|r rest] eqn:Hrows; [done|].
    destruct (truthy (attr r "name")) eqn:Hname; [|done].
    intros _. by exists s, tbl, r, rest.
Qed.

(** X16.  Which artifacts are taken from the cache: exactly the gzipped
    databases whose entity table has a first row with a true name.  The
    scratch file then holds the unzipped database, the artifact stays in
    place and the handle is marked as coming from the cache. *)
Theorem load_from_cache_succeeds_iff (w w1 : World) (schema : Schema) :
  load_from_cache SObject w = (w1, Some schema)
  ↔ ∃ s tbl r rest,
      schema_path w = Some (Gz (Db s)) ∧
      s !! __tablename__ SObject = Some tbl ∧
      trows tbl = r :: rest ∧
      truthy (attr r "name") = true ∧
      w1 = mkWorld (schema_path w) (Some (Db s)) ∧
      schema = mkSchema real_commit VNone true.
Proof.
  split.
  - intros H.
    destruct (load_from_cache_Some _ _ _ H) as (s & tbl & r & rest & Hp & Hs & Hr & Hn).
    rewrite (load_from_cache_Gz_Db _ _ _ _ _ Hp Hs Hr Hn) in H.
    injection H as <- <-. by exists s, tbl, r, rest.
  - intros (s & tbl & r & rest & Hp & Hs & Hr & Hn & -> & ->).
    by eapply load_from_cache_Gz_Db.
Qed.

(** What the load leaves of the artifact: the artifact or nothing, and no
    scratch database that could be opened unless the load succeeded. *)
Lemma load_from_cache_world w w1 (o : option Schema) :
  tempfile w = None →
  load_from_cache SObject w = (w1, o) →
  (schema_path w1 = schema_path w ∨ schema_path w1 = None) ∧
  (o = None → sqlite_open (tempfile w1) = Ok ∅).
Proof.
  intros Ht. unfold load_from_cache, unzip_database.
  destruct (schema_path w) as [[[|b0 b]|s|f|f]|] eqn:Hp;
    try (intros [= <- <-]; cbn [schema_path tempfile]; rewrite ?Ht; by auto);
    destruct (liveness_check SObject Schema_init _) as [[]|e]; intros [= <- <-];
    cbn [schema_path tempfile]; (split; [by auto|by intros]).
Qed.

(** The cycle after a successful load: the reconciliation runs on the
    loaded database, from the baseline that the handle gives. *)
Lemma get_org_schema_loaded (sf : Salesforce) w s (tbl : Table) (r : Row)
    (rest : list Row) :
  schema_path w = Some (Gz (Db s)) →
  s !! __tablename__ SObject = Some tbl →
  trows tbl = r :: rest →
  truthy (attr r "name") = true →
  get_org_schema SObject Field FileMetadata parsedate sf false w
  = match baseline FileMetadata (mkSchema real_commit VNone true) s with
    | (_, Raise e) => (mkWorld (schema_path w) None, Raise e)
    | (schema, Ok since) =>
        match populate_cache SObject Field FileMetadata parsedate schema s sf since with
        | (_, Raise e) => (mkWorld (schema_path w) None, Raise e)
        | (db', Ok _) =>
            (mkWorld (Some (Gz (Db db'))) (Some (Db db')), Ok (block_writing schema))
        end
    end.
Proof.
  intros Hp Hs Hrows Hname. unfold get_org_schema. cbn [schema_path].
  rewrite Hp.
  rewrite (load_from_cache_Gz_Db (mkWorld (Some (Gz (Db s))) None) s tbl r rest)
    by done.
  cbn [schema_path tempfile sqlite_open mbind Result_bind].
  destruct (baseline FileMetadata (mkSchema real_commit VNone true) s)
    as [schema [since|e]]; [|done].
  by destruct (populate_cache SObject Field FileMetadata parsedate schema s sf since)
    as [db' [[]|e]].
Qed.

Lemma baseline_handle schema db :
  from_cache (baseline FileMetadata schema db).1 = from_cache schema ∧
  session_commit (baseline FileMetadata schema db).1 = session_commit schema.
Proof.
  unfold baseline, last_modified_date.
  destruct (truthy (_last_modified_date schema)) eqn:Et.
  - rewrite Et. by destruct (_last_modified_date schema).
  - destruct (rows ← query FileMetadata db; one (filter_by_name "Last-Modified" rows))
      as [r|e].
    + destruct (truthy (attr r "value")); [|done]. by destruct (attr r "value").
    + destruct e; try done. rewrite Et. done.
Qed.

(** The first part of [get_org_schema], up to the choice between the
    loaded and a fresh database. *)
Lemma preload_None (force_recache : bool) w w1 :
  (let w0 := mkWorld (if force_recache then None else schema_path w) None in
   match schema_path w0 with
   | Some _ => load_from_cache SObject w0
   | None => (w0, None)
   end) = (w1, None) →
  sqlite_open (tempfile w1) = Ok ∅ ∧
  (schema_path w1 = schema_path w ∨ schema_path w1 = None) ∧
  (force_recache = true → schema_path w1 = None).
Proof.
  cbn zeta. cbn [schema_path].
  destruct force_recache; [by intros [= <-]; auto|].
  destruct (schema_path w) as [art|] eqn:Hp; [|intros [= <-]; by auto].
  intros H. apply load_from_cache_world in H as [Hs Ho]; [|done].
  cbn [schema_path] in Hs. split; [by apply Ho|]. by split.
Qed.

Lemma preload_Some (force_recache : bool) w w1 schema0 :
  (let w0 := mkWorld (if force_recache then None else schema_path w) None in
   match schema_path w0 with
   | Some _ => load_from_cache SObject w0
   | None => (w0, None)
   end) = (w1, Some schema0) →
  force_recache = false ∧
  ∃ s tbl r rest,
    schema_path w = Some (Gz (Db s)) ∧
    s !! __tablename__ SObject = Some tbl ∧
    trows tbl = r :: rest ∧
    truthy (attr r "name") = true.
Proof.
  cbn zeta. cbn [schema_path].
  destruct force_recache; [done|].
  destruct (schema_path w) as [art|] eqn:Hp; [|done].
  intros (s & tbl & r & rest & Hp' & H)%load_from_cache_Some.
  cbn [schema_path] in Hp'. injection Hp' as ->. split; [done|].
  by exists s, tbl, r, rest.
Qed.

(** X17.  With [force_recache] the artifact is removed before anything
    is fetched: the cycle is a rebuild from the epoch that does not depend
    on the files it finds, and when the reconciliation raises, no artifact
    is left. *)
Theorem force_recache_ignores_the_artifact (sf : Salesforce) (w : World) :
  get_org_schema SObject Field FileMetadata parsedate sf true w
    = rebuild SObject Field FileMetadata parsedate sf None ∧
  (∀ w2, get_org_schema SObject Field FileMetadata parsedate sf true w2
         = get_org_schema SObject Field FileMetadata parsedate sf true w) ∧
  (∀ db' e,
     populate_cache SObject Field FileMetadata parsedate Schema_init
       (create_all SObject Field FileMetadata ∅) sf y2k = (db', Raise e) →
     get_org_schema SObject Field FileMetadata parsedate sf true w
     = (mkWorld None None, Raise e)).
Proof.
  assert (∀ w0, get_org_schema SObject Field FileMetadata parsedate sf true w0
                = rebuild SObject Field FileMetadata parsedate sf None) as Hfresh.
  { intros w0.
    by rewrite (get_org_schema_fresh SObject Field FileMetadata parsedate
                  sf true w0 (mkWorld None None)). }
  split; [apply Hfresh|]. split; [intros w2; by rewrite !Hfresh|].
  intros db' e Hpop. rewrite Hfresh. unfold rebuild. by rewrite Hpop.
Qed.

(** X18.  What [get_org_schema] yields: a handle whose commit is blocked,
    with the artifact holding the gzip of the scratch database, so that
    unzipping the artifact gives the scratch database back; and a handle
    marked as coming from the cache only when the artifact was loaded. *)
Theorem get_org_schema_yields_frozen_saved_schema
    (sf : Salesforce) (force_recache : bool) (w w' : World) (schema : Schema) :
  get_org_schema SObject Field FileMetadata parsedate sf force_recache w
    = (w', Ok schema) →
  Schema_session_commit schema = Raise IOError ∧
  (∃ db', w' = mkWorld (Some (Gz (Db db'))) (Some (Db db')) ∧
          unzip_database (release w') = (w', Ok ())) ∧
  (from_cache schema = true →
     force_recache = false ∧ ∃ s, schema_path w = Some (Gz (Db s))).
Proof.
  intros H.
  destruct (let w0 := mkWorld (if force_recache then None else schema_path w) None in
            match schema_path w0 with
            | Some _ => load_from_cache SObject w0
            | None => (w0, None)
            end) as [w1 [schema0|]] eqn:E.
  - apply preload_Some in E as (-> & s & tbl & r & rest & Hp & Hs & Hr & Hn).
    rewrite (get_org_schema_loaded sf w s tbl r rest Hp Hs Hr Hn) in H.
    pose proof (baseline_handle (mkSchema real_commit VNone true) s) as [Hfc _].
    destruct (baseline FileMetadata (mkSchema real_commit VNone true) s)
      as [sch [since|e]]; [|done].
    destruct (populate_cache SObject Field FileMetadata parsedate sch s sf since)
      as [db' [[]|e]]; [|done].
    injection H as <- <-. split; [done|]. split; [by exists db'|].
    intros _. split; [done|]. by exists s.
  - pose proof (preload_None _ _ _ E) as (Ho & _ & _).
    rewrite (get_org_schema_fresh SObject Field FileMetadata parsedate
               sf force_recache w w1 E Ho) in H.
    unfold rebuild in H.
    destruct (populate_cache SObject Field FileMetadata parsedate Schema_init
                (create_all SObject Field FileMetadata ∅) sf y2k) as [db' [[]|e]];
      [|done].
    injection H as <- <-. split; [done|]. split; [by exists db'|]. done.
Qed.

(** X19.  When the reconciliation of a loaded artifact raises, the
    cycle raises with the same exception, has written no artifact and
    leaves no scratch database: the artifact is the one that was loaded,
    untouched, and the next cycle loads it again. *)
Theorem failed_refresh_writes_no_artifact
    (sf : Salesforce) (w : World) (s : Store) (tbl : Table) (r : Row)
    (rest : list Row) (schema : Schema) (since : string) (db' : Store)
    (e : Exception) :
  schema_path w = Some (Gz (Db s)) →
  s !! __tablename__ SObject = Some tbl →
  trows tbl = r :: rest →
  truthy (attr r "name") = true →
  baseline FileMetadata (mkSchema real_commit VNone true) s = (schema, Ok since) →
  populate_cache SObject Field FileMetadata parsedate schema s sf since
    = (db', Raise e) →
  get_org_schema SObject Field FileMetadata parsedate sf false w
    = (mkWorld (schema_path w) None, Raise e) ∧
  load_from_cache SObject
    (release (get_org_schema SObject Field FileMetadata parsedate sf false w).1)
  = (mkWorld (schema_path w) (Some (Db s)), Some (mkSchema real_commit VNone true)).
Proof.
  intros Hp Hs Hr Hn Hb Hpop.
  assert (get_org_schema SObject Field FileMetadata parsedate sf false w
          = (mkWorld (schema_path w) None, Raise e)) as Hget.
  { by rewrite (get_org_schema_loaded sf w s tbl r rest Hp Hs Hr Hn), Hb, Hpop. }
  split; [done|]. rewrite Hget. cbn [fst]. unfold release. cbn [schema_path].
  by rewrite (load_from_cache_Gz_Db (mkWorld (schema_path w) None) s tbl r rest).
Qed.

(** X20.  The watermark of a loaded artifact becomes the baseline of the
    cycle: the describe requests are conditional on it, the loaded
    database is reconciled as it is, without creating tables, and the
    handle that is yielded has cached the watermark it read before the
    reconciliation. *)
Theorem cached_watermark_is_the_baseline
    (sf : Salesforce) (w : World) (s : Store) (tbl mtbl : Table)
    (r mrow : Row) (rest : list Row) (since : string) :
  schema_path w = Some (Gz (Db s)) →
  s !! __tablename__ SObject = Some tbl →
  trows tbl = r :: rest →
  truthy (attr r "name") = true →
  s !! __tablename__ FileMetadata = Some mtbl →
  filter_by_name "Last-Modified" (trows mtbl) = [mrow] →
  attr mrow "value" = VStr since →
  since ≠ "" →
  get_org_schema SObject Field FileMetadata parsedate sf false w
  = match populate_cache SObject Field FileMetadata parsedate
            (mkSchema real_commit (VStr since) true) s sf since with
    | (_, Raise e) => (mkWorld (schema_path w) None, Raise e)
    | (db', Ok _) =>
        (mkWorld (Some (Gz (Db db'))) (Some (Db db')),
         Ok (mkSchema closed (VStr since) true))
    end.
Proof.
  intros Hp Hs Hr Hn Hm Hrow Hval Hne.
  rewrite (get_org_schema_loaded sf w s tbl r rest Hp Hs Hr Hn).
  unfold baseline, last_modified_date, query. cbn [_last_modified_date truthy].
  rewrite Hm. cbn [mbind Result_bind]. rewrite Hrow. cbn [one].
  rewrite Hval. cbn [truthy]. rewrite bool_decide_false by done. cbn [negb].
  cbn [session_commit from_cache]. done.
Qed.

End RefreshCycle.

(** * The statements on sample data *)

Example sample_session_init :
  BufferedSession_init fresh_store sample_metadata 1000 = Ok sample_session.
Proof. reflexivity. Qed.


Lemma write_single_row_fills_columns_witness :
  columns sample_session = columns_of sample_metadata ∧
  NoDup sample_metadata.*1 ∧
  ("fields", ["sobject"; "name"; "label"; "type"]) ∈ sample_metadata ∧
  ∃ sess1 row',
    buffer_row sample_session "fields" (<["name" := VStr "Id"]> ∅) = Ok sess1 ∧
    buffered_rows sess1 !!! "fields" = buffered_rows sample_session !!! "fields" ++ [row'] ∧
    write_single_row sample_session "fields" (<["name" := VStr "Id"]> ∅)
      = (if bool_decide (Z.of_nat (length (buffered_rows sess1 !!! "fields"))
                           > max_buffer_size sample_session)%Z
         then flush sess1 else (sess1, Ok ())) ∧
    (∀ c, c ∈ ["sobject"; "name"; "label"; "type"] → is_Some (row' !! c)) ∧
    (∀ c v, (<["name" := VStr "Id"]> ∅ : Row) !! c = Some v → row' !! c = Some v) ∧
    (∀ c, c ∈ ["sobject"; "name"; "label"; "type"] →
          (<["name" := VStr "Id"]> ∅ : Row) !! c = None → row' !! c = Some VNone).
Proof.
  assert (NoDup sample_metadata.*1) as Hnd.
  { apply (bool_decide_unpack _). vm_compute. exact I. }
  assert (("fields", ["sobject"; "name"; "label"; "type"]) ∈ sample_metadata) as Hin.
  { apply (bool_decide_unpack _). vm_compute. exact I. }
  split; [reflexivity|]. split; [exact Hnd|]. split; [exact Hin|].
  exact (write_single_row_fills_columns sample_session sample_metadata "fields"
           ["sobject"; "name"; "label"; "type"] (<["name" := VStr "Id"]> ∅)
           eq_refl Hnd Hin).
Defined.

Lemma getitem_found_or_KeyError_witness :
  let tbl := sobjects_table seeded_store in
  let found := __getitem__ SObject_model Schema_init seeded_store "Account" in
  seeded_store !! __tablename__ SObject_model = Some tbl ∧
  (∀ r, found = Ok r ↔ filter_by_name "Account" (trows tbl) = [r]) ∧
  (found = Raise KeyError
     ↔ ∀ r, r ∈ trows tbl → r !! "name" ≠ Some (VStr "Account")) ∧
  (NoDup ((λ r : Row, r !! "name") <$> trows tbl) →
     (∀ r, found = Ok r ↔ r ∈ trows tbl ∧ r !! "name" = Some (VStr "Account")) ∧
     (∀ e, found = Raise e → e = KeyError)).
Proof.
  intros tbl found.
  assert (seeded_store !! __tablename__ SObject_model = Some tbl) as Htbl
    by (vm_compute; reflexivity).
  split; [exact Htbl|].
  exact (getitem_found_or_KeyError SObject_model Schema_init seeded_store tbl
           "Account" Htbl).
Defined.

Example seeded_names_unique :
  NoDup ((λ r : Row, r !! "name") <$> trows (sobjects_table seeded_store)).
Proof. apply (bool_decide_unpack _). vm_compute. exact I. Qed.

Example getitem_Account :
  (λ r, attr r "label") <$> __getitem__ SObject_model Schema_init seeded_store "Account"
  = Ok (VStr "Old").
Proof. vm_compute; reflexivity. Qed.

Example getitem_missing :
  __getitem__ SObject_model Schema_init seeded_store "Contact" = Raise KeyError.
Proof. vm_compute; reflexivity. Qed.

(** A cycle on a fresh store against a remote system whose payload has
    action overrides: the cycle returns, and the row of the entity is in
    the table with the overrides emptied. *)
Lemma stored_actionOverrides_empty_witness :
  let row := λ entry : Row * string,
               sobject_values entry.1 ∪ none_row (model_columns SObject_model) in
  let cycle := populate_cache_http Schema_init fresh_store (sf_account "Old") y2k in
  cycle.2 = Ok () ∧
  account_payload "Old" !! "actionOverrides"
    = Some (VList [VDict [("name", VStr "New")]]) ∧
  ∃ tbl',
    cycle.1 !! __tablename__ SObject_model = Some tbl' ∧
    row (account_payload "Old", t2021) ∈ trows tbl' ∧
    row (account_payload "Old", t2021) !! "actionOverrides" = Some (VList []) ∧
    row (account_payload "Old", t2021) !! "label" = Some (VStr "Old").
Proof.
  intros row cycle.
  assert (cycle.2 = Ok ()) as Hok by (vm_compute; reflexivity).
  assert (fresh_store !! __tablename__ SObject_model
          = Some (sobjects_table fresh_store)) as Htbl by (vm_compute; reflexivity).
  destruct (stored_actionOverrides_empty SObject_model Field_model FileMetadata_model
              parsedate_http Schema_init fresh_store (sf_account "Old") y2k
              cycle.1 cycle.2 (sobjects_table fresh_store)
              ltac:(discriminate) ltac:(discriminate) Htbl (surjective_pairing _))
    as (Hrow & tbl' & Hdb & _ & Hall).
  split; [exact Hok|]. split; [vm_compute; reflexivity|].
  exists tbl'. split; [exact Hdb|].
  destruct (Hall Hok
              ltac:(right; apply (bool_decide_unpack _); vm_compute; exact I)
              (account_payload "Old", t2021)
              ltac:(apply (bool_decide_unpack _); vm_compute; exact I)) as [Hin Hao].
  split; [exact Hin|]. split; [exact Hao|].
  apply (proj2 (Hrow (account_payload "Old", t2021)));
    [discriminate|discriminate|vm_compute; reflexivity].
Defined.

Example payload_has_actionOverrides :
  account_payload "Old" !! "actionOverrides" = Some (VList [VDict [("name", VStr "New")]]) ∧
  (λ r, attr r "actionOverrides")
    <$> __getitem__ SObject_model Schema_init seeded_store "Account"
  = Ok (VList []).
Proof. split; vm_compute; reflexivity. Qed.

(** C2 on sample data.  A store seeded by a first cycle has the row of
    [Account] with label [Old].  When [Account] is reported changed
    again, with label [New], the cycle returns, the table has one row of
    that name and the row has the label [New]. *)
Lemma changed_entity_replaces_stored_row_witness :
  let prior := sobject_values (account_payload "Old")
                 ∪ none_row (model_columns SObject_model) in
  let new_row := sobject_values (account_payload "New")
                   ∪ none_row (model_columns SObject_model) in
  let cycle := populate_cache_http Schema_init seeded_store (sf_account "New") t2021 in
  filter_by_name "Account" (trows (sobjects_table seeded_store)) = [prior] ∧
  cycle.2 = Ok () ∧
  ∃ tbl',
    cycle.1 !! __tablename__ SObject_model = Some tbl' ∧
    tprimary_key tbl' = ["name"] ∧
    filter_by_name "Account" (trows tbl') = [new_row] ∧
    new_row !! "label" = Some (VStr "New") ∧
    NoDup ((λ r : Row, r !! "name") <$> trows tbl').
Proof.
  intros prior new_row cycle.
  assert (seeded_store !! __tablename__ SObject_model
          = Some (sobjects_table seeded_store)) as Htbl by (vm_compute; reflexivity).
  assert (tprimary_key (sobjects_table seeded_store) = ["name"]) as Hpk
    by (vm_compute; reflexivity).
  assert (filter_by_name "Account" (trows (sobjects_table seeded_store)) = [prior])
    as Hprior by (vm_compute; reflexivity).
  assert (last (filter (λ entry : Row * string, entry.1 !! "name" = Some (VStr "Account"))
                  (deep_describe (sf_account "New") t2021
                     (describe_names (sf_account "New"))))
          = Some (account_payload "New", t2021)) as Hlast by (vm_compute; reflexivity).
  assert (cycle.2 = Ok ()) as Hok by (vm_compute; reflexivity).
  assert (NoDup ((λ r : Row, r !! "name") <$> trows (sobjects_table seeded_store)))
    as Hnd.
  { apply (bool_decide_unpack _). vm_compute. exact I. }
  destruct (changed_entity_replaces_stored_row SObject_model Field_model
              FileMetadata_model parsedate_http Schema_init seeded_store
              (sf_account "New") t2021 cycle.1 cycle.2 (sobjects_table seeded_store)
              "Account" prior (account_payload "New") t2021
              ltac:(discriminate) ltac:(discriminate) Htbl Hpk Hprior Hlast
              (surjective_pairing _))
    as (tbl' & r & Hdb & Hpk' & Hone & Hres & _ & Hnd').
  split; [exact Hprior|]. split; [exact Hok|].
  exists tbl'. split; [exact Hdb|]. split; [exact Hpk'|].
  split; [exact (eq_trans Hone (f_equal (λ x, [x]) (Hres Hok)))|].
  split; [vm_compute; reflexivity|]. exact (Hnd' Hnd).
Defined.

(** The conflict clause decides: with keys that are declared without
    one, the same cycles raise and commit nothing. *)
Example cycles_on_tables_without_conflict_clause :
  populate_cache_http Schema_init (with_abort seeded_store) (sf_account "New") t2021
    = (with_abort seeded_store, Raise IntegrityError) ∧
  populate_cache_http Schema_init (with_abort seeded_store) sf_unchanged t2021
    = (with_abort seeded_store, Raise IntegrityError).
Proof. split; vm_compute; reflexivity. Qed.

(** C6 on sample data.  The store seeded by a first cycle holds the two
    metadata rows.  A second cycle, against a remote system that reports
    nothing changed, returns and leaves one row for each key again, with
    the watermark of the second cycle. *)
Lemma metadata_rows_after_reconciliation_witness :
  let cycle := populate_cache_http Schema_init seeded_store sf_unchanged t2022 in
  let defaults := none_row (model_columns FileMetadata_model) in
  filter_by_name "Last-Modified" (trows (file_metadata_table seeded_store))
    = [Last_Modified_row t2021 ∪ defaults] ∧
  cycle.2 = Ok () ∧
  ∃ tbl',
    cycle.1 !! __tablename__ FileMetadata_model = Some tbl' ∧
    filter_by_name "Last-Modified" (trows tbl') = [Last_Modified_row t2022 ∪ defaults] ∧
    filter_by_name "FormatVersion" (trows tbl') = [FormatVersion_row ∪ defaults] ∧
    (∀ c f, last_modified_date FileMetadata_model (mkSchema c VNone f) cycle.1
            = (mkSchema c (VStr t2022) f, Ok (VStr t2022))) ∧
    (NoDup ((λ r : Row, r !! "name") <$> trows (file_metadata_table seeded_store)) →
     NoDup ((λ r : Row, r !! "name") <$> trows tbl')).
Proof.
  intros cycle defaults.
  assert (seeded_store !! __tablename__ FileMetadata_model
          = Some (file_metadata_table seeded_store)) as Htbl by (vm_compute; reflexivity).
  assert (tprimary_key (file_metadata_table seeded_store) = ["name"]) as Hpk
    by (vm_compute; reflexivity).
  assert (cycle = (cycle.1, Ok ())) as Hcycle by (vm_compute; reflexivity).
  split; [vm_compute; reflexivity|]. split; [vm_compute; reflexivity|].
  exact (metadata_rows_after_reconciliation SObject_model Field_model
           FileMetadata_model parsedate_http Schema_init seeded_store sf_unchanged t2022
           cycle.1 (file_metadata_table seeded_store)
           ltac:(discriminate) ltac:(discriminate) Htbl Hpk Hcycle).
Defined.

(** C1, on an input where the code departs from it.  The previous
    watermark is the epoch and the one fetched entity, which has no field,
    was last modified in 2021.  The later of the two timestamps is the
    entity's, but the cycle records the epoch: the comparison sits in the
    loop over the fields and never runs for this entity. *)
Theorem watermark_misses_entity_without_fields :
  let cycle := populate_cache_http Schema_init fresh_store sf_fieldless y2k in
  deep_describe sf_fieldless y2k (describe_names sf_fieldless)
    = [(fieldless_payload, t2021)] ∧
  sortable_gt (parsedate_http t2021, t2021) (parsedate_http y2k, y2k) = Ok true ∧
  cycle.2 = Ok () ∧
  (last_modified_date FileMetadata_model Schema_init cycle.1).2 = Ok (VStr y2k).
Proof. vm_compute. repeat split. Qed.

(** With a field, the same timestamp becomes the watermark. *)
Example watermark_of_entity_with_fields :
  (last_modified_date FileMetadata_model Schema_init seeded_store).2 = Ok (VStr t2021).
Proof. vm_compute; reflexivity. Qed.

(** Dates are compared as dates: as strings, [t2022] sorts before [t2021]. *)
Example sortable_gt_by_date :
  str_gt t2022 t2021 = false ∧
  sortable_gt (parsedate_http t2022, t2022) (parsedate_http t2021, t2021) = Ok true.
Proof. vm_compute. repeat split. Qed.

(** C3 does not hold as the specification states it.  A save that is interrupted once the
    artifact has been opened for writing leaves an empty file where the
    good prior artifact was. *)
Lemma zip_database_interrupted_counterexample :
  let artifact := schema_path (zip_database_upto target_opened world_before_save).1 in
  schema_path world_before_save = Some (Gz (Db seeded_store)) ∧
  artifact = Some (Raw []) ∧
  artifact ≠ schema_path world_before_save ∧
  artifact ≠ None.
Proof. cbn. split; [done|]. split; [done|]. split; discriminate. Qed.

Lemma zip_database_writes_in_place_witness :
  let w' := (zip_database_upto partly_written world_before_save).1 in
  tempfile world_before_save = Some (Db fresh_store) ∧
  tempfile w' = tempfile world_before_save ∧
  schema_path w' = Some (TruncatedGz (Db fresh_store)) ∧
  (partly_written = target_opened ∨ partly_written = partly_written →
     ∃ w1, load_from_cache SObject_model w' = (w1, None)) ∧
  (partly_written = completed →
     unzip_database (mkWorld (schema_path w') None) = (w', Ok ())).
Proof.
  split; [reflexivity|].
  exact (zip_database_writes_in_place SObject_model world_before_save (Db fresh_store)
           partly_written eq_refl).
Defined.


(** C5 does not hold as the specification states it.  When the artifact does not
    decompress, no cleanup has been registered yet: after the failed load
    the stale artifact is still in place, and so is the scratch file that
    the decompression created. *)
Lemma load_failure_cleanup_counterexample :
  load_from_cache SObject_model (mkWorld (Some corrupt_artifact) None)
  = (mkWorld (Some corrupt_artifact) (Some (Raw [])), None).
Proof. reflexivity. Qed.

Lemma load_failure_falls_back_to_rebuild_witness :
  let w := mkWorld (Some corrupt_artifact) None in
  let w1 := mkWorld (Some corrupt_artifact) (Some (Raw [])) in
  let sf := sf_account "Old" in
  schema_path w = Some corrupt_artifact ∧
  load_from_cache SObject_model (mkWorld (Some corrupt_artifact) None) = (w1, None) ∧
  ((unzip_database (mkWorld (Some corrupt_artifact) None)).2 = Ok () →
     w1 = mkWorld None None) ∧
  sqlite_open (tempfile w1) = Ok ∅ ∧
  (get_org_schema_http sf false w).2 = (get_org_schema_http sf false (mkWorld None None)).2 ∧
  ∀ w' schema,
    get_org_schema_http sf false w = (w', Ok schema) →
    get_org_schema_http sf false (mkWorld None None) = (w', Ok schema) ∧
    schema = block_writing Schema_init ∧
    ∃ db', populate_cache_http Schema_init fresh_store sf y2k = (db', Ok ()) ∧
           w' = mkWorld (Some (Gz (Db db'))) (Some (Db db')).
Proof.
  intros w w1 sf. split; [reflexivity|]. split; [reflexivity|].
  exact (load_failure_falls_back_to_rebuild SObject_model Field_model FileMetadata_model
           parsedate_http sf w corrupt_artifact w1 eq_refl eq_refl).
Defined.

(** The cycle on the corrupt artifact returns, and its artifact loads. *)
Example rebuild_after_corrupt_artifact :
  let opened := get_org_schema_http (sf_account "Old") false
                  (mkWorld (Some corrupt_artifact) None) in
  opened.2 = Ok (block_writing Schema_init) ∧
  schema_path opened.1 = Some (Gz (Db seeded_store)) ∧
  (load_from_cache SObject_model (mkWorld (schema_path opened.1) None)).2
    = Some (mkSchema real_commit VNone true).
Proof. vm_compute. repeat split. Qed.

(** * The further properties on sample data *)

Lemma sample_session_wf : session_wf sample_session.
Proof.
  by destruct (BufferedSession_init_spec fresh_store sample_metadata 1000
                 sample_session eq_refl) as (? & _).
Qed.

Lemma small_session_wf : session_wf small_session.
Proof.
  by destruct (BufferedSession_init_spec fresh_store sample_metadata 1
                 small_session eq_refl) as (? & _).
Qed.

Lemma written_session_wf (sess : BufferedSession) (ws : list (string * Row)) :
  session_wf sess → session_wf (write_rows sess ws).1.
Proof.
  intros Hwf.
  destruct (write_rows_spec sess ws _ _ Hwf (surjective_pairing _)) as (Hsetup & _).
  by eapply same_setup_wf.
Qed.

Lemma flush_empties_the_buffers_witness :
  length (buffered_rows buffered_session !!! "fields") = 3 ∧
  buffered_rows (flush buffered_session).1 !!! "fields" = [] ∧
  commit (flush buffered_session).1 = Ok (session (flush buffered_session).1).
Proof.
  split; [vm_compute; reflexivity|].
  destruct (flush_empties_the_buffers buffered_session (flush buffered_session).1
              (written_session_wf _ _ sample_session_wf)
              ltac:(vm_compute; reflexivity)) as (Hempty & _ & _ & _ & Hcommit).
  split; [|exact Hcommit].
  apply Hempty. apply (bool_decide_unpack _). vm_compute. exact I.
Defined.

Lemma failed_flush_is_never_committed_witness :
  flush (write_rows sample_session unnamed_rows).1
    = (refused_session, Raise IntegrityError) ∧
  flush refused_session = (refused_session, Raise IntegrityError) ∧
  (∃ e', commit (write_rows refused_session sample_rows).1 = Raise e') ∧
  (∃ e', BufferedSession_close (write_rows refused_session sample_rows).1 = Raise e').
Proof.
  assert (flush (write_rows sample_session unnamed_rows).1
          = (refused_session, Raise IntegrityError)) as Hf
    by (vm_compute; reflexivity).
  split; [exact Hf|].
  exact (failed_flush_is_never_committed
           (write_rows sample_session unnamed_rows).1 refused_session
           (write_rows refused_session sample_rows).1 IntegrityError sample_rows
           (write_rows refused_session sample_rows).2
           (written_session_wf _ _ sample_session_wf) Hf (surjective_pairing _)).
Defined.

Lemma buffers_stay_within_threshold_witness :
  max_buffer_size (write_rows small_session sample_rows).1 = 1%Z ∧
  ∀ t, (Z.of_nat (length (buffered_rows (write_rows small_session sample_rows).1 !!! t))
          ≤ 1)%Z.
Proof.
  apply (buffers_stay_within_threshold small_session
           (write_rows small_session sample_rows).1 sample_rows small_session_wf).
  - intros t. cbn [small_session buffered_rows max_buffer_size].
    rewrite lookup_total_empty. cbn. lia.
  - vm_compute; reflexivity.
Defined.

Lemma with_block_commits_before_exception_witness :
  let db1 := (write_all fresh_store sample_metadata 1000 sample_rows).1 in
  write_all fresh_store sample_metadata 1000
    (sample_rows ++ ("missing", ∅) :: sample_rows) = (db1, Raise KeyError) ∧
  write_all fresh_store sample_metadata 1000 sample_rows = (db1, Ok ()).
Proof.
  intros db1.
  apply (with_block_commits_before_exception fresh_store db1 sample_metadata 1000
           sample_rows sample_rows "missing" ∅).
  - discriminate.
  - vm_compute; reflexivity.
  - apply (bool_decide_unpack _). vm_compute. exact I.
  - vm_compute; reflexivity.
Defined.

Lemma write_single_row_flushes_at_threshold_witness :
  let row : Row := <["name" := VStr "Id"]> ∅ in
  let defaults := none_row ["sobject"; "name"; "label"; "type"] in
  let sess' := (write_single_row sample_session "fields" row).1 in
  bool_decide (Z.of_nat (length (buffered_rows sample_session !!! "fields"))
                 < max_buffer_size sample_session)%Z = true ∧
  (write_single_row sample_session "fields" row).2 = Ok () ∧
  session sess' = session sample_session ∧
  buffered_rows sess'
    = <["fields" := buffered_rows sample_session !!! "fields" ++ [row ∪ defaults]]>
        (buffered_rows sample_session).
Proof.
  intros row defaults sess'.
  assert (bool_decide (Z.of_nat (length (buffered_rows sample_session !!! "fields"))
                         < max_buffer_size sample_session)%Z = true) as Hbelow
    by (vm_compute; reflexivity).
  split; [exact Hbelow|].
  pose proof (write_single_row_flushes_at_threshold sample_session sess' "fields" row
                defaults (write_single_row sample_session "fields" row).2
                sample_session_wf ltac:(vm_compute; reflexivity)
                (surjective_pairing _)) as H.
  rewrite Hbelow in H. exact H.
Defined.

Lemma last_modified_date_is_cached_witness :
  let cached := mkSchema real_commit (VStr t2021) false in
  last_modified_date FileMetadata_model Schema_init seeded_store
    = (cached, Ok (VStr t2021)) ∧
  _last_modified_date cached = VStr t2021 ∧
  session_commit cached = session_commit Schema_init ∧
  from_cache cached = from_cache Schema_init ∧
  ∀ db2, last_modified_date FileMetadata_model cached db2 = (cached, Ok (VStr t2021)).
Proof.
  intros cached.
  assert (last_modified_date FileMetadata_model Schema_init seeded_store
          = (cached, Ok (VStr t2021))) as H by (vm_compute; reflexivity).
  split; [exact H|].
  exact (last_modified_date_is_cached FileMetadata_model Schema_init cached seeded_store
           (VStr t2021) H eq_refl).
Defined.

Lemma account_entry_well_formed (label : string) :
  Forall (well_formed_entry parsedate_http)
    (deep_describe (sf_account label) y2k (describe_names (sf_account label))).
Proof.
  assert (deep_describe (sf_account label) y2k (describe_names (sf_account label))
          = [(account_payload label, t2021)]) as -> by reflexivity.
  apply Forall_cons. split; [|constructor]. split.
  - exists [VDict [("name", VStr "Id"); ("type", VStr "id")];
            VDict [("name", VStr "Name"); ("type", VStr "string")]].
    split; [reflexivity|]. split.
    + apply Forall_cons. split; [by eexists|].
      apply Forall_cons. split; [by eexists|]. constructor.
    + intros _. exists (VStr "Account"). reflexivity.
  - eexists. vm_compute. reflexivity.
Qed.

Lemma populate_cache_writes_rows_witness :
  let ws := populate_writes SObject_model Field_model FileMetadata_model parsedate_http
              (deep_describe (sf_account "Old") y2k (describe_names (sf_account "Old")))
              y2k in
  populate_cache_http Schema_init fresh_store (sf_account "Old") y2k
    = write_all fresh_store sample_metadata 1000 ws ∧
  (is_ok (populate_cache_http Schema_init fresh_store (sf_account "Old") y2k).2 = true
   ↔ is_Some (unbuffered (columns_of sample_metadata) ws (Some fresh_store))).
Proof.
  apply (populate_cache_writes_rows SObject_model Field_model FileMetadata_model
           parsedate_http Schema_init fresh_store (sf_account "Old") y2k).
  - eexists. vm_compute. reflexivity.
  - apply account_entry_well_formed.
Defined.

Lemma field_rows_name_their_entity_witness :
  let cycle := populate_cache_http Schema_init fresh_store (sf_account "Old") y2k in
  let field_row := λ (name : value) (d : list (string * value)),
                     <["sobject" := name]> (dict_of_items d)
                       ∪ none_row (model_columns Field_model) in
  cycle.2 = Ok () ∧
  ∃ tbl',
    cycle.1 !! __tablename__ Field_model = Some tbl' ∧
    field_row (VStr "Account") [("name", VStr "Id"); ("type", VStr "id")] ∈ trows tbl' ∧
    field_row (VStr "Account") [("name", VStr "Name"); ("type", VStr "string")]
      ∈ trows tbl' ∧
    ∀ r, r ∈ trows tbl' →
      r ∈ trows (fields_table fresh_store) ∨
      ∃ entry fields name d,
        entry ∈ deep_describe (sf_account "Old") y2k (describe_names (sf_account "Old")) ∧
        entry.1 !! "fields" = Some (VList fields) ∧
        VDict d ∈ fields ∧ entry.1 !! "name" = Some name ∧ r = field_row name d.
Proof.
  intros cycle field_row.
  assert (cycle.2 = Ok ()) as Hok by (vm_compute; reflexivity).
  destruct (field_rows_name_their_entity SObject_model Field_model FileMetadata_model
              parsedate_http ltac:(discriminate) ltac:(discriminate)
              Schema_init fresh_store (sf_account "Old") y2k cycle.1 cycle.2
              (fields_table fresh_store)
              ltac:(vm_compute; reflexivity) (surjective_pairing _))
    as (_ & tbl' & Hdb & Hfrom & Hall).
  split; [exact Hok|]. exists tbl'. split; [exact Hdb|].
  pose proof (Hall Hok
                ltac:(right; apply (bool_decide_unpack _); vm_compute; exact I)
                (account_payload "Old", t2021)
                [VDict [("name", VStr "Id"); ("type", VStr "id")];
                 VDict [("name", VStr "Name"); ("type", VStr "string")]]
                (VStr "Account")) as Hin.
  assert (Forall (λ field : value, ∃ d, field = VDict d)
            [VDict [("name", VStr "Id"); ("type", VStr "id")];
             VDict [("name", VStr "Name"); ("type", VStr "string")]]) as Hdicts.
  { apply Forall_cons. split; [by eexists|].
    apply Forall_cons. split; [by eexists|]. constructor. }
  split.
  { apply (Hin [("name", VStr "Id"); ("type", VStr "id")]);
      [left|reflexivity|exact Hdicts|left|reflexivity]. }
  split; [|exact Hfrom].
  apply (Hin [("name", VStr "Name"); ("type", VStr "string")]);
    [left|reflexivity|exact Hdicts|right; left|reflexivity].
Defined.

Lemma unchanged_remote_writes_only_metadata_witness :
  let cycle := populate_cache_http Schema_init seeded_store sf_unchanged t2022 in
  let defaults := none_row (model_columns FileMetadata_model) in
  cycle.2 = Ok () ∧
  cycle.1 !! __tablename__ SObject_model = seeded_store !! __tablename__ SObject_model ∧
  cycle.1 !! __tablename__ Field_model = seeded_store !! __tablename__ Field_model ∧
  ∃ tbl',
    cycle.1 !! __tablename__ FileMetadata_model = Some tbl' ∧
    filter_by_name "Last-Modified" (trows tbl') = [Last_Modified_row t2022 ∪ defaults] ∧
    filter_by_name "FormatVersion" (trows tbl') = [FormatVersion_row ∪ defaults] ∧
    ∀ c f, last_modified_date FileMetadata_model (mkSchema c VNone f) cycle.1
           = (mkSchema c (VStr t2022) f, Ok (VStr t2022)).
Proof.
  intros cycle defaults.
  assert (cycle.2 = Ok ()) as Hok by (vm_compute; reflexivity).
  destruct (unchanged_remote_writes_only_metadata SObject_model Field_model
              FileMetadata_model parsedate_http ltac:(discriminate) ltac:(discriminate)
              Schema_init seeded_store sf_unchanged t2022 cycle.1 cycle.2
              ltac:(apply (bool_decide_unpack _); vm_compute; exact I)
              (surjective_pairing _))
    as (Hs & Hf & new & _ & _ & Hres).
  split; [exact Hok|]. split; [exact Hs|]. split; [exact Hf|].
  destruct (Hres Hok) as [_ Hkeyed].
  exact (Hkeyed (file_metadata_table seeded_store)
           ltac:(vm_compute; reflexivity) ltac:(vm_compute; reflexivity)).
Defined.

Lemma recorded_watermark_is_latest_witness :
  let full := deep_describe (sf_account "Old") y2k (describe_names (sf_account "Old")) in
  ∃ w,
    (last_modified_date FileMetadata_model Schema_init seeded_store).2 = Ok (VStr w) ∧
    (w = y2k ∨ ∃ entry, entry ∈ full ∧ has_fields entry = true ∧ w = entry.2) ∧
    sortable_gt (stamp parsedate_http y2k) (stamp parsedate_http w) = Ok false ∧
    ∀ entry, entry ∈ full → has_fields entry = true →
      sortable_gt (stamp parsedate_http entry.2) (stamp parsedate_http w) = Ok false.
Proof.
  intros full.
  apply (recorded_watermark_is_latest SObject_model Field_model FileMetadata_model
           parsedate_http ltac:(discriminate) ltac:(discriminate)
           Schema_init fresh_store (sf_account "Old") y2k seeded_store
           (file_metadata_table fresh_store)).
  - vm_compute; reflexivity.
  - vm_compute; reflexivity.
  - eexists. vm_compute. reflexivity.
  - eapply Forall_impl; [apply (account_entry_well_formed "Old")|].
    intros entry [_ H]. exact H.
  - vm_compute; reflexivity.
Defined.


Lemma load_from_cache_succeeds_iff_witness :
  load_from_cache SObject_model cached_world
  = (mkWorld (Some (Gz (Db seeded_store))) (Some (Db seeded_store)),
     Some (mkSchema real_commit VNone true)).
Proof.
  apply (load_from_cache_succeeds_iff SObject_model cached_world).
  exists seeded_store, (sobjects_table seeded_store),
    (sobject_values (account_payload "Old") ∪ none_row (model_columns SObject_model)),
    [].
  split_and!; try reflexivity; vm_compute; reflexivity.
Defined.

Lemma get_org_schema_yields_frozen_saved_schema_witness :
  let cycle := get_org_schema_http (sf_account "Old") false (mkWorld None None) in
  cycle.2 = Ok (block_writing Schema_init) ∧
  Schema_session_commit (block_writing Schema_init) = Raise IOError ∧
  (∃ db', cycle.1 = mkWorld (Some (Gz (Db db'))) (Some (Db db')) ∧
          unzip_database (release cycle.1) = (cycle.1, Ok ())) ∧
  (from_cache (block_writing Schema_init) = true →
     false = false ∧ ∃ s, schema_path (mkWorld None None) = Some (Gz (Db s))).
Proof.
  intros cycle.
  assert (cycle = (cycle.1, Ok (block_writing Schema_init))) as H
    by (vm_compute; reflexivity).
  split; [vm_compute; reflexivity|].
  exact (get_org_schema_yields_frozen_saved_schema SObject_model Field_model
           FileMetadata_model parsedate_http (sf_account "Old") false (mkWorld None None)
           cycle.1 (block_writing Schema_init) H).
Defined.

Lemma failed_refresh_writes_no_artifact_witness :
  let cycle := get_org_schema_http sf_malformed false cached_world in
  cycle = (mkWorld (schema_path cached_world) None, Raise KeyError) ∧
  load_from_cache SObject_model (release cycle.1)
  = (mkWorld (schema_path cached_world) (Some (Db seeded_store)),
     Some (mkSchema real_commit VNone true)).
Proof.
  intros cycle.
  apply (failed_refresh_writes_no_artifact SObject_model Field_model FileMetadata_model
           parsedate_http sf_malformed cached_world seeded_store
           (sobjects_table seeded_store)
           (sobject_values (account_payload "Old")
              ∪ none_row (model_columns SObject_model))
           [] (mkSchema real_commit (VStr t2021) true) t2021
           (populate_cache_http (mkSchema real_commit (VStr t2021) true) seeded_store
              sf_malformed t2021).1 KeyError).
  - reflexivity.
  - vm_compute; reflexivity.
  - vm_compute; reflexivity.
  - vm_compute; reflexivity.
  - vm_compute; reflexivity.
  - vm_compute; reflexivity.
Defined.

Lemma cached_watermark_is_the_baseline_witness :
  get_org_schema_http sf_unchanged false (mkWorld (Some (Gz (Db (without_keys seeded_store)))) None)
  = match populate_cache_http (mkSchema real_commit (VStr t2021) true)
            (without_keys seeded_store) sf_unchanged t2021 with
    | (_, Raise e) =>
        (mkWorld (Some (Gz (Db (without_keys seeded_store)))) None, Raise e)
    | (db', Ok _) =>
        (mkWorld (Some (Gz (Db db'))) (Some (Db db')),
         Ok (mkSchema closed (VStr t2021) true))
    end.
Proof.
  apply (cached_watermark_is_the_baseline SObject_model Field_model FileMetadata_model
           parsedate_http sf_unchanged
           (mkWorld (Some (Gz (Db (without_keys seeded_store)))) None)
           (without_keys seeded_store)
           (sobjects_table (without_keys seeded_store))
           (file_metadata_table (without_keys seeded_store))
           (sobject_values (account_payload "Old")
              ∪ none_row (model_columns SObject_model))
           (Last_Modified_row t2021 ∪ none_row (model_columns FileMetadata_model))
           [] t2021).
  - reflexivity.
  - vm_compute; reflexivity.
  - vm_compute; reflexivity.
  - vm_compute; reflexivity.
  - vm_compute; reflexivity.
  - vm_compute; reflexivity.
  - vm_compute; reflexivity.
  - discriminate.
Defined.

Lemma populate_cache_returns_when_rows_replace_witness :
  ∃ db', populate_cache_http Schema_init seeded_store (sf_account "New") y2k
         = (db', Ok ()).
Proof.
  apply (populate_cache_returns_when_rows_replace SObject_model Field_model
           FileMetadata_model parsedate_http Schema_init seeded_store
           (sf_account "New") y2k).
  - eexists. vm_compute. reflexivity.
  - apply account_entry_well_formed.
  - vm_compute; reflexivity.
Defined.
